(** * YogaFlow Lite: the sequence-position service over its relational store

    A shallow embedding of [sequence-poses.service.ts] (the functions
    [verifySequenceOwnership], [resolvePoseVersion], [getNextPosition],
    [shiftPositionsUp], [fetchSequencePoseDto], [addPoseToSequence],
    [updateSequencePose], [shiftPositionsDown], [removeSequencePose]), of the
    Zod schemas of [sequence-poses.validation.ts], of the POST, PATCH and
    DELETE handlers, and of the four tables of the initial migration the
    service reads and writes, with the constraints the migration declares on
    [sequence_poses]; and of three pieces of the other modules: the rate
    limiter of [rate-limiter.ts], [distributeDuration] of
    [ai-generation.service.ts] and [sanitizeSearchTerm] of [poses.service.ts].

    The service is asynchronous code that awaits one store call after the
    other and throws on the first error; a thrown error undoes nothing.  It is
    modelled in a state-and-exception monad over a [World]: the tables, the
    list of write statements issued so far, and the store's availability.

    Identifiers are strings, positions are integers ([Z]; the range of the
    column type [int] is not modelled).  A read is answered from the tables
    and fails only where a result modifier rejects the number of rows; a write
    statement fails when the store is unreachable or a constraint rejects
    it. *)

From Stdlib Require Import ZArith List String Bool Lia Permutation Sorted FinFun.
From Stdlib Require Import PrimFloat.
From Stdlib Require FloatOps Uint63.
Import ListNotations.
Open Scope string_scope.
Open Scope list_scope.
Open Scope Z_scope.

Set Implicit Arguments.

(** ** Rows of the four tables *)

Definition Id := string.

Definition same (a b : Id) : bool := String.eqb a b.
Infix "==" := same (at level 70, no associativity).

Record Sequence := mkSequence {
  seq_id : Id;
  seq_user_id : Id
}.

Record Pose := mkPose {
  pose_id : Id;
  pose_name : string;
  current_version_id : option Id
}.

Record PoseVersion := mkPoseVersion {
  pv_id : Id;
  pv_pose_id : Id;
  pv_version : Z
}.

Record SequencePose := mkSequencePose {
  sp_id : Id;
  sp_sequence_id : Id;
  sp_pose_id : Id;
  sp_pose_version_id : Id;
  sp_position : Z
}.

Record Store := mkStore {
  sequences : list Sequence;
  poses : list Pose;
  pose_versions : list PoseVersion;
  sequence_poses : list SequencePose
}.

(** ** Errors and results

    The service throws [new Error("<CODE>")] for its own failures and rethrows
    the [error] object of a store call unchanged. *)

Inductive Err :=
| AppError (message : string)
| StoreError (code : string).

Inductive Result (A : Type) :=
| Ok (a : A)
| Throw (e : Err).
Arguments Ok {A} a.
Arguments Throw {A} e.

(** ** The world a service call runs in *)

Inductive Write :=
| WUpdatePosition (id : Id) (position : Z)
| WInsert (row : SequencePose)
| WDelete (id : Id).

(** [outage = Some n]: the store serves [n] more write statements and is
    unreachable afterwards; [None]: the store stays reachable. *)
Record World := mkWorld {
  db : Store;
  issued : list Write;
  outage : option nat
}.

Definition M (A : Type) := World -> Result A * World.

Definition ret {A} (a : A) : M A := fun w => (Ok a, w).
Definition throw {A} (e : Err) : M A := fun w => (Throw e, w).
Definition bind {A B} (m : M A) (k : A -> M B) : M B :=
  fun w => match m w with
           | (Ok a, w') => k a w'
           | (Throw e, w') => (Throw e, w')
           end.

Notation "x <- m ;; k" := (bind m (fun x => k))
  (at level 61, m at next level, right associativity).
Notation "m ;;; k" := (bind m (fun _ => k))
  (at level 61, right associativity).

(** A read: the tables are consulted, nothing changes. *)
Definition query {A} (q : Store -> Result A) : M A :=
  fun w => (q (db w), w).

(** [for (const x of xs) { await body(x) }]: stops at the first throw. *)
Fixpoint for_each {A} (xs : list A) (body : A -> M unit) : M unit :=
  match xs with
  | [] => ret tt
  | x :: rest => body x ;;; for_each rest body
  end.

(** ** The query builder's result modifiers *)

Definition maybeSingle {A} (rows : list A) : Result (option A) :=
  match rows with
  | [] => Ok None
  | [r] => Ok (Some r)
  | _ => Throw (StoreError "PGRST116")
  end.

Definition single {A} (rows : list A) : Result A :=
  match rows with
  | [r] => Ok r
  | _ => Throw (StoreError "PGRST116")
  end.

(** [.order("position", { ascending })]: a stable insertion sort. *)
Definition before (ascending : bool) (a b : Z) : bool :=
  if ascending then a <=? b else b <=? a.

Fixpoint insert_by (ascending : bool) (r : SequencePose) (rs : list SequencePose)
  : list SequencePose :=
  match rs with
  | [] => [r]
  | x :: rest =>
      if before ascending (sp_position r) (sp_position x)
      then r :: x :: rest
      else x :: insert_by ascending r rest
  end.

Definition order (ascending : bool) (rs : list SequencePose) : list SequencePose :=
  fold_right (insert_by ascending) [] rs.

Definition in_sequence (sequenceId : Id) (r : SequencePose) : bool :=
  sp_sequence_id r == sequenceId.

(** ** Write statements against [sequence_poses]

    Every statement is recorded in [issued].  A store in outage answers with an
    error; otherwise the statement runs under the constraints of the
    migration: primary key [id], foreign keys to [sequences], [poses] and
    [pose_versions], and [unique_sequence_position unique (sequence_id,
    position)], which is not deferrable and so is checked by each statement. *)

Definition record (wr : Write) (w : World) : World :=
  mkWorld (db w) (issued w ++ [wr]) (outage w).

Definition served (w : World) : World :=
  mkWorld (db w) (issued w)
          (match outage w with Some n => Some (Nat.pred n) | None => None end).

Definition set_rows (rows : list SequencePose) (w : World) : World :=
  mkWorld (mkStore (sequences (db w)) (poses (db w)) (pose_versions (db w)) rows)
          (issued w) (outage w).

Definition reachable (w : World) : bool :=
  match outage w with Some O => false | _ => true end.

Definition position_taken (rows : list SequencePose) (self sequenceId : Id) (p : Z)
  : bool :=
  existsb (fun r => negb (sp_id r == self) && in_sequence sequenceId r
                    && (sp_position r =? p)) rows.

Definition set_position (id : Id) (p : Z) (r : SequencePose) : SequencePose :=
  if sp_id r == id
  then mkSequencePose (sp_id r) (sp_sequence_id r) (sp_pose_id r)
                      (sp_pose_version_id r) p
  else r.

(** [.from("sequence_poses").update({ position: p }).eq("id", id)]; a
    statement that matches no row is not an error. *)
Definition update_position (id : Id) (p : Z) : M unit :=
  fun w0 =>
    let w := record (WUpdatePosition id p) w0 in
    let rows := sequence_poses (db w) in
    if negb (reachable w) then (Throw (StoreError "UNAVAILABLE"), w)
    else match find (fun r => sp_id r == id) rows with
         | None => (Ok tt, served w)
         | Some r =>
             if position_taken rows id (sp_sequence_id r) p
             then (Throw (StoreError "23505"), served w)
             else (Ok tt, set_rows (map (set_position id p) rows) (served w))
         end.

(** [.from("sequence_poses").insert(row).select("id").single()]; the row's
    [id] is the value the column default [gen_random_uuid()] produced. *)
Definition insert_sequence_pose (row : SequencePose) : M Id :=
  fun w0 =>
    let w := record (WInsert row) w0 in
    let rows := sequence_poses (db w) in
    if negb (reachable w) then (Throw (StoreError "UNAVAILABLE"), w)
    else if existsb (fun r => sp_id r == sp_id row) rows
            || position_taken rows (sp_id row) (sp_sequence_id row) (sp_position row)
    then (Throw (StoreError "23505"), served w)
    else if negb (existsb (fun s => seq_id s == sp_sequence_id row) (sequences (db w)))
            || negb (existsb (fun p => pose_id p == sp_pose_id row) (poses (db w)))
            || negb (existsb (fun v => pv_id v == sp_pose_version_id row)
                             (pose_versions (db w)))
    then (Throw (StoreError "23503"), served w)
    else (Ok (sp_id row), set_rows (rows ++ [row]) (served w)).

(** [.from("sequence_poses").delete().eq("id", id)] *)
Definition delete_sequence_pose (id : Id) : M unit :=
  fun w0 =>
    let w := record (WDelete id) w0 in
    let rows := sequence_poses (db w) in
    if negb (reachable w) then (Throw (StoreError "UNAVAILABLE"), w)
    else (Ok tt, set_rows (filter (fun r => negb (sp_id r == id)) rows) (served w)).

(** The update statement in a store that would check
    [unique_sequence_position] at the end of a transaction instead of per
    statement.  The migration does not declare the constraint deferrable and
    the service opens no transaction: this statement is not the service's, it
    serves to state what the reordering block is written to achieve. *)
Definition update_position_deferred (id : Id) (p : Z) : M unit :=
  fun w0 =>
    let w := record (WUpdatePosition id p) w0 in
    if negb (reachable w) then (Throw (StoreError "UNAVAILABLE"), w)
    else (Ok tt, set_rows (map (set_position id p) (sequence_poses (db w))) (served w)).

(** ** Commands and the returned DTO ([types.ts]) *)

Record AddPoseToSequenceCommand := mkAddPoseToSequenceCommand {
  add_poseId : Id;
  add_poseVersion : option Z;
  add_position : option Z
}.

Record UpdateSequencePoseCommand := mkUpdateSequencePoseCommand {
  upd_position : option Z;
  upd_duration : option Z;
  upd_instructions : option string
}.

Record SequencePoseDto := mkSequencePoseDto {
  dto_id : Id;
  dto_poseId : Id;
  dto_poseName : string;
  dto_position : Z
}.

(** ** The service *)

Definition verifySequenceOwnership (sequenceId userId : Id) : M Sequence :=
  data <- query (fun d =>
            maybeSingle (filter (fun s => (seq_id s == sequenceId)
                                          && (seq_user_id s == userId))
                                (sequences d))) ;;
  match data with
  | None => throw (AppError "SEQUENCE_NOT_FOUND")
  | Some s => ret s
  end.

Definition resolvePoseVersion (poseId : Id) (version : option Z) : M Id :=
  match version with
  | Some v =>
      data <- query (fun d =>
                maybeSingle (filter (fun pv => (pv_pose_id pv == poseId)
                                               && (pv_version pv =? v))
                                    (pose_versions d))) ;;
      match data with
      | None => throw (AppError "POSE_VERSION_NOT_FOUND")
      | Some pv => ret (pv_id pv)
      end
  | None =>
      poseData <- query (fun d =>
                    maybeSingle (filter (fun p => pose_id p == poseId) (poses d))) ;;
      match poseData with
      | None => throw (AppError "POSE_NOT_FOUND")
      | Some p =>
          match current_version_id p with
          | None => throw (AppError "POSE_NOT_FOUND")
          | Some cv => if cv == "" then throw (AppError "POSE_NOT_FOUND") else ret cv
          end
      end
  end.

Definition getNextPosition (sequenceId : Id) : M Z :=
  data <- query (fun d =>
            maybeSingle (firstn 1 (order false (filter (in_sequence sequenceId)
                                                       (sequence_poses d))))) ;;
  ret (match data with
       | Some r => sp_position r + 1
       | None => 1
       end).

Definition shiftPositionsUp (sequenceId : Id) (fromPosition : Z) : M unit :=
  posesToShift <- query (fun d =>
     Ok (order false (filter (fun r => in_sequence sequenceId r
                                       && (fromPosition <=? sp_position r))
                             (sequence_poses d)))) ;;
  for_each posesToShift (fun pose => update_position (sp_id pose) (sp_position pose + 1)).

Definition fetchSequencePoseDto (sequencePoseId : Id) : M SequencePoseDto :=
  data <- query (fun d =>
            single (filter (fun r => sp_id r == sequencePoseId) (sequence_poses d))) ;;
  joined <- query (fun d => Ok (find (fun p => pose_id p == sp_pose_id data) (poses d))) ;;
  match joined with
  | None => throw (AppError "SEQUENCE_POSE_NOT_FOUND")
  | Some pose =>
      ret (mkSequencePoseDto (sp_id data) (sp_pose_id data) (pose_name pose)
                             (sp_position data))
  end.

(** [newId] stands for the [id] the store generates for the inserted row. *)
Definition addPoseToSequence (newId : Id) (userId sequenceId : Id)
           (command : AddPoseToSequenceCommand) : M SequencePoseDto :=
  verifySequenceOwnership sequenceId userId ;;;
  poseVersionId <- resolvePoseVersion (add_poseId command) (add_poseVersion command) ;;
  position <- match add_position command with
              | Some p => ret p
              | None => getNextPosition sequenceId
              end ;;
  maxPosition <- getNextPosition sequenceId ;;
  if maxPosition <? position then throw (AppError "INVALID_POSITION") else
  match add_position command with
  | Some p => if p <? maxPosition then shiftPositionsUp sequenceId p else ret tt
  | None => ret tt
  end ;;;
  id <- insert_sequence_pose
          (mkSequencePose newId sequenceId (add_poseId command) poseVersionId position) ;;
  fetchSequencePoseDto id.

Definition is_defined {A} (o : option A) : bool :=
  match o with Some _ => true | None => false end.

(** The reordering block of [updateSequencePose] (the statements after the
    range check): shift the rows between the old and the new position, then
    set the target row.  [update] is the update statement; the service issues
    [update_position]. *)
Definition reorder_with (update : Id -> Z -> M unit)
           (sequenceId sequencePoseId : Id) (oldPosition newPosition : Z) : M unit :=
  (if oldPosition <? newPosition then
     posesToShift <- query (fun d =>
       Ok (order true (filter (fun r => in_sequence sequenceId r
                                        && (oldPosition <? sp_position r)
                                        && (sp_position r <=? newPosition))
                              (sequence_poses d)))) ;;
     for_each posesToShift
              (fun pose => update (sp_id pose) (sp_position pose - 1))
   else ret tt) ;;;
  (if newPosition <? oldPosition then
     posesToShift <- query (fun d =>
       Ok (order false (filter (fun r => in_sequence sequenceId r
                                         && (newPosition <=? sp_position r)
                                         && (sp_position r <? oldPosition))
                               (sequence_poses d)))) ;;
     for_each posesToShift
              (fun pose => update (sp_id pose) (sp_position pose + 1))
   else ret tt) ;;;
  update sequencePoseId newPosition.

Definition reorder : Id -> Id -> Z -> Z -> M unit := reorder_with update_position.

Definition updateSequencePose (userId sequenceId sequencePoseId : Id)
           (command : UpdateSequencePoseCommand) : M SequencePoseDto :=
  verifySequenceOwnership sequenceId userId ;;;
  existing <- query (fun d =>
     maybeSingle (filter (fun r => (sp_id r == sequencePoseId)
                                   && in_sequence sequenceId r)
                         (sequence_poses d))) ;;
  match existing with
  | None => throw (AppError "SEQUENCE_POSE_NOT_FOUND")
  | Some existingPose =>
      if is_defined (upd_duration command) || is_defined (upd_instructions command)
      then throw (AppError "DURATION_AND_INSTRUCTIONS_NOT_SUPPORTED") else
      match upd_position command with
      | None => ret tt
      | Some position =>
          if position =? sp_position existingPose then ret tt else
          maxPosition <- getNextPosition sequenceId ;;
          if (position <? 1) || (maxPosition <=? position)
          then throw (AppError "INVALID_POSITION") else
          reorder sequenceId sequencePoseId (sp_position existingPose) position
      end ;;;
      fetchSequencePoseDto sequencePoseId
  end.

Definition shiftPositionsDown (sequenceId : Id) (fromPosition : Z) : M unit :=
  posesToShift <- query (fun d =>
     Ok (order true (filter (fun r => in_sequence sequenceId r
                                      && (fromPosition <? sp_position r))
                            (sequence_poses d)))) ;;
  for_each posesToShift (fun pose => update_position (sp_id pose) (sp_position pose - 1)).

Definition removeSequencePose (userId sequenceId sequencePoseId : Id) : M unit :=
  verifySequenceOwnership sequenceId userId ;;;
  existing <- query (fun d =>
     maybeSingle (filter (fun r => (sp_id r == sequencePoseId)
                                   && in_sequence sequenceId r)
                         (sequence_poses d))) ;;
  match existing with
  | None => throw (AppError "SEQUENCE_POSE_NOT_FOUND")
  | Some existingPose =>
      let deletedPosition := sp_position existingPose in
      delete_sequence_pose sequencePoseId ;;;
      shiftPositionsDown sequenceId deletedPosition
  end.

(** ** Request bodies and the Zod schemas ([sequence-poses.validation.ts])

    A body is the value [request.json()] returns.  A schema either accepts a
    body and yields the typed command, or rejects it; the issue messages are
    not modelled. *)

(** A parsed JSON number: an integer, or a number [Number.isInteger] rejects. *)
Inductive JsNumber :=
| JInt (z : Z)
| JNonInt.

#[local] Unset Elimination Schemes.
Inductive Json :=
| JNull
| JBool (b : bool)
| JNumber (n : JsNumber)
| JString (s : string)
| JArray (items : list Json)
| JObject (fields : list (string * Json)).
#[local] Set Elimination Schemes.

(** [body[key]]; of two fields with one name [JSON.parse] keeps the later. *)
Definition field (key : string) (fields : list (string * Json)) : option Json :=
  match find (fun kv => String.eqb (fst kv) key) (rev fields) with
  | Some kv => Some (snd kv)
  | None => None
  end.

Inductive Parsed (A : Type) :=
| Valid (a : A)
| Invalid.
Arguments Valid {A} a.
Arguments Invalid {A}.

(** [z.number().int().positive().optional()] *)
Definition optional_positive_int (v : option Json) : Parsed (option Z) :=
  match v with
  | None => Valid None
  | Some (JNumber (JInt z)) => if 0 <? z then Valid (Some z) else Invalid
  | Some _ => Invalid
  end.

(** [z.number().int().nonnegative().optional()] *)
Definition optional_nonnegative_int (v : option Json) : Parsed (option Z) :=
  match v with
  | None => Valid None
  | Some (JNumber (JInt z)) => if 0 <=? z then Valid (Some z) else Invalid
  | Some _ => Invalid
  end.

(** [z.string().max(n).optional()] *)
Definition optional_string_max (n : nat) (v : option Json) : Parsed (option string) :=
  match v with
  | None => Valid None
  | Some (JString s) => if (String.length s <=? n)%nat then Valid (Some s) else Invalid
  | Some _ => Invalid
  end.

Record Request := mkRequest {
  supabase_available : bool;
  auth_user : option Id;
  params_sequenceId : option string;
  params_sequencePoseId : option string;
  body : option Json
}.

Record Response := mkResponse {
  status : Z;
  error_code : option string;
  payload : option SequencePoseDto
}.

Definition error_response (st : Z) (code : string) : Response :=
  mkResponse st (Some code) None.

Section Http.

(** The UUID pattern of the validation library, which is not part of the
    repository. *)
Variable is_uuid : string -> bool.

(** [z.string().uuid()] *)
Definition uuid_string (v : option Json) : Parsed string :=
  match v with
  | Some (JString s) => if is_uuid s then Valid s else Invalid
  | _ => Invalid
  end.

(** [uuidParamSchema.safeParse(params.x)] *)
Definition uuidParamSchema (param : option string) : Parsed string :=
  match param with
  | Some s => if is_uuid s then Valid s else Invalid
  | None => Invalid
  end.

Definition addPoseToSequenceSchema (requestBody : Json)
  : Parsed AddPoseToSequenceCommand :=
  match requestBody with
  | JObject fields =>
      match uuid_string (field "poseId" fields),
            optional_positive_int (field "poseVersion" fields),
            optional_positive_int (field "position" fields) with
      | Valid poseId, Valid poseVersion, Valid position =>
          Valid (mkAddPoseToSequenceCommand poseId poseVersion position)
      | _, _, _ => Invalid
      end
  | _ => Invalid
  end.

Definition updateSequencePoseSchema (requestBody : Json)
  : Parsed UpdateSequencePoseCommand :=
  match requestBody with
  | JObject fields =>
      match optional_positive_int (field "position" fields),
            optional_nonnegative_int (field "duration" fields),
            optional_string_max 1000 (field "instructions" fields) with
      | Valid position, Valid duration, Valid instructions =>
          if is_defined position || is_defined duration || is_defined instructions
          then Valid (mkUpdateSequencePoseCommand position duration instructions)
          else Invalid
      | _, _, _ => Invalid
      end
  | _ => Invalid
  end.

(** ** The handlers ([poses/index.ts], [poses/[sequencePoseId].ts]) *)

(** The [catch] block of POST. *)
Definition POST_catch (e : Err) : Response :=
  match e with
  | AppError m =>
      if String.eqb m "SEQUENCE_NOT_FOUND" then error_response 404 "SEQUENCE_NOT_FOUND"
      else if String.eqb m "POSE_NOT_FOUND" then error_response 400 "POSE_NOT_FOUND"
      else if String.eqb m "POSE_VERSION_NOT_FOUND"
      then error_response 400 "POSE_VERSION_NOT_FOUND"
      else if String.eqb m "INVALID_POSITION" then error_response 400 "INVALID_POSITION"
      else error_response 500 "INTERNAL_ERROR"
  | StoreError _ => error_response 500 "INTERNAL_ERROR"
  end.

Definition POST (newId : Id) (req : Request) : World -> Response * World :=
  fun w =>
    if negb (supabase_available req) then (error_response 500 "INTERNAL_ERROR", w) else
    match auth_user req with
    | None => (error_response 401 "UNAUTHORIZED", w)
    | Some userId =>
        match uuidParamSchema (params_sequenceId req) with
        | Invalid => (error_response 400 "VALIDATION_ERROR", w)
        | Valid sequenceId =>
            match body req with
            | None => (error_response 400 "INVALID_JSON", w)
            | Some requestBody =>
                match addPoseToSequenceSchema requestBody with
                | Invalid => (error_response 400 "VALIDATION_ERROR", w)
                | Valid command =>
                    match addPoseToSequence newId userId sequenceId command w with
                    | (Ok sequencePose, w') =>
                        (mkResponse 201 None (Some sequencePose), w')
                    | (Throw e, w') => (POST_catch e, w')
                    end
                end
            end
        end
    end.

(** The [catch] block of PATCH. *)
Definition PATCH_catch (e : Err) : Response :=
  match e with
  | AppError m =>
      if String.eqb m "SEQUENCE_NOT_FOUND" then error_response 404 "SEQUENCE_NOT_FOUND"
      else if String.eqb m "SEQUENCE_POSE_NOT_FOUND"
      then error_response 404 "SEQUENCE_POSE_NOT_FOUND"
      else if String.eqb m "INVALID_POSITION" then error_response 400 "INVALID_POSITION"
      else if String.eqb m "DURATION_AND_INSTRUCTIONS_NOT_SUPPORTED"
      then error_response 400 "FEATURE_NOT_SUPPORTED"
      else error_response 500 "INTERNAL_ERROR"
  | StoreError _ => error_response 500 "INTERNAL_ERROR"
  end.

Definition PATCH (req : Request) : World -> Response * World :=
  fun w =>
    if negb (supabase_available req) then (error_response 500 "INTERNAL_ERROR", w) else
    match auth_user req with
    | None => (error_response 401 "UNAUTHORIZED", w)
    | Some userId =>
        match uuidParamSchema (params_sequenceId req),
              uuidParamSchema (params_sequencePoseId req) with
        | Valid sequenceId, Valid sequencePoseId =>
            match body req with
            | None => (error_response 400 "INVALID_JSON", w)
            | Some requestBody =>
                match updateSequencePoseSchema requestBody with
                | Invalid => (error_response 400 "VALIDATION_ERROR", w)
                | Valid command =>
                    match updateSequencePose userId sequenceId sequencePoseId
                                             command w with
                    | (Ok updatedPose, w') =>
                        (mkResponse 200 None (Some updatedPose), w')
                    | (Throw e, w') => (PATCH_catch e, w')
                    end
                end
            end
        | _, _ => (error_response 400 "VALIDATION_ERROR", w)
        end
    end.

(** The [catch] block of DELETE. *)
Definition DELETE_catch (e : Err) : Response :=
  match e with
  | AppError m =>
      if String.eqb m "SEQUENCE_NOT_FOUND" then error_response 404 "SEQUENCE_NOT_FOUND"
      else if String.eqb m "SEQUENCE_POSE_NOT_FOUND"
      then error_response 404 "SEQUENCE_POSE_NOT_FOUND"
      else error_response 500 "INTERNAL_ERROR"
  | StoreError _ => error_response 500 "INTERNAL_ERROR"
  end.

(** DELETE has no body to parse and answers 204 with [null]. *)
Definition DELETE (req : Request) : World -> Response * World :=
  fun w =>
    if negb (supabase_available req) then (error_response 500 "INTERNAL_ERROR", w) else
    match auth_user req with
    | None => (error_response 401 "UNAUTHORIZED", w)
    | Some userId =>
        match uuidParamSchema (params_sequenceId req),
              uuidParamSchema (params_sequencePoseId req) with
        | Valid sequenceId, Valid sequencePoseId =>
            match removeSequencePose userId sequenceId sequencePoseId w with
            | (Ok _, w') => (mkResponse 204 None None, w')
            | (Throw e, w') => (DELETE_catch e, w')
            end
        | _, _ => (error_response 400 "VALIDATION_ERROR", w)
        end
    end.

End Http.

(** A JSON value is a positive integer. *)
Definition positive_integer (v : Json) : Prop :=
  exists z, v = JNumber (JInt z) /\ 0 < z.

(** ** Dense positions and store consistency *)

Definition entries (sequenceId : Id) (d : Store) : list SequencePose :=
  filter (in_sequence sequenceId) (sequence_poses d).

Definition positions (sequenceId : Id) (d : Store) : list Z :=
  map sp_position (entries sequenceId d).

(** The number of entries of a sequence. *)
Definition count (sequenceId : Id) (d : Store) : Z :=
  Z.of_nat (List.length (entries sequenceId d)).

(** [range n] is the list 1, 2, ..., n. *)
Definition range (n : nat) : list Z := map Z.of_nat (seq 1 n).

(** The positions of the sequence are exactly 1..N, each once, N being the
    number of its entries. *)
Definition dense (sequenceId : Id) (d : Store) : Prop :=
  Permutation (positions sequenceId d) (range (List.length (entries sequenceId d))).

Definition has_pose (d : Store) (p : Id) : Prop :=
  exists x, In x (poses d) /\ pose_id x = p.

Definition has_version (d : Store) (v : Id) : Prop :=
  exists x, In x (pose_versions d) /\ pv_id x = v.

(** The key constraints of the migration that the service relies on: the
    primary key of [sequence_poses] and the foreign keys into [poses] and
    [pose_versions].  ([unique_sequence_position] follows from [dense] for the
    sequence at hand.) *)
Record consistent (d : Store) : Prop := mkConsistent {
  pk_sequence_poses : NoDup (map sp_id (sequence_poses d));
  fk_entry_pose : forall r, In r (sequence_poses d) -> has_pose d (sp_pose_id r);
  fk_version_pose : forall v, In v (pose_versions d) -> has_pose d (pv_pose_id v);
  fk_current_version : forall p cv, In p (poses d) ->
      current_version_id p = Some cv -> has_version d cv
}.

(** Boolean checks of the two standing assumptions, for concrete stores. *)
Fixpoint distinct {A} (eqb : A -> A -> bool) (l : list A) : bool :=
  match l with
  | [] => true
  | x :: rest => negb (existsb (eqb x) rest) && distinct eqb rest
  end.

Definition denseb (sequenceId : Id) (d : Store) : bool :=
  distinct Z.eqb (positions sequenceId d)
  && forallb (fun z => (1 <=? z) && (z <=? count sequenceId d)) (positions sequenceId d).

Definition consistentb (d : Store) : bool :=
  distinct same (map sp_id (sequence_poses d))
  && forallb (fun r => existsb (fun x => pose_id x == sp_pose_id r) (poses d))
             (sequence_poses d)
  && forallb (fun v => existsb (fun x => pose_id x == pv_pose_id v) (poses d))
             (pose_versions d)
  && forallb (fun p => match current_version_id p with
                       | Some cv => existsb (fun x => pv_id x == cv) (pose_versions d)
                       | None => true
                       end)
             (poses d).

(** ** Describing a shift

    The rows the two shift helpers select, the statements a loop over the
    fetched rows issues, and the table it leaves behind. *)

Definition from_position (sequenceId : Id) (p : Z) (r : SequencePose) : bool :=
  in_sequence sequenceId r && (p <=? sp_position r).

Definition after_position (sequenceId : Id) (p : Z) (r : SequencePose) : bool :=
  in_sequence sequenceId r && (p <? sp_position r).

(** The position [addPoseToSequence] inserts at on a dense sequence. *)
Definition insert_position (sequenceId : Id) (d : Store)
           (command : AddPoseToSequenceCommand) : Z :=
  match add_position command with
  | Some p => p
  | None => count sequenceId d + 1
  end.

Definition shift_writes (delta : Z) (fetched : list SequencePose) : list Write :=
  map (fun pose => WUpdatePosition (sp_id pose) (sp_position pose + delta)) fetched.

(** What a shift loop leaves behind, statement by statement. *)
Definition shifted (delta : Z) (fetched rows : list SequencePose) : list SequencePose :=
  fold_left (fun acc pose => map (set_position (sp_id pose) (sp_position pose + delta)) acc)
            fetched rows.

(** [moved delta sel rows]: the rows selected by [sel] moved by [delta], the
    others as they were. *)
Definition moved (delta : Z) (sel : SequencePose -> bool) (rows : list SequencePose)
  : list SequencePose :=
  map (fun r => if sel r then set_position (sp_id r) (sp_position r + delta) r else r)
      rows.

(** The rows between the old and the new position of a move, and the
    direction they are shifted in. *)
Definition between (sequenceId : Id) (oldPosition newPosition : Z) (r : SequencePose)
  : bool :=
  in_sequence sequenceId r
  && (if oldPosition <? newPosition
      then (oldPosition <? sp_position r) && (sp_position r <=? newPosition)
      else (newPosition <=? sp_position r) && (sp_position r <? oldPosition)).

Definition shift_of (oldPosition newPosition : Z) : Z :=
  if oldPosition <? newPosition then -1 else 1.

(** [precedes asc] is the order in which [order asc] lists two rows;
    [strictly asc] is that order when no two rows share a position. *)
Definition precedes (asc : bool) (a b : SequencePose) : Prop :=
  if asc then sp_position a <= sp_position b else sp_position b <= sp_position a.

Definition strictly (asc : bool) (a b : SequencePose) : Prop :=
  if asc then sp_position a < sp_position b else sp_position b < sp_position a.

(** [evolves w w' rows ws]: from [w] to [w'] only [sequence_poses] changed,
    to [rows], and the statements [ws] were issued. *)
Definition evolves (w w' : World) (rows : list SequencePose) (ws : list Write) : Prop :=
  sequences (db w') = sequences (db w) /\
  poses (db w') = poses (db w) /\
  pose_versions (db w') = pose_versions (db w) /\
  sequence_poses (db w') = rows /\
  issued w' = issued w ++ ws /\
  (outage w = None -> outage w' = None).

(** [clear_of delta a b]: moving [a] by [delta] does not land on [b]. *)
Definition clear_of (delta : Z) (a b : SequencePose) : Prop :=
  sp_position b <> sp_position a + delta /\ sp_position b <> sp_position a.

(** What a shift loop over [fetched] needs of the table [rows] so that the
    store accepts every statement: the fetched rows are rows of the sequence
    as they are now, a row of the sequence that sits where a fetched row is
    about to go is itself still to be moved, and no row is moved onto a row
    that follows it in the loop. *)
Record loop_inv (delta : Z) (sequenceId : Id) (rows fetched : list SequencePose)
  : Prop := mkLoopInv {
  inv_pk : NoDup (map sp_id rows);
  inv_current : forall x, In x fetched -> In x rows;
  inv_sequence : forall x, In x fetched -> sp_sequence_id x = sequenceId;
  inv_target : forall r x, In r rows -> sp_sequence_id r = sequenceId ->
      In x fetched -> sp_position r = sp_position x + delta -> In r fetched;
  inv_order : StronglySorted (clear_of delta) fetched
}.

(** ** What the operations may change in [sequence_poses]

    [unpositioned r] is the row [r] without its position.  [keeps P m] says
    that every run of [m], whatever its outcome, takes a world to one related
    to it by [P]. *)

Definition unpositioned (r : SequencePose) : Id * Id * Id * Id :=
  (sp_id r, sp_sequence_id r, sp_pose_id r, sp_pose_version_id r).

Definition rows_unpositioned (w : World) : list (Id * Id * Id * Id) :=
  map unpositioned (sequence_poses (db w)).

Definition key_id (k : Id * Id * Id * Id) : Id := fst (fst (fst k)).

Definition keeps {A} (P : World -> World -> Prop) (m : M A) : Prop :=
  forall w r w', m w = (r, w') -> P w w'.

(** Only positions changed. *)
Definition repositioned (w w' : World) : Prop :=
  rows_unpositioned w' = rows_unpositioned w.

(** Positions changed and rows were deleted. *)
Definition trimmed (w w' : World) : Prop :=
  exists kept : Id * Id * Id * Id -> bool,
    rows_unpositioned w' = filter kept (rows_unpositioned w).

(** Positions changed and at most one row, with the id [newId] that no row
    had, was added at the end. *)
Definition appended (newId : Id) (w w' : World) : Prop :=
  rows_unpositioned w' = rows_unpositioned w \/
  exists k, rows_unpositioned w' = rows_unpositioned w ++ [k] /\
            key_id k = newId /\ ~ In newId (map key_id (rows_unpositioned w)).

(** The entry with id [e], while it exists, references version [V]. *)
Definition pinned_to (e V : Id) (w : World) : Prop :=
  NoDup (map sp_id (sequence_poses (db w))) /\
  forall r, In r (sequence_poses (db w)) -> sp_id r = e -> sp_pose_version_id r = V.

(** An edit of the catalog: [poses] and [pose_versions] replaced (a version
    added, a [current_version_id] changed, ...), the other tables as they
    were.  The repository has no code that edits the catalog; it is the
    store's administrator who does. *)
Definition with_catalog (ps : list Pose) (vs : list PoseVersion) (w : World) : World :=
  mkWorld (mkStore (sequences (db w)) ps vs (sequence_poses (db w)))
          (issued w) (outage w).

(** What may happen to the store after an entry with id [e] exists: catalog
    edits and runs of the three operations, of any outcome; the id of a row
    that exists or existed is not generated again. *)
Inductive history (e : Id) : World -> World -> Prop :=
| history_done w : history e w w
| history_catalog ps vs w w' :
    history e (with_catalog ps vs w) w' -> history e w w'
| history_insert newId uid sid cmd w r w1 w' :
    newId <> e ->
    addPoseToSequence newId uid sid cmd w = (r, w1) ->
    history e w1 w' -> history e w w'
| history_move uid sid id cmd w r w1 w' :
    updateSequencePose uid sid id cmd w = (r, w1) ->
    history e w1 w' -> history e w w'
| history_remove uid sid id w r w1 w' :
    removeSequencePose uid sid id w = (r, w1) ->
    history e w1 w' -> history e w w'.

(** The world outside a sequence: the three other tables and the entries of
    every other sequence are as they were. *)
Definition elsewhere_unchanged (sequenceId : Id) (w w' : World) : Prop :=
  sequences (db w') = sequences (db w) /\
  poses (db w') = poses (db w) /\
  pose_versions (db w') = pose_versions (db w) /\
  forall other, other <> sequenceId -> entries other (db w') = entries other (db w).

(** Every row with the id [id] is an entry of the sequence. *)
Definition owns (sequenceId id : Id) (w : World) : Prop :=
  forall r, In r (sequence_poses (db w)) -> sp_id r = id ->
            sp_sequence_id r = sequenceId.

(** [isolated sequenceId ids w w']: provided the primary key holds in [w] and
    the ids in [ids] are ids of the sequence, the same is true of [w'] and the
    world outside the sequence is unchanged. *)
Definition isolated (sequenceId : Id) (ids : Id -> Prop) (w w' : World) : Prop :=
  NoDup (map sp_id (sequence_poses (db w))) ->
  (forall id, ids id -> owns sequenceId id w) ->
  NoDup (map sp_id (sequence_poses (db w'))) /\
  (forall id, ids id -> owns sequenceId id w') /\
  elsewhere_unchanged sequenceId w w'.

(** ** A concrete store

    A sequence of alice's and one of bob's, over a catalog with one pose and
    one version; [abcd] has the entries A, B, C, D of alice's sequence at
    positions 1..4 and a store that stays reachable. *)

Definition catalog (rows : list SequencePose) : Store :=
  mkStore [mkSequence "s1" "alice"; mkSequence "s2" "bob"]
          [mkPose "p1" "Tree" (Some "v1")]
          [mkPoseVersion "v1" "p1" 1]
          rows.

Definition entry (id : Id) (p : Z) : SequencePose := mkSequencePose id "s1" "p1" "v1" p.

Definition healthy (rows : list SequencePose) : World := mkWorld (catalog rows) [] None.

Definition abcd : World :=
  healthy [entry "A" 1; entry "B" 2; entry "C" 3; entry "D" 4].

(** A store that serves [n] more write statements and then drops out. *)
Definition failing_after (n : nat) (rows : list SequencePose) : World :=
  mkWorld (catalog rows) [] (Some n).

Definition add_at (p : option Z) : AddPoseToSequenceCommand :=
  mkAddPoseToSequenceCommand "p1" None p.

Definition move_to (p : Z) : UpdateSequencePoseCommand :=
  mkUpdateSequencePoseCommand (Some p) None None.

(** An authenticated request of alice's for her sequence; every string passes
    for a UUID. *)
Definition uuid_any (s : string) : bool := true.

Definition alice_request (entryId : string) (b : Json) : Request :=
  mkRequest true (Some "alice") (Some "s1") (Some entryId) (Some b).

(** Alice's entries A, B and an entry X of bob's sequence. *)
Definition shared : World :=
  healthy [entry "A" 1; entry "B" 2; mkSequencePose "X" "s2" "p1" "v1" 1].

(** ** The rate limiter ([rate-limiter.ts])

    The class keeps a [Map] from user ids to the timestamps of the requests
    it let through.  [Date.now()] is an argument of the two methods;
    timestamps and the two numbers of the configuration are integers. *)

Record RateLimitConfig := mkRateLimitConfig {
  maxRequests : Z;
  windowMs : Z
}.

(** A number that may be [Infinity]: [Math.min()] of no arguments. *)
Inductive Bound :=
| Finite (z : Z)
| Infinity.

Record RateLimitResult := mkRateLimitResult {
  allowed : bool;
  remaining : Z;
  retryAfter : option Bound
}.

(** The [Map<string, Array<number>>], its entries in insertion order. *)
Definition Requests := list (string * list Z).

Definition map_get (userId : string) (requests : Requests) : option (list Z) :=
  match find (fun kv => String.eqb (fst kv) userId) requests with
  | Some kv => Some (snd kv)
  | None => None
  end.

(** [Map.prototype.set]: an existing key keeps its place. *)
Fixpoint map_set (userId : string) (value : list Z) (requests : Requests) : Requests :=
  match requests with
  | [] => [(userId, value)]
  | (k, x) :: rest =>
      if String.eqb k userId then (k, value) :: rest
      else (k, x) :: map_set userId value rest
  end.

Definition map_delete (userId : string) (requests : Requests) : Requests :=
  filter (fun kv => negb (String.eqb (fst kv) userId)) requests.

(** [Math.min(...xs)] *)
Fixpoint min_of (xs : list Z) : Bound :=
  match xs with
  | [] => Infinity
  | x :: rest => match min_of rest with
                 | Infinity => Finite x
                 | Finite m => Finite (Z.min x m)
                 end
  end.

(** [Math.ceil(a / 1000)] for an integer [a]. *)
Definition ceil_seconds (a : Z) : Z := - ((- a) / 1000).

Definition recent (config : RateLimitConfig) (now : Z) (timestamp : Z) : bool :=
  now - windowMs config <? timestamp.

(** [this.requests.get(userId) || []] *)
Definition kept (userId : string) (requests : Requests) : list Z :=
  match map_get userId requests with
  | Some l => l
  | None => []
  end.

Definition check (config : RateLimitConfig) (now : Z) (userId : string)
           (requests : Requests) : RateLimitResult * Requests :=
  let userRequests := kept userId requests in
  let recentRequests := filter (recent config now) userRequests in
  if maxRequests config <=? Z.of_nat (List.length recentRequests) then
    let retryAfter :=
      match min_of recentRequests with
      | Finite oldestRequest =>
          Finite (ceil_seconds (oldestRequest + windowMs config - now))
      | Infinity => Infinity
      end in
    (mkRateLimitResult false 0 (Some retryAfter), requests)
  else
    let recentRequests := recentRequests ++ [now] in
    (mkRateLimitResult true
       (maxRequests config - Z.of_nat (List.length recentRequests)) None,
     map_set userId recentRequests requests).

(** The loop of [cleanup] over the entries of the map. *)
Definition cleanup (config : RateLimitConfig) (now : Z) (requests : Requests)
  : Requests :=
  fold_left
    (fun m entry =>
       match filter (recent config now) (snd entry) with
       | [] => map_delete (fst entry) m
       | recentRequests => map_set (fst entry) recentRequests m
       end)
    requests requests.

(** What the loop of [cleanup] comes to on a map, whose keys are distinct:
    every list filtered, the entries left empty dropped. *)
Definition swept (config : RateLimitConfig) (now : Z) (requests : Requests)
  : Requests :=
  filter (fun kv => match snd kv with [] => false | _ => true end)
         (map (fun kv => (fst kv, filter (recent config now) (snd kv))) requests).

Definition aiGenerationRateLimiter : RateLimitConfig :=
  mkRateLimitConfig 5 (60 * 60 * 1000).

(** A limiter in use: the calls made on it, each with the clock reading it
    saw, and what it answered to the checks. *)
Inductive Call :=
| CallCheck (now : Z) (userId : string)
| CallCleanup (now : Z).

Definition call_time (c : Call) : Z :=
  match c with
  | CallCheck now _ => now
  | CallCleanup now => now
  end.

Definition is_check (c : Call) : bool :=
  match c with
  | CallCheck _ _ => true
  | CallCleanup _ => false
  end.

(** The checks of one user. *)
Definition concerns (userId : string) (c : Call) : bool :=
  match c with
  | CallCheck _ u => String.eqb u userId
  | CallCleanup _ => false
  end.

Record Limiter := mkLimiter {
  requests_of : Requests;
  answers : list (Z * string * RateLimitResult)
}.

Definition serve (config : RateLimitConfig) (l : Limiter) (c : Call) : Limiter :=
  match c with
  | CallCheck now userId =>
      let (result, requests) := check config now userId (requests_of l) in
      mkLimiter requests (answers l ++ [(now, userId, result)])
  | CallCleanup now => mkLimiter (cleanup config now (requests_of l)) (answers l)
  end.

(** [new RateLimiter(config)] followed by the calls. *)
Definition run (config : RateLimitConfig) (calls : list Call) : Limiter :=
  fold_left (serve config) calls (mkLimiter [] []).

(** Five requests of one user, a second apart. *)
Definition five_requests : list Call :=
  [CallCheck 0 "u"; CallCheck 1000 "u"; CallCheck 2000 "u"; CallCheck 3000 "u";
   CallCheck 4000 "u"].

(** The times at which a user's requests were let through. *)
Definition granted (userId : string) (log : list (Z * string * RateLimitResult))
  : list Z :=
  map (fun a => fst (fst a))
      (filter (fun a => String.eqb (snd (fst a)) userId && allowed (snd a)) log).

(** ** The durations of a generated sequence ([ai-generation.service.ts])

    [distributeDuration] computes with JavaScript numbers, which are IEEE 754
    doubles; they are modelled by Rocq's primitive floats, whose operations
    round the same way, and a decimal literal is read as the nearest double
    in both. *)

(** The integers just below and just above a finite double. *)
Definition floor_Z (x : float) : option Z :=
  match FloatOps.Prim2SF x with
  | SpecFloat.S754_zero _ => Some 0
  | SpecFloat.S754_finite s m e =>
      let sm := if s then Z.neg m else Z.pos m in
      Some (if 0 <=? e then sm * 2 ^ e else sm / 2 ^ (- e))
  | _ => None
  end.

Definition ceil_Z (x : float) : option Z :=
  match FloatOps.Prim2SF x with
  | SpecFloat.S754_zero _ => Some 0
  | SpecFloat.S754_finite s m e =>
      let sm := if s then Z.neg m else Z.pos m in
      Some (if 0 <=? e then sm * 2 ^ e else - ((- sm) / 2 ^ (- e)))
  | _ => None
  end.

(** The double of an integer, exact up to 2^53 in absolute value. *)
Definition number (z : Z) : float :=
  if z <? 0 then (- of_uint63 (Uint63.of_Z (- z)))%float
  else of_uint63 (Uint63.of_Z z).

(** A zero, NaN, an infinity or a double from 2^52 on is its own floor and
    ceiling. *)
Definition whole_or_huge (x : float) : bool :=
  is_zero x || negb (is_finite x) || (0x1p52 <=? abs x)%float.

Definition Math_floor (x : float) : float :=
  if whole_or_huge x then x
  else match floor_Z x with
       | Some z => number z
       | None => x
       end.

(** The ceiling of a double between -1 and 0 is -0. *)
Definition Math_ceil (x : float) : float :=
  if whole_or_huge x then x
  else match ceil_Z x with
       | Some 0 => neg_zero
       | Some z => number z
       | None => x
       end.

(** [Math.max] and [Math.min] of two numbers: NaN if either is, and +0
    above -0. *)
Definition Math_max (a b : float) : float :=
  if is_nan a || is_nan b then nan
  else if (a <? b)%float then b
  else if (b <? a)%float then a
  else if get_sign a then b else a.

Definition Math_min (a b : float) : float :=
  if is_nan a || is_nan b then nan
  else if (a <? b)%float then a
  else if (b <? a)%float then b
  else if get_sign a then a else b.

(** How often [for (let i = 0; i < count; i++)] runs its body; [None] when
    it never ends: past 2^53 the increment no longer changes [i]. *)
Definition iterations (count : float) : option nat :=
  if (0 <? count)%float then
    if (count <=? 0x1p53)%float then option_map Z.to_nat (ceil_Z count) else None
  else Some 0%nat.

#[local] Set Warnings "-inexact-float".
Definition distributeDuration (totalMinutes poseCount : float) : option (list float) :=
  let totalSeconds := (totalMinutes * 60)%float in
  let warmupCount := Math_ceil (poseCount * 0.2) in
  let cooldownCount := Math_ceil (poseCount * 0.2) in
  let flowCount := (poseCount - warmupCount - cooldownCount)%float in
  let warmupTotal := (totalSeconds * 0.2)%float in
  let flowTotal := (totalSeconds * 0.6)%float in
  let cooldownTotal := (totalSeconds * 0.2)%float in
  match iterations warmupCount, iterations flowCount, iterations cooldownCount with
  | Some warmup, Some flow, Some cooldown =>
      Some (repeat (Math_floor (warmupTotal / warmupCount)) warmup
            ++ repeat (Math_floor (flowTotal / flowCount)) flow
            ++ repeat (Math_floor (cooldownTotal / cooldownCount)) cooldown)
  | _, _, _ => None
  end.
#[local] Set Warnings "inexact-float".

(** Three expressions of [generateMockSequence]: the number of poses for a
    duration, [durations.reduce((sum, duration) => sum + duration, 0)], and
    [durations[index] || 60]. *)
Definition poseCount (duration : float) : float :=
  Math_min (Math_max (Math_floor (duration / 2.5)) 6) 12.

Definition totalDuration (durations : list float) : float :=
  fold_left add durations 0%float.

Definition pose_duration (durations : list float) (index : nat) : float :=
  match nth_error durations index with
  | Some x => if is_zero x || is_nan x then 60%float else x
  | None => 60%float
  end.

(** ** The search term of the pose listing ([poses.service.ts])

    A JavaScript string is a sequence of UTF-16 code units; the regular
    expressions of [sanitizeSearchTerm] work on single code units. *)

Definition JsString := list Z.

(** The character class of the first expression: the 22 characters
    ! @ # % & | ^ : * ( ) < > ~ ` { } [ ] + \ and the double quote. *)
Definition special (c : Z) : bool :=
  existsb (Z.eqb c)
          [33; 64; 35; 37; 38; 124; 94; 58; 42; 34; 40; 41; 60; 62; 126; 96; 123; 125;
           91; 93; 43; 92].

(** The class [\s]: the white space and the line terminators of ECMAScript. *)
Definition white_space (c : Z) : bool :=
  existsb (Z.eqb c) [9; 10; 11; 12; 13; 32; 160; 5760; 8232; 8233; 8239; 8287; 12288; 65279]
  || ((8192 <=? c) && (c <=? 8202)).

(** [.replace(/[...]/g, " ")] *)
Definition replace_special (term : JsString) : JsString :=
  map (fun c => if special c then 32 else c) term.

(** [.split(/\s+/)]: the pieces between the maximal runs of white space, the
    empty pieces before a leading and after a trailing run included.
    [current] is the piece being read, reversed; [in_gap] says that the last
    code unit read was white space. *)
Fixpoint split_from (in_gap : bool) (current : JsString) (s : JsString)
  : list JsString :=
  match s with
  | [] => [rev current]
  | c :: rest =>
      if white_space c then
        if in_gap then split_from true current rest
        else rev current :: split_from true [] rest
      else split_from false (c :: current) rest
  end.

Definition split_white_space (s : JsString) : list JsString := split_from false [] s.

(** [Boolean(piece)]: only the empty string is falsy. *)
Definition nonempty (piece : JsString) : bool :=
  match piece with
  | [] => false
  | _ => true
  end.

(** [.join(" ")] *)
Fixpoint join_space (pieces : list JsString) : JsString :=
  match pieces with
  | [] => []
  | [piece] => piece
  | piece :: rest => piece ++ 32 :: join_space rest
  end.

Definition sanitizeSearchTerm (term : JsString) : JsString :=
  join_space (filter nonempty (split_white_space (replace_special term))).

(** The code units of a string of ASCII characters. *)
Definition codes (s : string) : JsString :=
  map (fun a => Z.of_N (Ascii.N_of_ascii a)) (list_ascii_of_string s).

(** A code unit that is neither special nor white space. *)
Definition searchable (c : Z) : bool := negb (special c) && negb (white_space c).

(** A word: a non-empty run of searchable code units. *)
Definition word (w : JsString) : Prop := w <> [] /\ Forall (fun c => searchable c = true) w.

(* ================================================================== *)
(** * Properties *)

Unset Implicit Arguments.

(** ** Identifiers, rows and ordering *)

Lemma same_true (a b : Id) : (a == b) = true <-> a = b.
Proof. unfold same. apply String.eqb_eq. Qed.

Lemma same_false (a b : Id) : (a == b) = false <-> a <> b.
Proof. unfold same. apply String.eqb_neq. Qed.

Lemma same_refl (a : Id) : (a == a) = true.
Proof. apply same_true. reflexivity. Qed.

Lemma insert_by_perm asc r rs : Permutation (insert_by asc r rs) (r :: rs).
Proof.
  induction rs as [|x rest IH]; simpl.
  - apply Permutation_refl.
  - destruct (before asc (sp_position r) (sp_position x)).
    + apply Permutation_refl.
    + eapply perm_trans; [apply perm_skip, IH | apply perm_swap].
Qed.

Lemma order_perm asc rs : Permutation (order asc rs) rs.
Proof.
  induction rs as [|x rest IH]; simpl.
  - constructor.
  - eapply perm_trans; [apply insert_by_perm | apply perm_skip, IH].
Qed.

Lemma order_In asc rs r : In r (order asc rs) <-> In r rs.
Proof.
  split; apply Permutation_in; [| apply Permutation_sym]; apply order_perm.
Qed.

Lemma insert_by_sorted asc r rs :
  StronglySorted (precedes asc) rs -> StronglySorted (precedes asc) (insert_by asc r rs).
Proof.
  induction 1 as [|x rest Hs IH Hall]; simpl.
  - repeat constructor.
  - destruct (before asc (sp_position r) (sp_position x)) eqn:E.
    + constructor; [constructor; assumption|].
      assert (Hrx : precedes asc r x)
        by (unfold precedes, before in *; destruct asc; lia).
      constructor; [exact Hrx|].
      eapply Forall_impl; [|exact Hall].
      intros y Hy. unfold precedes in *. destruct asc; lia.
    + constructor; [exact IH|].
      assert (Hxr : precedes asc x r)
        by (unfold precedes, before in *; destruct asc; lia).
      rewrite Forall_forall. intros y Hy.
      apply (Permutation_in _ (insert_by_perm asc r rest)) in Hy.
      destruct Hy as [<-|Hy]; [exact Hxr|].
      rewrite Forall_forall in Hall. auto.
Qed.

Lemma order_sorted asc rs : StronglySorted (precedes asc) (order asc rs).
Proof.
  induction rs as [|x rest IH]; simpl; [constructor | now apply insert_by_sorted].
Qed.

(** ** Rows identified by their primary key *)

Lemma pk_injective (rows : list SequencePose) a b :
  NoDup (map sp_id rows) -> In a rows -> In b rows -> sp_id a = sp_id b -> a = b.
Proof.
  induction rows as [|x rest IH]; simpl; [tauto|].
  intros Hnd Ha Hb E. inversion Hnd as [|? ? Hx Hrest]; subst.
  destruct Ha as [->|Ha], Hb as [->|Hb]; auto.
  - exfalso. apply Hx. rewrite E. now apply in_map.
  - exfalso. apply Hx. rewrite <- E. now apply in_map.
Qed.

Lemma find_by_id (rows : list SequencePose) x :
  NoDup (map sp_id rows) -> In x rows ->
  find (fun r => sp_id r == sp_id x) rows = Some x.
Proof.
  intros Hnd Hx.
  destruct (find (fun r => sp_id r == sp_id x) rows) as [y|] eqn:F.
  - apply find_some in F. destruct F as [Hy E]. apply same_true in E.
    f_equal. eapply pk_injective; eauto.
  - exfalso. apply (find_none _ _ F) in Hx. rewrite same_refl in Hx. discriminate.
Qed.

Lemma set_position_id id p r : sp_id (set_position id p r) = sp_id r.
Proof. unfold set_position. now destruct (sp_id r == id). Qed.

Lemma set_position_sequence id p r :
  sp_sequence_id (set_position id p r) = sp_sequence_id r.
Proof. unfold set_position. now destruct (sp_id r == id). Qed.

Lemma set_position_version id p r :
  sp_pose_version_id (set_position id p r) = sp_pose_version_id r.
Proof. unfold set_position. now destruct (sp_id r == id). Qed.

Lemma set_position_pose id p r : sp_pose_id (set_position id p r) = sp_pose_id r.
Proof. unfold set_position. now destruct (sp_id r == id). Qed.

Lemma set_position_other id p r : sp_id r <> id -> set_position id p r = r.
Proof. unfold set_position. intros H. apply same_false in H. now rewrite H. Qed.

Lemma set_position_self id p r : sp_id r = id -> sp_position (set_position id p r) = p.
Proof. unfold set_position. intros H. apply same_true in H. now rewrite H. Qed.

Lemma map_set_position_ids id p rows :
  map sp_id (map (set_position id p) rows) = map sp_id rows.
Proof. rewrite map_map. apply map_ext. intros. apply set_position_id. Qed.

Lemma position_taken_false rows self sid p :
  position_taken rows self sid p = false <->
  forall r, In r rows -> sp_id r <> self -> sp_sequence_id r = sid ->
            sp_position r <> p.
Proof.
  unfold position_taken, in_sequence. split.
  - intros H r Hr Hid Hs Hp.
    assert (E : existsb (fun r => negb (sp_id r == self) && (sp_sequence_id r == sid)
                                  && (sp_position r =? p)) rows = true).
    { apply existsb_exists. exists r. split; [exact Hr|].
      apply same_false in Hid. apply same_true in Hs. apply Z.eqb_eq in Hp.
      now rewrite Hid, Hs, Hp. }
    congruence.
  - intros H. apply not_true_is_false. intros E.
    apply existsb_exists in E. destruct E as [r [Hr E]].
    apply andb_prop in E. destruct E as [E Hp]. apply andb_prop in E.
    destruct E as [Hid Hs]. apply negb_true_iff in Hid.
    apply same_false in Hid. apply same_true in Hs. apply Z.eqb_eq in Hp.
    exact (H r Hr Hid Hs Hp).
Qed.

(** ** One statement of a shift loop, and the whole loop *)

Lemma evolves_refl w : evolves w w (sequence_poses (db w)) [].
Proof. unfold evolves. rewrite app_nil_r. tauto. Qed.

Lemma evolves_trans w w1 w2 rows1 rows2 ws1 ws2 :
  evolves w w1 rows1 ws1 -> evolves w1 w2 rows2 ws2 ->
  evolves w w2 rows2 (ws1 ++ ws2).
Proof.
  unfold evolves. intros (A & B & C & D & E & F) (A' & B' & C' & D' & E' & F').
  repeat split; try congruence.
  - rewrite E', E. now rewrite app_assoc.
  - auto.
Qed.

Lemma update_position_moves id p w x :
  NoDup (map sp_id (sequence_poses (db w))) ->
  In x (sequence_poses (db w)) -> sp_id x = id ->
  position_taken (sequence_poses (db w)) id (sp_sequence_id x) p = false ->
  (reachable w = true ->
     exists w', update_position id p w = (Ok tt, w') /\
       evolves w w' (map (set_position id p) (sequence_poses (db w)))
               [WUpdatePosition id p]) /\
  (reachable w = false ->
     exists w', update_position id p w = (Throw (StoreError "UNAVAILABLE"), w') /\
       evolves w w' (sequence_poses (db w)) [WUpdatePosition id p]).
Proof.
  intros Hpk Hx Hid Hfree. subst id.
  unfold update_position. cbv zeta.
  change (reachable (record (WUpdatePosition (sp_id x) p) w)) with (reachable w).
  change (db (record (WUpdatePosition (sp_id x) p) w)) with (db w).
  split; intros Hr; rewrite Hr; cbn [negb].
  - rewrite (find_by_id _ _ Hpk Hx), Hfree.
    eexists; split; [reflexivity|].
    unfold evolves, set_rows, served; cbn. repeat split; auto.
    intros ->. reflexivity.
  - eexists; split; [reflexivity|].
    unfold evolves; cbn. repeat split; auto.
Qed.

Lemma loop_inv_head delta sid rows x rest :
  loop_inv delta sid rows (x :: rest) ->
  position_taken rows (sp_id x) (sp_sequence_id x) (sp_position x + delta) = false.
Proof.
  intros [Hpk Hcur Hseq Htgt Hord]. apply position_taken_false.
  intros r Hr Hid Hs Hp.
  rewrite (Hseq x (or_introl eq_refl)) in Hs.
  pose proof (Htgt r x Hr Hs (or_introl eq_refl) Hp) as Hin.
  inversion Hord as [|? ? _ Hall]; subst. rewrite Forall_forall in Hall.
  destruct Hin as [->|Hin]; [now apply Hid|].
  destruct (Hall r Hin) as [Hne _]. now apply Hne.
Qed.

Lemma loop_inv_tail delta sid rows x rest :
  loop_inv delta sid rows (x :: rest) ->
  loop_inv delta sid
           (map (set_position (sp_id x) (sp_position x + delta)) rows) rest.
Proof.
  intros [Hpk Hcur Hseq Htgt Hord].
  inversion Hord as [|? ? Hrest Hall]; subst. rewrite Forall_forall in Hall.
  assert (Hother : forall y, In y rest -> sp_id y <> sp_id x).
  { intros y Hy E. destruct (Hall y Hy) as [_ Hne]. apply Hne.
    f_equal. apply (pk_injective rows); auto; apply Hcur; simpl; auto. }
  constructor.
  - now rewrite map_set_position_ids.
  - intros y Hy. apply in_map_iff. exists y. split.
    + apply set_position_other. auto.
    + apply Hcur. now right.
  - intros y Hy. apply Hseq. now right.
  - intros r' y Hr' Hs Hy Hp.
    apply in_map_iff in Hr'. destruct Hr' as [r [<- Hr]].
    rewrite set_position_sequence in Hs.
    destruct (String.string_dec (sp_id r) (sp_id x)) as [E|E].
    + exfalso. rewrite (set_position_self _ _ _ E) in Hp.
      destruct (Hall y Hy) as [_ Hne]. apply Hne. lia.
    + rewrite (set_position_other _ _ _ E) in *.
      pose proof (Htgt r y Hr Hs (or_intror Hy) Hp) as Hin.
      destruct Hin as [<-|Hin]; [congruence | exact Hin].
  - exact Hrest.
Qed.

Lemma shift_loop delta sid fetched : forall w,
  loop_inv delta sid (sequence_poses (db w)) fetched ->
  (forall w',
     for_each fetched
       (fun pose => update_position (sp_id pose) (sp_position pose + delta)) w
       = (Ok tt, w') ->
     evolves w w' (shifted delta fetched (sequence_poses (db w)))
             (shift_writes delta fetched)) /\
  (outage w = None ->
     exists w',
       for_each fetched
         (fun pose => update_position (sp_id pose) (sp_position pose + delta)) w
       = (Ok tt, w')).
Proof.
  induction fetched as [|x rest IH]; intros w Hinv.
  - simpl. split.
    + intros w' E. inversion E; subst. apply evolves_refl.
    + intros _. eexists. reflexivity.
  - pose proof (loop_inv_head _ _ _ _ _ Hinv) as Hfree.
    pose proof (loop_inv_tail _ _ _ _ _ Hinv) as Htail.
    destruct Hinv as [Hpk Hcur _ _ _].
    destruct (update_position_moves (sp_id x) (sp_position x + delta) w x Hpk
                (Hcur x (or_introl eq_refl)) eq_refl Hfree) as [Hup Hdown].
    cbn [for_each]. unfold bind.
    destruct (reachable w) eqn:R.
    + destruct (Hup eq_refl) as (w1 & E1 & Ev1). rewrite E1.
      assert (Hrows : sequence_poses (db w1)
                      = map (set_position (sp_id x) (sp_position x + delta))
                            (sequence_poses (db w)))
        by (destruct Ev1 as (_ & _ & _ & H & _); exact H).
      rewrite <- Hrows in Htail. destruct (IH w1 Htail) as [IHa IHb].
      split.
      * intros w' E. specialize (IHa w' E). rewrite Hrows in IHa.
        exact (evolves_trans _ _ _ _ _ _ _ Ev1 IHa).
      * intros Hn. apply IHb. destruct Ev1 as (_ & _ & _ & _ & _ & H). auto.
    + destruct (Hdown eq_refl) as (w1 & E1 & _). rewrite E1. split.
      * intros w' E. discriminate.
      * intros Hn. unfold reachable in R. rewrite Hn in R. discriminate.
Qed.

(** ** The closed form of a finished shift loop *)

Lemma shifted_cons delta x rest rows :
  shifted delta (x :: rest) rows
  = shifted delta rest (map (set_position (sp_id x) (sp_position x + delta)) rows).
Proof. reflexivity. Qed.

Lemma listed_false (l : list SequencePose) id :
  ~ In id (map sp_id l) -> existsb (fun x => sp_id x == id) l = false.
Proof.
  intros H. apply not_true_is_false. intros E. apply existsb_exists in E.
  destruct E as [x [Hx E]]. apply same_true in E. apply H. subst.
  now apply in_map.
Qed.

Lemma listed_true (l : list SequencePose) x :
  In x l -> existsb (fun y => sp_id y == sp_id x) l = true.
Proof.
  intros H. apply existsb_exists. exists x. split; [exact H | apply same_refl].
Qed.

Lemma shifted_closed delta : forall fetched rows,
  NoDup (map sp_id rows) ->
  (forall x, In x fetched -> In x rows) ->
  NoDup (map sp_id fetched) ->
  shifted delta fetched rows
  = moved delta (fun r => existsb (fun x => sp_id x == sp_id r) fetched) rows.
Proof.
  induction fetched as [|x rest IH]; intros rows Hpk Hcur Hnd.
  - unfold moved. simpl. symmetry. apply map_id.
  - rewrite shifted_cons. inversion Hnd as [|? ? Hx Hrest]; subst.
    rewrite IH; [| now rewrite map_set_position_ids | | exact Hrest].
    + unfold moved. rewrite map_map. apply map_ext_in. intros r Hr.
      destruct (String.string_dec (sp_id r) (sp_id x)) as [E|E].
      * assert (r = x)
          by (apply (pk_injective rows); auto; apply Hcur; simpl; auto).
        subst r. rewrite set_position_id.
        rewrite (listed_false rest (sp_id x) Hx).
        cbn [existsb]. rewrite same_refl. reflexivity.
      * rewrite (set_position_other _ _ _ E). cbn [existsb].
        assert (Exr : (sp_id x == sp_id r) = false)
          by (apply same_false; congruence).
        rewrite Exr. reflexivity.
    + intros y Hy. apply in_map_iff. exists y. split; [|apply Hcur; now right].
      apply set_position_other. intros E. apply Hx. rewrite <- E. now apply in_map.
Qed.

Lemma pk_filter (sel : SequencePose -> bool) rows :
  NoDup (map sp_id rows) -> NoDup (map sp_id (filter sel rows)).
Proof.
  induction rows as [|x rest IH]; simpl; intros H; [constructor|].
  inversion H as [|? ? Hx Hrest]; subst.
  destruct (sel x); simpl; auto. constructor; auto.
  intros Hin. apply Hx. apply in_map_iff in Hin. destruct Hin as [y [E Hy]].
  apply filter_In in Hy. apply in_map_iff. exists y. tauto.
Qed.

Lemma fetched_closed delta asc sel rows :
  NoDup (map sp_id rows) ->
  shifted delta (order asc (filter sel rows)) rows = moved delta sel rows.
Proof.
  intros Hpk. rewrite shifted_closed; auto.
  - unfold moved. apply map_ext_in. intros r Hr.
    destruct (sel r) eqn:S.
    + rewrite listed_true; [reflexivity|]. apply order_In, filter_In. auto.
    + rewrite listed_false; [reflexivity|]. intros Hin.
      apply in_map_iff in Hin. destruct Hin as [y [E Hy]].
      apply order_In, filter_In in Hy. destruct Hy as [Hy Sy].
      assert (y = r) by (apply (pk_injective rows); auto). congruence.
  - intros x Hx. apply order_In, filter_In in Hx. tauto.
  - eapply Permutation_NoDup.
    + apply Permutation_map, Permutation_sym, order_perm.
    + now apply pk_filter.
Qed.

(** ** Dense position lists *)

Lemma range_In n z : In z (range n) <-> 1 <= z <= Z.of_nat n.
Proof.
  unfold range. rewrite in_map_iff. split.
  - intros [k [<- Hk]]. apply in_seq in Hk. lia.
  - intros H. exists (Z.to_nat z). split; [lia|]. apply in_seq. lia.
Qed.

Lemma range_NoDup n : NoDup (range n).
Proof.
  unfold range. apply Finite.Injective_map_NoDup; [|apply seq_NoDup].
  intros a b. lia.
Qed.

Lemma range_length n : List.length (range n) = n.
Proof. unfold range. now rewrite length_map, length_seq. Qed.

Lemma positions_length sid d :
  List.length (positions sid d) = List.length (entries sid d).
Proof. unfold positions. apply length_map. Qed.

Lemma dense_iff sid d :
  dense sid d <->
  NoDup (positions sid d) /\
  (forall p, In p (positions sid d) -> 1 <= p <= Z.of_nat (List.length (entries sid d))).
Proof.
  unfold dense. split.
  - intros H. split.
    + eapply Permutation_NoDup; [apply Permutation_sym, H | apply range_NoDup].
    + intros p Hp. apply range_In. eapply Permutation_in; eauto.
  - intros [Hnd Hb]. apply NoDup_Permutation_bis; auto.
    + rewrite range_length, positions_length. lia.
    + intros p Hp. apply range_In. auto.
Qed.

Lemma dense_covers sid d z :
  dense sid d -> 1 <= z <= Z.of_nat (List.length (entries sid d)) ->
  exists r, In r (entries sid d) /\ sp_position r = z.
Proof.
  intros H Hz.
  assert (Hin : In z (positions sid d)).
  { eapply Permutation_in; [apply Permutation_sym, H | now apply range_In]. }
  unfold positions in Hin. apply in_map_iff in Hin. destruct Hin as [r [E Hr]].
  eauto.
Qed.

Lemma dense_bounds sid d r :
  dense sid d -> In r (entries sid d) ->
  1 <= sp_position r <= Z.of_nat (List.length (entries sid d)).
Proof.
  intros H Hr. apply dense_iff in H. apply H. unfold positions. now apply in_map.
Qed.

Lemma map_injective_on {A B} (f : A -> B) (l : list A) a b :
  NoDup (map f l) -> In a l -> In b l -> f a = f b -> a = b.
Proof.
  induction l as [|x rest IH]; simpl; [tauto|].
  intros Hnd Ha Hb E. inversion Hnd as [|? ? Hx Hrest]; subst.
  destruct Ha as [->|Ha], Hb as [->|Hb]; auto.
  - exfalso. apply Hx. rewrite E. now apply in_map.
  - exfalso. apply Hx. rewrite <- E. now apply in_map.
Qed.

Lemma dense_unique sid d a b :
  dense sid d -> In a (entries sid d) -> In b (entries sid d) ->
  sp_position a = sp_position b -> a = b.
Proof.
  intros H. apply dense_iff in H. destruct H as [Hnd _].
  now apply map_injective_on.
Qed.

Lemma entries_In sid d r :
  In r (entries sid d) <-> In r (sequence_poses d) /\ sp_sequence_id r = sid.
Proof.
  unfold entries, in_sequence. rewrite filter_In, same_true. tauto.
Qed.

(** ** The reads of the service *)

Lemma maybeSingle_some {A} (l : list A) x : maybeSingle l = Ok (Some x) -> l = [x].
Proof. destruct l as [|a [|b t]]; simpl; intros E; inversion E; reflexivity. Qed.

Lemma maybeSingle_none {A} (l : list A) : maybeSingle l = Ok None -> l = [].
Proof. destruct l as [|a [|b t]]; simpl; intros E; inversion E; reflexivity. Qed.

Lemma verifySequenceOwnership_reads sid uid w :
  snd (verifySequenceOwnership sid uid w) = w.
Proof.
  unfold verifySequenceOwnership, bind, query.
  destruct (maybeSingle _) as [[s|]|e]; reflexivity.
Qed.

Lemma resolvePoseVersion_reads pid ver w : snd (resolvePoseVersion pid ver w) = w.
Proof.
  unfold resolvePoseVersion, bind, query. destruct ver as [v|].
  - destruct (maybeSingle _) as [[pv|]|e]; reflexivity.
  - destruct (maybeSingle _) as [[p|]|e]; try reflexivity.
    destruct (current_version_id p) as [cv|]; try reflexivity.
    destruct (cv == ""); reflexivity.
Qed.

Lemma fetchSequencePoseDto_reads id w : snd (fetchSequencePoseDto id w) = w.
Proof.
  unfold fetchSequencePoseDto, bind, query.
  destruct (single _) as [r|e]; [|reflexivity].
  destruct (find _ _); reflexivity.
Qed.

Lemma getNextPosition_total sid w : exists v, getNextPosition sid w = (Ok v, w).
Proof.
  unfold getNextPosition, bind, query.
  destruct (order false _) as [|h t]; simpl; eexists; reflexivity.
Qed.

Lemma reads_inv {A} (m : M A) w r w' :
  snd (m w) = w -> m w = (r, w') -> w' = w.
Proof. intros H E. rewrite E in H. exact H. Qed.

Lemma verifySequenceOwnership_ok sid uid w s w' :
  verifySequenceOwnership sid uid w = (Ok s, w') ->
  w' = w /\ In s (sequences (db w)) /\ seq_id s = sid /\ seq_user_id s = uid.
Proof.
  intros E. split; [eapply reads_inv; eauto; apply verifySequenceOwnership_reads|].
  unfold verifySequenceOwnership, bind, query in E.
  destruct (maybeSingle _) as [[s0|]|e] eqn:F; inversion E; subst.
  apply maybeSingle_some in F.
  assert (Hin : In s (filter (fun s => (seq_id s == sid) && (seq_user_id s == uid))
                             (sequences (db w'))))
    by (rewrite F; simpl; auto).
  apply filter_In in Hin. destruct Hin as [Hin Hb].
  apply andb_prop in Hb. destruct Hb as [H1 H2].
  apply same_true in H1. apply same_true in H2. auto.
Qed.

Lemma resolvePoseVersion_ok pid ver w V w' :
  consistent (db w) ->
  resolvePoseVersion pid ver w = (Ok V, w') ->
  w' = w /\ has_version (db w) V /\ has_pose (db w) pid.
Proof.
  intros Hc E. split; [eapply reads_inv; eauto; apply resolvePoseVersion_reads|].
  unfold resolvePoseVersion, bind, query in E. destruct ver as [v|].
  - destruct (maybeSingle _) as [[pv|]|e] eqn:F; inversion E; subst.
    apply maybeSingle_some in F.
    assert (Hin : In pv (filter (fun pv => (pv_pose_id pv == pid)
                                           && (pv_version pv =? v))
                                (pose_versions (db w'))))
      by (rewrite F; simpl; auto).
    apply filter_In in Hin. destruct Hin as [Hin Hb].
    apply andb_prop in Hb. destruct Hb as [H1 _]. apply same_true in H1.
    split; [exists pv; auto|]. rewrite <- H1. now apply (fk_version_pose Hc).
  - destruct (maybeSingle _) as [[p|]|e] eqn:F; try solve [inversion E].
    destruct (current_version_id p) as [cv|] eqn:C; try solve [inversion E].
    destruct (cv == ""); inversion E; subst.
    apply maybeSingle_some in F.
    assert (Hin : In p (filter (fun p => pose_id p == pid) (poses (db w'))))
      by (rewrite F; simpl; auto).
    apply filter_In in Hin. destruct Hin as [Hin H1]. apply same_true in H1.
    split; [now apply (fk_current_version Hc p) | exists p; auto].
Qed.

Lemma sorted_head_extreme asc h t r :
  StronglySorted (precedes asc) (h :: t) -> In r (h :: t) -> precedes asc h r.
Proof.
  intros Hs Hr. inversion Hs as [|? ? _ Hall]; subst.
  destruct Hr as [<-|Hr].
  - unfold precedes. destruct asc; lia.
  - rewrite Forall_forall in Hall. auto.
Qed.

Lemma getNextPosition_dense sid w :
  dense sid (db w) ->
  getNextPosition sid w = (Ok (Z.of_nat (List.length (entries sid (db w))) + 1), w).
Proof.
  intros Hd. unfold getNextPosition, bind, query.
  fold (entries sid (db w)).
  pose proof (order_perm false (entries sid (db w))) as Hp.
  pose proof (order_sorted false (entries sid (db w))) as Hs.
  destruct (order false (entries sid (db w))) as [|h t] eqn:O.
  - apply Permutation_nil in Hp. rewrite Hp. reflexivity.
  - cbn [firstn maybeSingle].
    assert (Hh : In h (entries sid (db w)))
      by (eapply Permutation_in; [exact Hp | simpl; auto]).
    pose proof (dense_bounds _ _ _ Hd Hh) as Hb.
    assert (Hn : 1 <= Z.of_nat (List.length (entries sid (db w)))) by lia.
    destruct (dense_covers sid (db w) _ Hd (conj Hn (Z.le_refl _))) as [r [Hr Er]].
    assert (Hr' : In r (h :: t))
      by (eapply Permutation_in; [apply Permutation_sym, Hp | exact Hr]).
    pose proof (sorted_head_extreme _ _ _ _ Hs Hr') as Hle.
    unfold precedes in Hle. unfold ret. do 2 f_equal. lia.
Qed.

(** ** Setting up the shift loops *)

Lemma StronglySorted_weaken {A} (R S : A -> A -> Prop) (l : list A) :
  (forall a b, In a l -> In b l -> R a b -> S a b) ->
  StronglySorted R l -> StronglySorted S l.
Proof.
  intros H Hs. induction Hs as [|x rest Hrest IH Hall]; constructor.
  - apply IH. intros a b Ha Hb. apply H; now right.
  - rewrite Forall_forall in *. intros y Hy. apply H; simpl; auto.
Qed.

Lemma sorted_strictly asc l :
  StronglySorted (precedes asc) l -> NoDup (map sp_position l) ->
  StronglySorted (strictly asc) l.
Proof.
  intros Hs. induction Hs as [|x rest Hrest IH Hall]; intros Hnd; constructor.
  - apply IH. now inversion Hnd.
  - inversion Hnd as [|? ? Hx _]; subst. rewrite Forall_forall in *.
    intros y Hy. specialize (Hall y Hy).
    assert (sp_position y <> sp_position x)
      by (intros E; apply Hx; rewrite <- E; now apply in_map).
    unfold precedes, strictly in *. destruct asc; lia.
Qed.

Lemma positions_filter (sel : SequencePose -> bool) sid rows :
  (forall r, sel r = true -> in_sequence sid r = true) ->
  NoDup (map sp_position (filter (in_sequence sid) rows)) ->
  NoDup (map sp_position (filter sel rows)).
Proof.
  intros Hsel. induction rows as [|x rest IH]; simpl; [constructor|].
  destruct (sel x) eqn:S.
  - rewrite (Hsel x S). simpl. intros Hnd. inversion Hnd as [|? ? Hx Hrest]; subst.
    constructor; auto. intros Hin. apply Hx.
    apply in_map_iff in Hin. destruct Hin as [y [E Hy]].
    apply filter_In in Hy. apply in_map_iff. exists y. split; [exact E|].
    apply filter_In. split; [tauto|]. apply Hsel. tauto.
  - destruct (in_sequence sid x); simpl; auto.
    intros Hnd. inversion Hnd; auto.
Qed.

Lemma fetched_strictly asc (sel : SequencePose -> bool) sid d :
  (forall r, sel r = true -> in_sequence sid r = true) ->
  NoDup (positions sid d) ->
  StronglySorted (strictly asc) (order asc (filter sel (sequence_poses d))).
Proof.
  intros Hsel Hnd. apply sorted_strictly; [apply order_sorted|].
  eapply Permutation_NoDup.
  - apply Permutation_map, Permutation_sym, order_perm.
  - now apply (positions_filter sel sid).
Qed.

Lemma up_inv sid d from :
  NoDup (map sp_id (sequence_poses d)) -> NoDup (positions sid d) ->
  loop_inv 1 sid (sequence_poses d)
    (order false (filter (fun r => in_sequence sid r && (from <=? sp_position r))
                         (sequence_poses d))).
Proof.
  intros Hpk Hnd.
  assert (Hsel : forall r, in_sequence sid r && (from <=? sp_position r) = true ->
                           in_sequence sid r = true)
    by (intros r H; apply andb_prop in H; tauto).
  constructor.
  - exact Hpk.
  - intros x Hx. apply order_In, filter_In in Hx. tauto.
  - intros x Hx. apply order_In, filter_In in Hx. destruct Hx as [_ Hx].
    apply Hsel in Hx. now apply same_true in Hx.
  - intros r x Hr Hs Hx Hp. apply order_In, filter_In in Hx. destruct Hx as [_ Hx].
    apply andb_prop in Hx. destruct Hx as [_ Hx]. apply Z.leb_le in Hx.
    apply order_In, filter_In. split; [exact Hr|].
    apply andb_true_intro. split; [now apply same_true | apply Z.leb_le; lia].
  - eapply StronglySorted_weaken;
      [| apply (fetched_strictly false _ sid d Hsel Hnd)].
    intros a b _ _ H. unfold strictly, clear_of in *. lia.
Qed.

Lemma moved_none delta (sel : SequencePose -> bool) rows :
  (forall r, In r rows -> sel r = false) -> moved delta sel rows = rows.
Proof.
  intros H. unfold moved. rewrite <- (map_id rows) at 2.
  apply map_ext_in. intros r Hr. now rewrite (H r Hr).
Qed.

Lemma moved_ids delta sel rows : map sp_id (moved delta sel rows) = map sp_id rows.
Proof.
  unfold moved. rewrite map_map. apply map_ext. intros r.
  destruct (sel r); [apply set_position_id | reflexivity].
Qed.

Lemma moved_In delta sel rows r' :
  In r' (moved delta sel rows) ->
  exists r, In r rows /\ sp_id r' = sp_id r /\ sp_sequence_id r' = sp_sequence_id r /\
            sp_pose_id r' = sp_pose_id r /\
            sp_pose_version_id r' = sp_pose_version_id r /\
            sp_position r' = if sel r then sp_position r + delta else sp_position r.
Proof.
  unfold moved. intros H. apply in_map_iff in H. destruct H as [r [<- Hr]].
  exists r. split; [exact Hr|]. destruct (sel r); [|tauto].
  rewrite set_position_id, set_position_sequence, set_position_pose,
    set_position_version, (set_position_self _ _ _ eq_refl). tauto.
Qed.

(** ** Inserting a row and reading it back *)

Lemma has_pose_existsb d p :
  has_pose d p -> existsb (fun x => pose_id x == p) (poses d) = true.
Proof.
  intros [x [Hx E]]. apply existsb_exists. exists x. split; [exact Hx|].
  now apply same_true.
Qed.

Lemma has_version_existsb d v :
  has_version d v -> existsb (fun x => pv_id x == v) (pose_versions d) = true.
Proof.
  intros [x [Hx E]]. apply existsb_exists. exists x. split; [exact Hx|].
  now apply same_true.
Qed.

Lemma insert_sequence_pose_ok row w :
  outage w = None ->
  ~ In (sp_id row) (map sp_id (sequence_poses (db w))) ->
  position_taken (sequence_poses (db w)) (sp_id row) (sp_sequence_id row)
                 (sp_position row) = false ->
  (exists s, In s (sequences (db w)) /\ seq_id s = sp_sequence_id row) ->
  has_pose (db w) (sp_pose_id row) ->
  has_version (db w) (sp_pose_version_id row) ->
  exists w', insert_sequence_pose row w = (Ok (sp_id row), w') /\
             evolves w w' (sequence_poses (db w) ++ [row]) [WInsert row].
Proof.
  intros Hout Hfresh Hfree [s [Hs Es]] Hp Hv.
  unfold insert_sequence_pose. cbv zeta.
  change (reachable (record (WInsert row) w)) with (reachable w).
  change (db (record (WInsert row) w)) with (db w).
  unfold reachable. rewrite Hout. cbn [negb].
  rewrite (listed_false _ _ Hfresh), Hfree. cbn [orb].
  rewrite (has_pose_existsb _ _ Hp), (has_version_existsb _ _ Hv).
  replace (existsb (fun s0 => seq_id s0 == sp_sequence_id row) (sequences (db w)))
    with true.
  - cbn [negb orb]. eexists. split; [reflexivity|].
    unfold evolves, set_rows, served, record; cbn. rewrite Hout. tauto.
  - symmetry. apply existsb_exists. exists s. split; [exact Hs | now apply same_true].
Qed.

Lemma fetch_appended w rows row :
  sequence_poses (db w) = rows ++ [row] ->
  ~ In (sp_id row) (map sp_id rows) ->
  has_pose (db w) (sp_pose_id row) ->
  exists dto, fetchSequencePoseDto (sp_id row) w = (Ok dto, w) /\
              dto_id dto = sp_id row /\ dto_poseId dto = sp_pose_id row /\
              dto_position dto = sp_position row.
Proof.
  intros Hrows Hfresh Hp. unfold fetchSequencePoseDto, bind, query.
  rewrite Hrows, filter_app. cbn [filter]. rewrite same_refl.
  replace (filter (fun r => sp_id r == sp_id row) rows) with (@nil SequencePose).
  - cbn [app single].
    destruct (find (fun p => pose_id p == sp_pose_id row) (poses (db w))) as [pose|] eqn:F.
    + eexists. split; [reflexivity|]. cbn. tauto.
    + exfalso. destruct Hp as [x [Hx E]]. apply (find_none _ _ F) in Hx.
      rewrite E, same_refl in Hx. discriminate.
  - symmetry. destruct (filter _ rows) as [|y t] eqn:F; [reflexivity|]. exfalso.
    assert (Hy : In y (filter (fun r => sp_id r == sp_id row) rows))
      by (rewrite F; simpl; auto).
    apply filter_In in Hy. destruct Hy as [Hy E]. apply same_true in E.
    apply Hfresh. rewrite <- E. now apply in_map.
Qed.

Lemma insert_sequence_pose_inv row w id w' :
  insert_sequence_pose row w = (Ok id, w') ->
  id = sp_id row /\
  ~ In (sp_id row) (map sp_id (sequence_poses (db w))) /\
  evolves w w' (sequence_poses (db w) ++ [row]) [WInsert row].
Proof.
  unfold insert_sequence_pose. cbv zeta.
  change (reachable (record (WInsert row) w)) with (reachable w).
  change (db (record (WInsert row) w)) with (db w).
  destruct (reachable w); cbn [negb]; [|discriminate].
  destruct (existsb (fun r => sp_id r == sp_id row) (sequence_poses (db w))) eqn:F;
    cbn [orb]; [discriminate|].
  destruct (position_taken _ _ _ _); [discriminate|].
  destruct (_ || _); [discriminate|].
  intros E. inversion E; subst. split; [reflexivity|]. split.
  - intros Hin. apply in_map_iff in Hin. destruct Hin as [y [Ey Hy]].
    assert (T : existsb (fun r => sp_id r == sp_id row) (sequence_poses (db w)) = true)
      by (apply existsb_exists; exists y; split; [exact Hy | now apply same_true]).
    congruence.
  - unfold evolves, set_rows, served, record; cbn. repeat split; auto.
    intros ->. reflexivity.
Qed.

Lemma insert_sequence_pose_fk row w id w' :
  insert_sequence_pose row w = (Ok id, w') -> has_pose (db w) (sp_pose_id row).
Proof.
  unfold insert_sequence_pose. cbv zeta.
  change (db (record (WInsert row) w)) with (db w).
  destruct (negb _); [discriminate|].
  destruct (_ || _); [discriminate|].
  destruct (existsb (fun p => pose_id p == sp_pose_id row) (poses (db w))) eqn:P.
  - intros _. apply existsb_exists in P. destruct P as [x [Hx E]].
    exists x. split; [exact Hx | now apply same_true].
  - cbn [negb orb]. rewrite orb_true_r. cbn [orb]. discriminate.
Qed.

Lemma single_inv {A} (l : list A) r : single l = Ok r -> l = [r].
Proof. destruct l as [|a [|b t]]; simpl; intros E; inversion E; reflexivity. Qed.

Lemma fetchSequencePoseDto_inv id w dto w' :
  fetchSequencePoseDto id w = (Ok dto, w') ->
  w' = w /\
  exists r, filter (fun r => sp_id r == id) (sequence_poses (db w)) = [r] /\
            dto_id dto = sp_id r /\ dto_poseId dto = sp_pose_id r /\
            dto_position dto = sp_position r.
Proof.
  intros E. split; [eapply reads_inv; eauto; apply fetchSequencePoseDto_reads|].
  unfold fetchSequencePoseDto, bind, query in E.
  destruct (single _) as [r|e] eqn:S; [|discriminate].
  apply single_inv in S. exists r. split; [exact S|].
  destruct (find _ _); inversion E; subst; cbn. tauto.
Qed.

Lemma fetch_appended_inv rows row dto w w' :
  sequence_poses (db w) = rows ++ [row] ->
  fetchSequencePoseDto (sp_id row) w = (Ok dto, w') ->
  w' = w /\ dto_id dto = sp_id row /\ dto_position dto = sp_position row.
Proof.
  intros Hrows E. apply fetchSequencePoseDto_inv in E.
  destruct E as [-> [r (F & A & _ & B)]]. split; [reflexivity|].
  rewrite Hrows, filter_app in F. cbn [filter] in F. rewrite same_refl in F.
  destruct (filter _ rows) as [|y t].
  - inversion F; subst. tauto.
  - destruct t; inversion F.
Qed.

(** ** Running the service *)

Lemma bind_ok {A B} (m : M A) (k : A -> M B) w a w1 :
  m w = (Ok a, w1) -> bind m k w = k a w1.
Proof. unfold bind. now intros ->. Qed.

Lemma bind_throw {A B} (m : M A) (k : A -> M B) w e w1 :
  m w = (Throw e, w1) -> bind m k w = (Throw e, w1).
Proof. unfold bind. now intros ->. Qed.

Lemma bind_inv {A B} (m : M A) (k : A -> M B) w b w' :
  bind m k w = (Ok b, w') ->
  exists a w1, m w = (Ok a, w1) /\ k a w1 = (Ok b, w').
Proof.
  unfold bind. destruct (m w) as [[a|e] w1]; [eauto | discriminate].
Qed.

Lemma dense_positions_NoDup sid d : dense sid d -> NoDup (positions sid d).
Proof. intros H. now apply dense_iff in H. Qed.

Lemma shiftPositionsUp_run sid p w :
  NoDup (map sp_id (sequence_poses (db w))) -> NoDup (positions sid (db w)) ->
  (forall w', shiftPositionsUp sid p w = (Ok tt, w') ->
     evolves w w' (moved 1 (from_position sid p) (sequence_poses (db w)))
       (shift_writes 1 (order false (filter (from_position sid p)
                                            (sequence_poses (db w)))))) /\
  (outage w = None -> exists w', shiftPositionsUp sid p w = (Ok tt, w')).
Proof.
  intros Hpk Hnd. unfold shiftPositionsUp, bind, query.
  fold (from_position sid p).
  destruct (shift_loop 1 sid _ w (up_inv sid (db w) p Hpk Hnd)) as [Ha Hb].
  split; [|exact Hb].
  intros w' E. specialize (Ha w' E).
  unfold from_position in *. now rewrite fetched_closed in Ha.
Qed.

Lemma no_entry_beyond sid d p :
  dense sid d -> count sid d < p ->
  forall r, In r (sequence_poses d) -> from_position sid p r = false.
Proof.
  intros Hd Hp r Hr. unfold from_position.
  destruct (in_sequence sid r) eqn:S; [|reflexivity]. cbn [andb].
  apply Z.leb_gt.
  assert (In r (entries sid d)) by (apply filter_In; auto).
  pose proof (dense_bounds _ _ _ Hd H). unfold count in Hp. lia.
Qed.

Lemma filter_none {A} (f : A -> bool) (l : list A) :
  (forall x, In x l -> f x = false) -> filter f l = [].
Proof.
  induction l as [|x rest IH]; simpl; intros H; [reflexivity|].
  rewrite (H x (or_introl eq_refl)). apply IH. auto.
Qed.

(** The shift phase of [addPoseToSequence]: taken when a position before the
    append slot is supplied, skipped otherwise; either way the rows at or after
    the insert position, if any, have moved up by one. *)
Lemma insert_shift_phase sid cmd w :
  NoDup (map sp_id (sequence_poses (db w))) -> dense sid (db w) ->
  insert_position sid (db w) cmd <= count sid (db w) + 1 ->
  let p := insert_position sid (db w) cmd in
  let phase := match add_position cmd with
               | Some q => if q <? count sid (db w) + 1
                           then shiftPositionsUp sid q else ret tt
               | None => ret tt
               end in
  (forall w', phase w = (Ok tt, w') ->
     evolves w w' (moved 1 (from_position sid p) (sequence_poses (db w)))
       (shift_writes 1 (order false (filter (from_position sid p)
                                            (sequence_poses (db w)))))) /\
  (outage w = None -> exists w', phase w = (Ok tt, w')).
Proof.
  intros Hpk Hd Hle p phase.
  assert (Hskip : p = count sid (db w) + 1 ->
            (forall w', ret tt w = (Ok tt, w') ->
               evolves w w' (moved 1 (from_position sid p) (sequence_poses (db w)))
                 (shift_writes 1 (order false (filter (from_position sid p)
                                                      (sequence_poses (db w)))))) /\
            (outage w = None -> exists w', @ret unit tt w = (Ok tt, w'))).
  { intros Ep. split; [|intros _; eexists; reflexivity].
    intros w' E. inversion E; subst w'.
    assert (Hnone : forall r, In r (sequence_poses (db w)) ->
                              from_position sid p r = false)
      by (apply no_entry_beyond; [exact Hd | lia]).
    rewrite (moved_none _ _ _ Hnone), (filter_none _ _ Hnone). apply evolves_refl. }
  subst p phase. unfold insert_position in *.
  destruct (add_position cmd) as [q|]; [|now apply Hskip].
  destruct (q <? count sid (db w) + 1) eqn:Q.
  - apply shiftPositionsUp_run; [exact Hpk | now apply dense_positions_NoDup].
  - apply Hskip. apply Z.ltb_ge in Q. lia.
Qed.

Lemma addPoseToSequence_unfold newId uid sid cmd w :
  dense sid (db w) ->
  addPoseToSequence newId uid sid cmd w =
  match fst (verifySequenceOwnership sid uid w) with
  | Throw e => (Throw e, w)
  | Ok _ =>
      match fst (resolvePoseVersion (add_poseId cmd) (add_poseVersion cmd) w) with
      | Throw e => (Throw e, w)
      | Ok V =>
          let p := insert_position sid (db w) cmd in
          if count sid (db w) + 1 <? p
          then (Throw (AppError "INVALID_POSITION"), w)
          else (match add_position cmd with
                | Some q => if q <? count sid (db w) + 1
                            then shiftPositionsUp sid q else ret tt
                | None => ret tt
                end ;;;
                id <- insert_sequence_pose
                        (mkSequencePose newId sid (add_poseId cmd) V p) ;;
                fetchSequencePoseDto id) w
      end
  end.
Proof.
  intros Hd. unfold addPoseToSequence.
  pose proof (verifySequenceOwnership_reads sid uid w) as R1.
  destruct (verifySequenceOwnership sid uid w) as [[s|e] w1] eqn:E1;
    cbn [fst snd] in *; subst w1;
    [rewrite (bind_ok _ _ _ _ _ E1) | now rewrite (bind_throw _ _ _ _ _ E1)].
  pose proof (resolvePoseVersion_reads (add_poseId cmd) (add_poseVersion cmd) w) as R2.
  destruct (resolvePoseVersion (add_poseId cmd) (add_poseVersion cmd) w)
    as [[V|e] w1] eqn:E2; cbn [fst snd] in *; subst w1;
    [rewrite (bind_ok _ _ _ _ _ E2) | now rewrite (bind_throw _ _ _ _ _ E2)].
  assert (E3 : match add_position cmd with
               | Some p => ret p
               | None => getNextPosition sid
               end w = (Ok (insert_position sid (db w) cmd), w)).
  { unfold insert_position, count. destruct (add_position cmd); [reflexivity|].
    now apply getNextPosition_dense. }
  rewrite (bind_ok _ _ _ _ _ E3).
  rewrite (bind_ok _ _ _ _ _ (getNextPosition_dense sid w Hd)).
  fold (count sid (db w)). cbv zeta.
  destruct (count sid (db w) + 1 <? insert_position sid (db w) cmd); reflexivity.
Qed.

(** What a successful run of [addPoseToSequence] on a dense sequence did. *)
Lemma addPoseToSequence_success newId uid sid cmd w dto w' :
  NoDup (map sp_id (sequence_poses (db w))) -> dense sid (db w) ->
  addPoseToSequence newId uid sid cmd w = (Ok dto, w') ->
  exists V,
    resolvePoseVersion (add_poseId cmd) (add_poseVersion cmd) w = (Ok V, w) /\
    let p := insert_position sid (db w) cmd in
    let row := mkSequencePose newId sid (add_poseId cmd) V p in
    p <= count sid (db w) + 1 /\
    ~ In newId (map sp_id (sequence_poses (db w))) /\
    evolves w w' (moved 1 (from_position sid p) (sequence_poses (db w)) ++ [row])
      (shift_writes 1 (order false (filter (from_position sid p)
                                           (sequence_poses (db w))))
       ++ [WInsert row]) /\
    dto_id dto = newId /\ dto_position dto = p.
Proof.
  intros Hpk Hd E. rewrite (addPoseToSequence_unfold _ _ _ _ _ Hd) in E.
  destruct (verifySequenceOwnership sid uid w) as [[s|e] w1]; cbn [fst] in E;
    [|discriminate].
  pose proof (resolvePoseVersion_reads (add_poseId cmd) (add_poseVersion cmd) w) as R2.
  destruct (resolvePoseVersion (add_poseId cmd) (add_poseVersion cmd) w)
    as [[V|e] w2]; cbn [fst snd] in *; [subst w2 | discriminate].
  exists V. split; [reflexivity|]. cbv zeta in *.
  destruct (count sid (db w) + 1 <? insert_position sid (db w) cmd) eqn:G;
    [discriminate|].
  apply Z.ltb_ge in G. split; [exact G|].
  apply bind_inv in E. destruct E as ([] & wa & Ephase & E).
  apply bind_inv in E. destruct E as (id & wb & Eins & Efetch).
  destruct (insert_shift_phase sid cmd w Hpk Hd G) as [Hphase _].
  specialize (Hphase wa Ephase).
  apply insert_sequence_pose_inv in Eins. destruct Eins as (-> & Hfresh & Ev2).
  cbn [sp_id] in *.
  assert (Hrows1 : sequence_poses (db wa)
                   = moved 1 (from_position sid (insert_position sid (db w) cmd))
                           (sequence_poses (db w)))
    by (destruct Hphase as (_ & _ & _ & H & _); exact H).
  rewrite Hrows1 in *. rewrite moved_ids in Hfresh. split; [exact Hfresh|].
  assert (Hrows2 : sequence_poses (db wb)
                   = moved 1 (from_position sid (insert_position sid (db w) cmd))
                           (sequence_poses (db w))
                     ++ [mkSequencePose newId sid (add_poseId cmd) V
                                        (insert_position sid (db w) cmd)])
    by (destruct Ev2 as (_ & _ & _ & H & _); exact H).
  destruct (fetch_appended_inv _ _ _ _ _ Hrows2 Efetch) as (-> & A & B).
  split; [exact (evolves_trans _ _ _ _ _ _ _ Hphase Ev2) | tauto].
Qed.

(** When a run of [addPoseToSequence] on a dense sequence succeeds. *)
Lemma addPoseToSequence_total newId uid sid cmd w s V :
  consistent (db w) -> dense sid (db w) -> outage w = None ->
  verifySequenceOwnership sid uid w = (Ok s, w) ->
  resolvePoseVersion (add_poseId cmd) (add_poseVersion cmd) w = (Ok V, w) ->
  ~ In newId (map sp_id (sequence_poses (db w))) ->
  insert_position sid (db w) cmd <= count sid (db w) + 1 ->
  exists dto w', addPoseToSequence newId uid sid cmd w = (Ok dto, w').
Proof.
  intros Hc Hd Hout Ever Eres Hfresh G.
  pose proof (pk_sequence_poses Hc) as Hpk.
  rewrite (addPoseToSequence_unfold _ _ _ _ _ Hd), Ever, Eres. cbn [fst]. cbv zeta.
  replace (count sid (db w) + 1 <? insert_position sid (db w) cmd) with false
    by (symmetry; now apply Z.ltb_ge).
  destruct (insert_shift_phase sid cmd w Hpk Hd G) as [Hphase Hgo].
  destruct (Hgo Hout) as [w1 Ephase]. specialize (Hphase w1 Ephase).
  rewrite (bind_ok _ _ _ _ _ Ephase).
  destruct Hphase as (A1 & A2 & A3 & A4 & A5 & A6).
  apply verifySequenceOwnership_ok in Ever. destruct Ever as (_ & Hs & Es & _).
  destruct (resolvePoseVersion_ok _ _ _ _ _ Hc Eres) as (_ & Hv & Hp).
  set (p := insert_position sid (db w) cmd) in *.
  destruct (insert_sequence_pose_ok
              (mkSequencePose newId sid (add_poseId cmd) V p) w1) as (w2 & Eins & Ev2).
  - auto.
  - cbn [sp_id]. now rewrite A4, moved_ids.
  - cbn [sp_id sp_sequence_id sp_position]. rewrite A4.
    apply position_taken_false. intros r' Hr' _ Hs' Hp'.
    apply moved_In in Hr'. destruct Hr' as (r & Hr & _ & Sr & _ & _ & Pr).
    unfold from_position, in_sequence in Pr.
    assert (S : (sp_sequence_id r == sid) = true)
      by (apply same_true; congruence).
    rewrite S in Pr. cbn [andb] in Pr.
    destruct (p <=? sp_position r) eqn:L;
      [apply Z.leb_le in L | apply Z.leb_gt in L]; lia.
  - exists s. cbn [sp_sequence_id]. rewrite A1. auto.
  - cbn [sp_pose_id]. destruct Hp as [x [Hx Ex]]. exists x. rewrite A2. auto.
  - cbn [sp_pose_version_id]. destruct Hv as [x [Hx Ex]]. exists x. rewrite A3. auto.
  - rewrite (bind_ok _ _ _ _ _ Eins).
    destruct Ev2 as (B1 & B2 & B3 & B4 & B5 & B6).
    destruct (fetch_appended w2 _ _ B4) as (dto & Ef & _).
    + cbn [sp_id]. now rewrite A4, moved_ids.
    + cbn [sp_pose_id]. destruct Hp as [x [Hx Ex]]. exists x.
      rewrite B2, A2. auto.
    + cbn [sp_id] in Ef. eauto.
Qed.

(** ** Density after a shift *)

Lemma entries_moved sid delta sel rows :
  filter (in_sequence sid) (moved delta sel rows)
  = moved delta sel (filter (in_sequence sid) rows).
Proof.
  unfold moved. rewrite filter_map_swap. f_equal. apply filter_ext.
  intros r. unfold in_sequence.
  destruct (sel r); [now rewrite set_position_sequence | reflexivity].
Qed.

Lemma positions_moved delta sel l :
  map sp_position (moved delta sel l)
  = map (fun r => if sel r then sp_position r + delta else sp_position r) l.
Proof.
  unfold moved. rewrite map_map. apply map_ext. intros r.
  destruct (sel r); [apply set_position_self|]; reflexivity.
Qed.

Lemma dense_intro sid d :
  NoDup (map sp_position (entries sid d)) ->
  (forall z, In z (map sp_position (entries sid d)) -> 1 <= z <= count sid d) ->
  dense sid d.
Proof. intros H1 H2. apply dense_iff. split; assumption. Qed.

Lemma NoDup_map_on {A B} (f : A -> B) (g : A -> B) (l : list A) :
  NoDup (map f l) ->
  (forall a b, In a l -> In b l -> g a = g b -> f a = f b) ->
  NoDup (map g l).
Proof.
  intros Hnd H. apply Injective_map_NoDup_in; [|now apply NoDup_map_inv in Hnd].
  intros a b Ha Hb E. apply (map_injective_on f l); auto.
Qed.

Lemma dense_after_insert sid d d' p row :
  dense sid d -> 1 <= p <= count sid d + 1 ->
  sequence_poses d' = moved 1 (from_position sid p) (sequence_poses d) ++ [row] ->
  sp_sequence_id row = sid -> sp_position row = p ->
  dense sid d' /\ count sid d' = count sid d + 1.
Proof.
  intros Hd Hp Hrows Hs Hpos.
  assert (He : entries sid d' = moved 1 (from_position sid p) (entries sid d) ++ [row]).
  { unfold entries. rewrite Hrows, filter_app, entries_moved. cbn [filter].
    unfold in_sequence at 2. apply same_true in Hs. now rewrite Hs. }
  assert (Hc : count sid d' = count sid d + 1).
  { unfold count. rewrite He, length_app. unfold moved. rewrite length_map.
    cbn [List.length]. lia. }
  split; [|exact Hc].
  assert (Hsel : forall r, In r (entries sid d) ->
                           from_position sid p r = (p <=? sp_position r)).
  { intros r Hr. apply filter_In in Hr. unfold from_position.
    destruct Hr as [_ ->]. reflexivity. }
  apply dense_intro; rewrite He, map_app, positions_moved; cbn [map].
  - apply NoDup_app.
    + apply (NoDup_map_on sp_position); [now apply dense_positions_NoDup|].
      intros a b Ha Hb. rewrite (Hsel a Ha), (Hsel b Hb).
      destruct (p <=? sp_position a) eqn:A, (p <=? sp_position b) eqn:B;
        try apply Z.leb_le in A; try apply Z.leb_le in B;
        try apply Z.leb_gt in A; try apply Z.leb_gt in B; lia.
    + repeat constructor. simpl. tauto.
    + intros z Hz [E|[]]. apply in_map_iff in Hz. destruct Hz as [r [Er Hr]].
      rewrite (Hsel r Hr) in Er.
      destruct (p <=? sp_position r) eqn:A;
        [apply Z.leb_le in A | apply Z.leb_gt in A]; lia.
  - intros z Hz. rewrite Hc. apply in_app_or in Hz. destruct Hz as [Hz|[<-|[]]]; [|lia].
    apply in_map_iff in Hz. destruct Hz as [r [<- Hr]].
    pose proof (dense_bounds _ _ _ Hd Hr) as Hb. fold (count sid d) in Hb.
    destruct (from_position sid p r); lia.
Qed.

Lemma filter_swap {A} (f g : A -> bool) (l : list A) :
  filter f (filter g l) = filter g (filter f l).
Proof.
  induction l as [|x rest IH]; simpl; [reflexivity|].
  destruct (f x) eqn:F, (g x) eqn:G; simpl; rewrite ?F, ?G, IH; reflexivity.
Qed.

Lemma length_without (l : list SequencePose) e :
  NoDup (map sp_id l) -> In e l ->
  S (List.length (filter (fun r => negb (sp_id r == sp_id e)) l)) = List.length l.
Proof.
  induction l as [|x rest IH]; simpl; [tauto|].
  intros Hnd He. inversion Hnd as [|? ? Hx Hrest]; subst.
  destruct He as [->|He].
  - rewrite same_refl. cbn [negb]. f_equal.
    rewrite (proj2 (filter_ext_in_iff _ (fun _ => true) rest)).
    + clear. induction rest; simpl; congruence.
    + intros r Hr. apply negb_true_iff, same_false. intros E. apply Hx.
      rewrite <- E. now apply in_map.
  - assert (N : (sp_id x == sp_id e) = false).
    { apply same_false. intros E. apply Hx. rewrite E. now apply in_map. }
    rewrite N. cbn [negb List.length]. f_equal. now apply IH.
Qed.

Lemma NoDup_map_filter {A B} (f : A -> B) (g : A -> bool) (l : list A) :
  NoDup (map f l) -> NoDup (map f (filter g l)).
Proof.
  induction l as [|x rest IH]; simpl; intros H; [constructor|].
  inversion H as [|? ? Hx Hrest]; subst.
  destruct (g x); simpl; auto. constructor; auto.
  intros Hin. apply Hx. apply in_map_iff in Hin. destruct Hin as [y [E Hy]].
  apply filter_In in Hy. apply in_map_iff. exists y. tauto.
Qed.

Lemma dense_after_remove sid d d' e :
  dense sid d -> NoDup (map sp_id (sequence_poses d)) -> In e (entries sid d) ->
  sequence_poses d'
  = moved (-1) (after_position sid (sp_position e))
          (filter (fun r => negb (sp_id r == sp_id e)) (sequence_poses d)) ->
  dense sid d' /\ count sid d' = count sid d - 1.
Proof.
  intros Hd Hpk He Hrows.
  set (rest := filter (fun r => negb (sp_id r == sp_id e)) (entries sid d)).
  assert (Hent : entries sid d' = moved (-1) (after_position sid (sp_position e)) rest).
  { unfold entries, rest. now rewrite Hrows, entries_moved, filter_swap. }
  assert (Hlen : S (List.length rest) = List.length (entries sid d)).
  { apply length_without; [|exact He]. now apply pk_filter. }
  assert (Hc : count sid d' = count sid d - 1).
  { unfold count. rewrite Hent. unfold moved. rewrite length_map. lia. }
  split; [|exact Hc].
  assert (Hrest : forall r, In r rest ->
            In r (entries sid d) /\ sp_position r <> sp_position e /\
            after_position sid (sp_position e) r
            = (sp_position e <? sp_position r)).
  { intros r Hr. apply filter_In in Hr. destruct Hr as [Hr Hid].
    split; [exact Hr|]. split.
    - intros E. apply negb_true_iff, same_false in Hid. apply Hid.
      f_equal. now apply (dense_unique sid d).
    - apply filter_In in Hr. unfold after_position. destruct Hr as [_ ->].
      reflexivity. }
  pose proof (dense_bounds _ _ _ Hd He) as Hbe. fold (count sid d) in Hbe.
  apply dense_intro; rewrite Hent, positions_moved.
  - apply (NoDup_map_on sp_position).
    + apply NoDup_map_filter. now apply dense_positions_NoDup.
    + intros a b Ha Hb.
      destruct (Hrest a Ha) as (_ & Na & ->), (Hrest b Hb) as (_ & Nb & ->).
      destruct (sp_position e <? sp_position a) eqn:A,
               (sp_position e <? sp_position b) eqn:B;
        try apply Z.ltb_lt in A; try apply Z.ltb_lt in B;
        try apply Z.ltb_ge in A; try apply Z.ltb_ge in B; lia.
  - intros z Hz. rewrite Hc. apply in_map_iff in Hz. destruct Hz as [r [<- Hr]].
    destruct (Hrest r Hr) as (Hin & Nr & ->).
    pose proof (dense_bounds _ _ _ Hd Hin) as Hb. fold (count sid d) in Hb.
    destruct (sp_position e <? sp_position r) eqn:A;
      [apply Z.ltb_lt in A | apply Z.ltb_ge in A]; lia.
Qed.

(** ** Removing an entry *)

Lemma down_inv sid d p :
  NoDup (map sp_id (sequence_poses d)) -> NoDup (positions sid d) ->
  (forall r, In r (sequence_poses d) -> sp_sequence_id r = sid -> sp_position r <> p) ->
  loop_inv (-1) sid (sequence_poses d)
    (order true (filter (after_position sid p) (sequence_poses d))).
Proof.
  intros Hpk Hnd Hole.
  assert (Hsel : forall r, after_position sid p r = true -> in_sequence sid r = true)
    by (intros r H; apply andb_prop in H; tauto).
  constructor.
  - exact Hpk.
  - intros x Hx. apply order_In, filter_In in Hx. tauto.
  - intros x Hx. apply order_In, filter_In in Hx. destruct Hx as [_ Hx].
    apply Hsel in Hx. now apply same_true in Hx.
  - intros r x Hr Hs Hx Hp. apply order_In, filter_In in Hx. destruct Hx as [_ Hx].
    apply andb_prop in Hx. destruct Hx as [_ Hx]. apply Z.ltb_lt in Hx.
    apply order_In, filter_In. split; [exact Hr|].
    pose proof (Hole r Hr Hs).
    apply andb_true_intro. split; [now apply same_true | apply Z.ltb_lt; lia].
  - eapply StronglySorted_weaken;
      [| apply (fetched_strictly true _ sid d Hsel Hnd)].
    intros a b _ _ H. unfold strictly, clear_of in *. lia.
Qed.

Lemma shiftPositionsDown_run sid p w :
  NoDup (map sp_id (sequence_poses (db w))) -> NoDup (positions sid (db w)) ->
  (forall r, In r (sequence_poses (db w)) -> sp_sequence_id r = sid ->
             sp_position r <> p) ->
  (forall w', shiftPositionsDown sid p w = (Ok tt, w') ->
     evolves w w' (moved (-1) (after_position sid p) (sequence_poses (db w)))
       (shift_writes (-1) (order true (filter (after_position sid p)
                                              (sequence_poses (db w)))))) /\
  (outage w = None -> exists w', shiftPositionsDown sid p w = (Ok tt, w')).
Proof.
  intros Hpk Hnd Hole. unfold shiftPositionsDown, bind, query.
  fold (after_position sid p).
  destruct (shift_loop (-1) sid _ w (down_inv sid (db w) p Hpk Hnd Hole)) as [Ha Hb].
  split; [|exact Hb].
  intros w' E. specialize (Ha w' E).
  unfold after_position in *. now rewrite fetched_closed in Ha.
Qed.

Lemma delete_sequence_pose_run id w :
  (forall w', delete_sequence_pose id w = (Ok tt, w') ->
     evolves w w' (filter (fun r => negb (sp_id r == id)) (sequence_poses (db w)))
             [WDelete id]) /\
  (outage w = None -> exists w', delete_sequence_pose id w = (Ok tt, w')).
Proof.
  unfold delete_sequence_pose. cbv zeta.
  change (reachable (record (WDelete id) w)) with (reachable w).
  change (db (record (WDelete id) w)) with (db w).
  split.
  - destruct (reachable w); cbn [negb]; intros w' E; inversion E; subst.
    unfold evolves, set_rows, served, record; cbn. repeat split; auto.
    intros ->. reflexivity.
  - intros Hout. unfold reachable. rewrite Hout. cbn [negb]. eauto.
Qed.

Lemma filter_unique (g : SequencePose -> bool) rows e :
  NoDup (map sp_id rows) -> In e rows -> g e = true ->
  filter (fun r => (sp_id r == sp_id e) && g r) rows = [e].
Proof.
  induction rows as [|x rest IH]; simpl; [tauto|].
  intros Hnd He Hg. inversion Hnd as [|? ? Hx Hrest]; subst.
  destruct He as [->|He].
  - rewrite same_refl, Hg. cbn [andb]. f_equal. apply filter_none.
    intros r Hr. apply andb_false_intro1, same_false. intros E. apply Hx.
    rewrite <- E. now apply in_map.
  - assert (N : (sp_id x == sp_id e) = false).
    { apply same_false. intros E. apply Hx. rewrite E. now apply in_map. }
    rewrite N. cbn [andb]. now apply IH.
Qed.

Lemma entry_lookup sid d e :
  NoDup (map sp_id (sequence_poses d)) -> In e (entries sid d) ->
  maybeSingle (filter (fun r => (sp_id r == sp_id e) && in_sequence sid r)
                      (sequence_poses d)) = Ok (Some e).
Proof.
  intros Hpk He. apply filter_In in He. destruct He as [He Hs].
  now rewrite filter_unique.
Qed.

Lemma entry_lookup_inv sid d id e :
  maybeSingle (filter (fun r => (sp_id r == id) && in_sequence sid r)
                      (sequence_poses d)) = Ok (Some e) ->
  In e (entries sid d) /\ sp_id e = id.
Proof.
  intros E. apply maybeSingle_some in E.
  assert (Hin : In e (filter (fun r => (sp_id r == id) && in_sequence sid r)
                             (sequence_poses d)))
    by (rewrite E; simpl; auto).
  apply filter_In in Hin. destruct Hin as [Hin Hb].
  apply andb_prop in Hb. destruct Hb as [H1 H2]. apply same_true in H1.
  split; [apply filter_In; auto | exact H1].
Qed.

Lemma removeSequencePose_unfold uid sid id w :
  removeSequencePose uid sid id w =
  match fst (verifySequenceOwnership sid uid w) with
  | Throw e => (Throw e, w)
  | Ok _ =>
      match maybeSingle (filter (fun r => (sp_id r == id) && in_sequence sid r)
                                (sequence_poses (db w))) with
      | Throw e => (Throw e, w)
      | Ok None => (Throw (AppError "SEQUENCE_POSE_NOT_FOUND"), w)
      | Ok (Some existingPose) =>
          (delete_sequence_pose id ;;;
           shiftPositionsDown sid (sp_position existingPose)) w
      end
  end.
Proof.
  unfold removeSequencePose.
  pose proof (verifySequenceOwnership_reads sid uid w) as R1.
  destruct (verifySequenceOwnership sid uid w) as [[s|e] w1] eqn:E1;
    cbn [fst snd] in *; subst w1;
    [rewrite (bind_ok _ _ _ _ _ E1) | now rewrite (bind_throw _ _ _ _ _ E1)].
  unfold bind at 1, query.
  destruct (maybeSingle _) as [[e|]|e]; reflexivity.
Qed.

Lemma remove_phases sid e w :
  NoDup (map sp_id (sequence_poses (db w))) -> dense sid (db w) ->
  In e (entries sid (db w)) ->
  let rest := filter (fun r => negb (sp_id r == sp_id e)) (sequence_poses (db w)) in
  (forall w', (delete_sequence_pose (sp_id e) ;;;
               shiftPositionsDown sid (sp_position e)) w = (Ok tt, w') ->
     evolves w w' (moved (-1) (after_position sid (sp_position e)) rest)
       (WDelete (sp_id e)
        :: shift_writes (-1) (order true (filter (after_position sid (sp_position e))
                                                 rest)))) /\
  (outage w = None ->
     exists w', (delete_sequence_pose (sp_id e) ;;;
                 shiftPositionsDown sid (sp_position e)) w = (Ok tt, w')).
Proof.
  intros Hpk Hd He rest.
  destruct (delete_sequence_pose_run (sp_id e) w) as [Hdel Hdel_ok].
  assert (Hdown : forall w1, evolves w w1 rest [WDelete (sp_id e)] ->
            (forall w', shiftPositionsDown sid (sp_position e) w1 = (Ok tt, w') ->
               evolves w1 w' (moved (-1) (after_position sid (sp_position e)) rest)
                 (shift_writes (-1)
                    (order true (filter (after_position sid (sp_position e)) rest)))) /\
            (outage w1 = None ->
               exists w', shiftPositionsDown sid (sp_position e) w1 = (Ok tt, w'))).
  { intros w1 (_ & _ & _ & Hrows & _).
    rewrite <- Hrows. apply shiftPositionsDown_run.
    - rewrite Hrows. now apply pk_filter.
    - unfold positions, entries. rewrite Hrows. unfold rest.
      rewrite filter_swap. apply NoDup_map_filter.
      now apply dense_positions_NoDup.
    - rewrite Hrows. intros r Hr Hs Hp. apply filter_In in Hr.
      destruct Hr as [Hr Hid]. apply negb_true_iff, same_false in Hid. apply Hid.
      f_equal. apply (dense_unique sid (db w)); auto.
      apply filter_In. split; [exact Hr | now apply same_true]. }
  split.
  - intros w' E. apply bind_inv in E. destruct E as ([] & w1 & E1 & E2).
    pose proof (Hdel w1 E1) as Ev1. destruct (Hdown w1 Ev1) as [Hd1 _].
    exact (evolves_trans _ _ _ _ _ _ _ Ev1 (Hd1 w' E2)).
  - intros Hout. destruct (Hdel_ok Hout) as [w1 E1].
    pose proof (Hdel w1 E1) as Ev1. destruct (Hdown w1 Ev1) as [_ Hd2].
    rewrite (bind_ok _ _ _ _ _ E1). apply Hd2.
    destruct Ev1 as (_ & _ & _ & _ & _ & H). auto.
Qed.

(** ** Moving an entry *)

Lemma updateSequencePose_unfold uid sid id cmd w :
  dense sid (db w) ->
  updateSequencePose uid sid id cmd w =
  match fst (verifySequenceOwnership sid uid w) with
  | Throw e => (Throw e, w)
  | Ok _ =>
      match maybeSingle (filter (fun r => (sp_id r == id) && in_sequence sid r)
                                (sequence_poses (db w))) with
      | Throw e => (Throw e, w)
      | Ok None => (Throw (AppError "SEQUENCE_POSE_NOT_FOUND"), w)
      | Ok (Some existingPose) =>
          if is_defined (upd_duration cmd) || is_defined (upd_instructions cmd)
          then (Throw (AppError "DURATION_AND_INSTRUCTIONS_NOT_SUPPORTED"), w)
          else
            match upd_position cmd with
            | None => fetchSequencePoseDto id w
            | Some newPosition =>
                if newPosition =? sp_position existingPose
                then fetchSequencePoseDto id w
                else if (newPosition <? 1) || (count sid (db w) + 1 <=? newPosition)
                then (Throw (AppError "INVALID_POSITION"), w)
                else (reorder sid id (sp_position existingPose) newPosition ;;;
                      fetchSequencePoseDto id) w
            end
      end
  end.
Proof.
  intros Hd. unfold updateSequencePose.
  pose proof (verifySequenceOwnership_reads sid uid w) as R1.
  destruct (verifySequenceOwnership sid uid w) as [[s|e] w1] eqn:E1;
    cbn [fst snd] in *; subst w1;
    [rewrite (bind_ok _ _ _ _ _ E1) | now rewrite (bind_throw _ _ _ _ _ E1)].
  unfold bind at 1, query at 1.
  destruct (maybeSingle _) as [[e|]|e]; try reflexivity.
  destruct (is_defined (upd_duration cmd) || is_defined (upd_instructions cmd));
    [reflexivity|].
  destruct (upd_position cmd) as [np|]; [|reflexivity].
  destruct (np =? sp_position e); [reflexivity|].
  unfold bind at 1. unfold bind at 1.
  rewrite (getNextPosition_dense sid w Hd). fold (count sid (db w)).
  destruct ((np <? 1) || (count sid (db w) + 1 <=? np)); reflexivity.
Qed.

(** A shift loop whose first row is moved onto a position another row of the
    same sequence holds: the store rejects the statement and the loop stops. *)
Lemma blocked_loop delta h t e w :
  NoDup (map sp_id (sequence_poses (db w))) ->
  In h (sequence_poses (db w)) -> In e (sequence_poses (db w)) ->
  sp_sequence_id e = sp_sequence_id h ->
  sp_position e = sp_position h + delta -> delta <> 0 ->
  exists c w1,
    for_each (h :: t)
      (fun pose => update_position (sp_id pose) (sp_position pose + delta)) w
    = (Throw (StoreError c), w1) /\
    db w1 = db w /\
    issued w1 = issued w ++ [WUpdatePosition (sp_id h) (sp_position h + delta)] /\
    (outage w = None -> c = "23505").
Proof.
  intros Hpk Hh He Hs Hp Hdelta. cbn [for_each].
  assert (Hup : exists c w1,
            update_position (sp_id h) (sp_position h + delta) w
            = (Throw (StoreError c), w1) /\ db w1 = db w /\
            issued w1 = issued w ++ [WUpdatePosition (sp_id h) (sp_position h + delta)]
            /\ (outage w = None -> c = "23505")).
  { unfold update_position. cbv zeta.
    change (reachable (record (WUpdatePosition (sp_id h) (sp_position h + delta)) w))
      with (reachable w).
    change (db (record (WUpdatePosition (sp_id h) (sp_position h + delta)) w))
      with (db w).
    destruct (reachable w) eqn:R; cbn [negb].
    - rewrite (find_by_id _ _ Hpk Hh).
      replace (position_taken _ _ _ _) with true.
      + do 2 eexists. split; [reflexivity|]. cbn. auto.
      + symmetry. unfold position_taken. apply existsb_exists. exists e.
        split; [exact He|].
        assert (N : (sp_id e == sp_id h) = false).
        { apply same_false. intros E.
          assert (e = h) by (apply (pk_injective (sequence_poses (db w))); auto).
          subst e. lia. }
        rewrite N. unfold in_sequence. apply same_true in Hs. rewrite Hs.
        cbn [negb andb]. apply Z.eqb_eq. exact Hp.
    - do 2 eexists. split; [reflexivity|]. cbn. repeat split; auto.
      intros Hn. unfold reachable in R. rewrite Hn in R. discriminate. }
  destruct Hup as (c & w1 & E & A & B & C). exists c, w1.
  rewrite (bind_throw _ _ _ _ _ E). auto.
Qed.

(** On a dense sequence the first statement of every reordering is rejected:
    the neighbour of the moved entry is sent to the position the moved entry
    still holds. *)
Lemma reorder_blocked sid e np w :
  NoDup (map sp_id (sequence_poses (db w))) -> dense sid (db w) ->
  In e (entries sid (db w)) ->
  np <> sp_position e -> 1 <= np <= count sid (db w) ->
  exists n c w1,
    reorder sid (sp_id e) (sp_position e) np w = (Throw (StoreError c), w1) /\
    In n (entries sid (db w)) /\
    sp_position n = (if sp_position e <? np then sp_position e + 1
                     else sp_position e - 1) /\
    db w1 = db w /\
    issued w1 = issued w ++ [WUpdatePosition (sp_id n) (sp_position e)] /\
    (outage w = None -> c = "23505").
Proof.
  intros Hpk Hd He Hne Hnp.
  pose proof (dense_bounds _ _ _ Hd He) as Hbe. fold (count sid (db w)) in Hbe.
  assert (Hrow : In e (sequence_poses (db w))) by (apply entries_In in He; tauto).
  assert (Hes : sp_sequence_id e = sid) by (apply entries_In in He; tauto).
  unfold reorder, reorder_with. destruct (sp_position e <? np) eqn:L.
  - apply Z.ltb_lt in L.
    destruct (dense_covers sid (db w) (sp_position e + 1) Hd) as [n [Hn Pn]];
      [unfold count in *; lia|].
    unfold bind, query.
    set (sel := fun r => in_sequence sid r && (sp_position e <? sp_position r)
                         && (sp_position r <=? np)).
    pose proof (order_sorted true (filter sel (sequence_poses (db w)))) as Hs.
    assert (Hin : In n (order true (filter sel (sequence_poses (db w))))).
    { apply order_In, filter_In. apply filter_In in Hn. destruct Hn as [Hn Sn].
      split; [exact Hn|]. unfold sel. rewrite Sn. cbn [andb].
      apply andb_true_intro. split; [apply Z.ltb_lt | apply Z.leb_le]; lia. }
    destruct (order true (filter sel (sequence_poses (db w)))) as [|h t] eqn:O;
      [destruct Hin|].
    assert (Hh : In h (filter sel (sequence_poses (db w))))
      by (apply (order_In true); rewrite O; simpl; auto).
    apply filter_In in Hh. destruct Hh as [Hh Sh]. unfold sel in Sh.
    apply andb_prop in Sh. destruct Sh as [Sh _]. apply andb_prop in Sh.
    destruct Sh as [Sh Lh]. apply Z.ltb_lt in Lh.
    pose proof (sorted_head_extreme _ _ _ _ Hs Hin) as Hle. unfold precedes in Hle.
    assert (Hhn : h = n).
    { apply (dense_unique sid (db w)); auto; [|lia]. apply filter_In. auto. }
    subst h.
    destruct (blocked_loop (-1) n t e w Hpk Hh Hrow) as (c & w1 & E & A & B & C);
      [apply same_true in Sh; congruence | lia | lia |].
    exists n, c, w1.
    change (for_each (n :: t)
              (fun pose => update_position (sp_id pose) (sp_position pose - 1)) w
            = (Throw (StoreError c), w1)) in E.
    rewrite E.
    replace (sp_position n + -1) with (sp_position e) in B by lia.
    repeat split; auto.
  - apply Z.ltb_ge in L.
    replace (np <? sp_position e) with true by (symmetry; apply Z.ltb_lt; lia).
    destruct (dense_covers sid (db w) (sp_position e - 1) Hd) as [n [Hn Pn]];
      [unfold count in *; lia|].
    unfold bind, query, ret.
    set (sel := fun r => in_sequence sid r && (np <=? sp_position r)
                         && (sp_position r <? sp_position e)).
    pose proof (order_sorted false (filter sel (sequence_poses (db w)))) as Hs.
    assert (Hin : In n (order false (filter sel (sequence_poses (db w))))).
    { apply order_In, filter_In. apply filter_In in Hn. destruct Hn as [Hn Sn].
      split; [exact Hn|]. unfold sel. rewrite Sn. cbn [andb].
      apply andb_true_intro. split; [apply Z.leb_le | apply Z.ltb_lt]; lia. }
    destruct (order false (filter sel (sequence_poses (db w)))) as [|h t] eqn:O;
      [destruct Hin|].
    assert (Hh : In h (filter sel (sequence_poses (db w))))
      by (apply (order_In false); rewrite O; simpl; auto).
    apply filter_In in Hh. destruct Hh as [Hh Sh]. unfold sel in Sh.
    apply andb_prop in Sh. destruct Sh as [Sh Lh]. apply andb_prop in Sh.
    destruct Sh as [Sh _]. apply Z.ltb_lt in Lh.
    pose proof (sorted_head_extreme _ _ _ _ Hs Hin) as Hle. unfold precedes in Hle.
    assert (Hhn : h = n).
    { apply (dense_unique sid (db w)); auto; [|lia]. apply filter_In. auto. }
    subst h.
    destruct (blocked_loop 1 n t e w Hpk Hh Hrow) as (c & w1 & E & A & B & C);
      [apply same_true in Sh; congruence | lia | lia |].
    exists n, c, w1. rewrite E.
    replace (sp_position n + 1) with (sp_position e) in B by lia.
    repeat split; auto.
Qed.

(** ** The boolean checks are sound *)

Lemma distinct_NoDup {A} (eqb : A -> A -> bool) (l : list A) :
  (forall a b, eqb a b = true <-> a = b) -> distinct eqb l = true -> NoDup l.
Proof.
  intros Heq. induction l as [|x rest IH]; simpl; intros H; constructor.
  - apply andb_prop in H. destruct H as [H _]. apply negb_true_iff in H.
    intros Hin. assert (T : existsb (eqb x) rest = true).
    { apply existsb_exists. exists x. split; [exact Hin | now apply Heq]. }
    congruence.
  - apply IH. apply andb_prop in H. tauto.
Qed.

Lemma denseb_sound sid d : denseb sid d = true -> dense sid d.
Proof.
  unfold denseb. intros H. apply andb_prop in H. destruct H as [H1 H2].
  apply dense_iff. split.
  - apply (distinct_NoDup Z.eqb); [apply Z.eqb_eq | exact H1].
  - intros z Hz. rewrite forallb_forall in H2. specialize (H2 z Hz).
    apply andb_prop in H2. destruct H2 as [A B].
    apply Z.leb_le in A. apply Z.leb_le in B. unfold count in B. lia.
Qed.

Lemma existsb_has_pose d p :
  existsb (fun x => pose_id x == p) (poses d) = true -> has_pose d p.
Proof.
  intros H. apply existsb_exists in H. destruct H as [x [Hx E]].
  exists x. split; [exact Hx | now apply same_true].
Qed.

Lemma consistentb_sound d : consistentb d = true -> consistent d.
Proof.
  unfold consistentb. intros H.
  apply andb_prop in H. destruct H as [H H4].
  apply andb_prop in H. destruct H as [H H3].
  apply andb_prop in H. destruct H as [H1 H2].
  rewrite forallb_forall in H2, H3, H4. constructor.
  - apply (distinct_NoDup same); [apply same_true | exact H1].
  - intros r Hr. apply existsb_has_pose. auto.
  - intros v Hv. apply existsb_has_pose. auto.
  - intros p cv Hp E. specialize (H4 p Hp). rewrite E in H4.
    apply existsb_exists in H4. destruct H4 as [x [Hx Ex]].
    exists x. split; [exact Hx | now apply same_true].
Qed.

(** ** Consistency is kept *)

Lemma consistent_step w w' rows' ws :
  consistent (db w) -> evolves w w' rows' ws ->
  NoDup (map sp_id rows') ->
  (forall r, In r rows' -> has_pose (db w) (sp_pose_id r)) ->
  consistent (db w').
Proof.
  intros [C1 C2 C3 C4] (A1 & A2 & A3 & A4 & _) Hpk Hfk.
  assert (Hp : forall p, has_pose (db w) p -> has_pose (db w') p).
  { intros p [x [Hx E]]. exists x. rewrite A2. auto. }
  constructor.
  - now rewrite A4.
  - intros r Hr. rewrite A4 in Hr. auto.
  - intros v Hv. rewrite A3 in Hv. auto.
  - intros p cv Hin E. rewrite A2 in Hin.
    destruct (C4 p cv Hin E) as [x [Hx Ex]]. exists x. rewrite A3. auto.
Qed.

Lemma moved_has_pose d delta sel rows :
  (forall r, In r rows -> has_pose d (sp_pose_id r)) ->
  forall r, In r (moved delta sel rows) -> has_pose d (sp_pose_id r).
Proof.
  intros H r' Hr'. apply moved_In in Hr'.
  destruct Hr' as (r & Hr & _ & _ & E & _). rewrite E. auto.
Qed.

Lemma NoDup_snoc {A} (l : list A) x : NoDup l -> ~ In x l -> NoDup (l ++ [x]).
Proof.
  intros Hl Hx. apply NoDup_app; auto.
  - repeat constructor. simpl. tauto.
  - intros a Ha [<-|[]]. auto.
Qed.

Lemma updateSequencePose_success uid sid id cmd w dto w' :
  NoDup (map sp_id (sequence_poses (db w))) -> dense sid (db w) ->
  updateSequencePose uid sid id cmd w = (Ok dto, w') -> w' = w.
Proof.
  intros Hpk Hd E. rewrite (updateSequencePose_unfold _ _ _ _ _ Hd) in E.
  destruct (fst (verifySequenceOwnership sid uid w)); [|discriminate].
  destruct (maybeSingle _) as [[e|]|err] eqn:L; try discriminate.
  destruct (is_defined (upd_duration cmd) || is_defined (upd_instructions cmd));
    [discriminate|].
  assert (Hfetch : fetchSequencePoseDto id w = (Ok dto, w') -> w' = w)
    by (intros F; eapply reads_inv; eauto; apply fetchSequencePoseDto_reads).
  destruct (upd_position cmd) as [np|]; [|auto].
  destruct (np =? sp_position e) eqn:Q; [auto|].
  destruct ((np <? 1) || (count sid (db w) + 1 <=? np)) eqn:G; [discriminate|].
  exfalso. apply bind_inv in E. destruct E as ([] & w1 & E & _).
  apply entry_lookup_inv in L. destruct L as [He <-].
  apply orb_false_elim in G. destruct G as [G1 G2].
  apply Z.ltb_ge in G1. apply Z.leb_gt in G2. apply Z.eqb_neq in Q.
  destruct (reorder_blocked sid e np w Hpk Hd He Q) as (n & c & w2 & B & _);
    [lia|].
  congruence.
Qed.

(** ** Which errors the write phases can raise *)

Lemma update_position_errors id p w e w' :
  update_position id p w = (Throw e, w') -> exists c, e = StoreError c.
Proof.
  unfold update_position. cbv zeta.
  destruct (negb _); [intros E; inversion E; eauto|].
  destruct (find _ _); [|discriminate].
  destruct (position_taken _ _ _ _); intros E; inversion E; eauto.
Qed.

Lemma for_each_errors {A} (body : A -> M unit) :
  (forall x w e w', body x w = (Throw e, w') -> exists c, e = StoreError c) ->
  forall l w e w', for_each l body w = (Throw e, w') -> exists c, e = StoreError c.
Proof.
  intros Hbody. induction l as [|x rest IH]; intros w e w' E.
  - discriminate.
  - cbn [for_each] in E. unfold bind in E.
    destruct (body x w) as [[[]|e1] w1] eqn:B.
    + eapply IH; eauto.
    + inversion E; subst. eapply Hbody; eauto.
Qed.

Lemma shiftPositionsUp_errors sid p w e w' :
  shiftPositionsUp sid p w = (Throw e, w') -> exists c, e = StoreError c.
Proof.
  unfold shiftPositionsUp, bind, query. apply for_each_errors.
  intros x w0 e0 w0'. apply update_position_errors.
Qed.



Lemma insert_sequence_pose_errors row w e w' :
  insert_sequence_pose row w = (Throw e, w') -> exists c, e = StoreError c.
Proof.
  unfold insert_sequence_pose. cbv zeta.
  destruct (negb _); [intros E; inversion E; eauto|].
  destruct (_ || _); [intros E; inversion E; eauto|].
  destruct (_ || _); intros E; inversion E; eauto.
Qed.

Lemma bind_throw_inv {A B} (m : M A) (k : A -> M B) w e w' :
  bind m k w = (Throw e, w') ->
  m w = (Throw e, w') \/ exists a w1, m w = (Ok a, w1) /\ k a w1 = (Throw e, w').
Proof.
  unfold bind. destruct (m w) as [[a|e1] w1]; intros E.
  - right. eauto.
  - left. inversion E; subst. reflexivity.
Qed.

(** Past its position check, [addPoseToSequence] fails with store errors only. *)
Lemma insert_tail_errors newId sid cmd V w e w' :
  NoDup (map sp_id (sequence_poses (db w))) -> dense sid (db w) ->
  insert_position sid (db w) cmd <= count sid (db w) + 1 ->
  (match add_position cmd with
   | Some q => if q <? count sid (db w) + 1 then shiftPositionsUp sid q else ret tt
   | None => ret tt
   end ;;;
   id <- insert_sequence_pose
           (mkSequencePose newId sid (add_poseId cmd) V
                           (insert_position sid (db w) cmd)) ;;
   fetchSequencePoseDto id) w = (Throw e, w') ->
  exists c, e = StoreError c.
Proof.
  intros Hpk Hd Hle E.
  apply bind_throw_inv in E. destruct E as [E|([] & w1 & Ephase & E)].
  - destruct (add_position cmd) as [q|]; [|discriminate].
    destruct (q <? count sid (db w) + 1); [|discriminate].
    eapply shiftPositionsUp_errors; eauto.
  - apply bind_throw_inv in E. destruct E as [E|(id & w2 & Eins & E)].
    + eapply insert_sequence_pose_errors; eauto.
    + exfalso.
      destruct (insert_shift_phase sid cmd w Hpk Hd Hle) as [Hphase _].
      specialize (Hphase w1 Ephase). destruct Hphase as (_ & P1 & _ & R1 & _).
      pose proof (insert_sequence_pose_fk _ _ _ _ Eins) as Hp.
      apply insert_sequence_pose_inv in Eins. destruct Eins as (-> & Hfresh & Ev).
      destruct Ev as (_ & P2 & _ & R2 & _).
      destruct (fetch_appended w2 _ _ R2 Hfresh) as (dto & F & _).
      * destruct Hp as [x [Hx Ex]]. exists x. rewrite P2. auto.
      * congruence.
Qed.

(** ** Fail-fast: an error of the service's own leaves the world as it was *)

Lemma addPoseToSequence_fail_fast newId uid sid cmd w m w' :
  NoDup (map sp_id (sequence_poses (db w))) -> dense sid (db w) ->
  addPoseToSequence newId uid sid cmd w = (Throw (AppError m), w') -> w' = w.
Proof.
  intros Hpk Hd E. rewrite (addPoseToSequence_unfold _ _ _ _ _ Hd) in E.
  destruct (fst (verifySequenceOwnership sid uid w)); [|now inversion E].
  destruct (fst (resolvePoseVersion _ _ w)); [|now inversion E].
  cbv zeta in E.
  destruct (count sid (db w) + 1 <? insert_position sid (db w) cmd) eqn:G;
    [now inversion E|].
  apply Z.ltb_ge in G.
  destruct (insert_tail_errors _ _ _ _ _ _ _ Hpk Hd G E) as [c Hc]. discriminate.
Qed.

Lemma updateSequencePose_fail_fast uid sid id cmd w m w' :
  NoDup (map sp_id (sequence_poses (db w))) -> dense sid (db w) ->
  updateSequencePose uid sid id cmd w = (Throw (AppError m), w') -> w' = w.
Proof.
  intros Hpk Hd E. rewrite (updateSequencePose_unfold _ _ _ _ _ Hd) in E.
  destruct (fst (verifySequenceOwnership sid uid w)); [|now inversion E].
  destruct (maybeSingle _) as [[e|]|err] eqn:L; try now inversion E.
  destruct (is_defined (upd_duration cmd) || is_defined (upd_instructions cmd));
    [now inversion E|].
  assert (Hfetch : forall r, fetchSequencePoseDto id w = (r, w') -> w' = w)
    by (intros r F; eapply reads_inv; eauto; apply fetchSequencePoseDto_reads).
  destruct (upd_position cmd) as [np|]; [|eauto].
  destruct (np =? sp_position e) eqn:Q; [eauto|].
  destruct ((np <? 1) || (count sid (db w) + 1 <=? np)) eqn:G; [now inversion E|].
  exfalso. apply entry_lookup_inv in L. destruct L as [He <-].
  apply orb_false_elim in G. destruct G as [G1 G2].
  apply Z.ltb_ge in G1. apply Z.leb_gt in G2. apply Z.eqb_neq in Q.
  destruct (reorder_blocked sid e np w Hpk Hd He Q) as (n & c & w2 & B & _);
    [lia|].
  rewrite (bind_throw _ _ _ _ _ B) in E. discriminate.
Qed.


(** ** C1: the dense-position invariant *)

(** C1, as stated, fails for [addPoseToSequence]: the service accepts a
    supplied position below 1.  On A@1, B@2, C@3, D@4 an insert at position 0
    succeeds and leaves the positions 2, 3, 4, 5, 0. *)
Lemma insert_below_one_breaks_density :
  consistent (db abcd) /\ dense "s1" (db abcd) /\
  exists dto w',
    addPoseToSequence "E" "alice" "s1" (add_at (Some 0)) abcd = (Ok dto, w') /\
    positions "s1" (db w') = [2; 3; 4; 5; 0] /\
    ~ dense "s1" (db w').
Proof.
  split; [apply consistentb_sound; reflexivity|].
  split; [apply denseb_sound; reflexivity|].
  do 2 eexists. split; [reflexivity|]. split; [reflexivity|].
  intros H. apply dense_iff in H. destruct H as [_ H].
  specialize (H 0). cbn in H. lia.
Qed.

(** C1 (amended): on a consistent store, every successful run of
    [addPoseToSequence] whose position is omitted or at least 1, every
    successful run of [updateSequencePose] and every successful run of
    [removeSequencePose] on a sequence with dense positions 1..N leaves the
    store consistent and the sequence dense, with N+1, N and N-1 entries. *)
Theorem dense_preserved (w : World) (sid : Id) :
  consistent (db w) -> dense sid (db w) ->
  (forall newId uid cmd dto w',
      match add_position cmd with Some p => 1 <= p | None => True end ->
      addPoseToSequence newId uid sid cmd w = (Ok dto, w') ->
      consistent (db w') /\ dense sid (db w') /\
      count sid (db w') = count sid (db w) + 1) /\
  (forall uid id cmd dto w',
      updateSequencePose uid sid id cmd w = (Ok dto, w') ->
      consistent (db w') /\ dense sid (db w') /\
      count sid (db w') = count sid (db w)) /\
  (forall uid id w',
      removeSequencePose uid sid id w = (Ok tt, w') ->
      consistent (db w') /\ dense sid (db w') /\
      count sid (db w') = count sid (db w) - 1).
Proof.
  intros Hc Hd. pose proof (pk_sequence_poses Hc) as Hpk.
  split; [|split].
  - intros newId uid cmd dto w' Hlow E.
    destruct (addPoseToSequence_success _ _ _ _ _ _ _ Hpk Hd E)
      as (V & Eres & Hle & Hfresh & Hev & _).
    destruct (resolvePoseVersion_ok _ _ _ _ _ Hc Eres) as (_ & _ & Hp).
    assert (Hrows : sequence_poses (db w')
              = moved 1 (from_position sid (insert_position sid (db w) cmd))
                      (sequence_poses (db w))
                ++ [mkSequencePose newId sid (add_poseId cmd) V
                                   (insert_position sid (db w) cmd)])
      by (destruct Hev as (_ & _ & _ & H & _); exact H).
    split.
    + apply (consistent_step _ _ _ _ Hc Hev).
      * rewrite map_app, moved_ids. cbn [map sp_id]. now apply NoDup_snoc.
      * intros r Hr. apply in_app_or in Hr. destruct Hr as [Hr|[<-|[]]].
        -- revert r Hr. apply moved_has_pose. apply (fk_entry_pose Hc).
        -- exact Hp.
    + eapply (dense_after_insert sid (db w) (db w')); eauto.
      unfold insert_position, count in *. destruct (add_position cmd); lia.
  - intros uid id cmd dto w' E.
    rewrite (updateSequencePose_success _ _ _ _ _ _ _ Hpk Hd E). auto.
  - intros uid id w' E. rewrite removeSequencePose_unfold in E.
    destruct (fst (verifySequenceOwnership sid uid w)); [|discriminate].
    destruct (maybeSingle _) as [[e|]|err] eqn:L; try discriminate.
    apply entry_lookup_inv in L. destruct L as [He <-].
    destruct (remove_phases sid e w Hpk Hd He) as [Hrun _].
    specialize (Hrun w' E).
    assert (Hrows : sequence_poses (db w')
              = moved (-1) (after_position sid (sp_position e))
                      (filter (fun r => negb (sp_id r == sp_id e))
                              (sequence_poses (db w))))
      by (destruct Hrun as (_ & _ & _ & H & _); exact H).
    split.
    + apply (consistent_step _ _ _ _ Hc Hrun).
      * rewrite moved_ids. now apply pk_filter.
      * apply moved_has_pose. intros r Hr. apply filter_In in Hr.
        apply (fk_entry_pose Hc). tauto.
    + now apply (dense_after_remove sid (db w) (db w') e).
Qed.

Lemma dense_preserved_witness :
  consistent (db abcd) /\ dense "s1" (db abcd) /\
  dense "s1" (db (snd (addPoseToSequence "E" "alice" "s1" (add_at (Some 2)) abcd))) /\
  dense "s1" (db (snd (removeSequencePose "alice" "s1" "B" abcd))).
Proof.
  assert (Hc : consistent (db abcd)) by (apply consistentb_sound; reflexivity).
  assert (Hd : dense "s1" (db abcd)) by (apply denseb_sound; reflexivity).
  split; [exact Hc|]. split; [exact Hd|].
  destruct (dense_preserved abcd "s1" Hc Hd) as (Hins & _ & Hrem).
  split.
  - eapply (Hins "E" "alice" (add_at (Some 2))); [simpl; lia | reflexivity].
  - eapply (Hrem "alice" "B"). reflexivity.
Defined.

(** ** C2: what an insert does *)

(** C2: on a consistent store and a dense sequence of N entries owned by the
    caller, with the pose version resolved, the store reachable and a fresh
    row id, [addPoseToSequence] with a supplied position p, 1 <= p <= N+1,
    succeeds; it issues one update per entry at a position >= p, in strictly
    descending order of position, each moving its entry up by one, and only
    then the insert of the new entry at p; no other entry changes.  With the
    position omitted it issues the insert at N+1 alone and every existing row
    stays as it was. *)
Theorem insert_postcondition (w : World) (newId uid sid : Id)
        (cmd : AddPoseToSequenceCommand) (s : Sequence) (V : Id) :
  consistent (db w) -> dense sid (db w) -> outage w = None ->
  verifySequenceOwnership sid uid w = (Ok s, w) ->
  resolvePoseVersion (add_poseId cmd) (add_poseVersion cmd) w = (Ok V, w) ->
  ~ In newId (map sp_id (sequence_poses (db w))) ->
  match add_position cmd with
  | Some p => 1 <= p <= count sid (db w) + 1
  | None => True
  end ->
  let p := insert_position sid (db w) cmd in
  let fetched := order false (filter (from_position sid p) (sequence_poses (db w))) in
  let row := mkSequencePose newId sid (add_poseId cmd) V p in
  exists dto w',
    addPoseToSequence newId uid sid cmd w = (Ok dto, w') /\
    dto_id dto = newId /\ dto_position dto = p /\
    sequence_poses (db w')
    = moved 1 (from_position sid p) (sequence_poses (db w)) ++ [row] /\
    issued w' = issued w ++ shift_writes 1 fetched ++ [WInsert row] /\
    StronglySorted (strictly false) fetched /\
    (forall r, In r fetched <-> In r (entries sid (db w)) /\ p <= sp_position r) /\
    (add_position cmd = None ->
       p = count sid (db w) + 1 /\ fetched = [] /\
       sequence_poses (db w') = sequence_poses (db w) ++ [row]).
Proof.
  intros Hc Hd Hout Ever Eres Hfresh Hvalid p fetched row.
  pose proof (pk_sequence_poses Hc) as Hpk.
  assert (Hle : insert_position sid (db w) cmd <= count sid (db w) + 1)
    by (unfold insert_position; destruct (add_position cmd); lia).
  destruct (addPoseToSequence_total newId uid sid cmd w s V Hc Hd Hout Ever Eres
              Hfresh Hle) as (dto & w' & E).
  destruct (addPoseToSequence_success _ _ _ _ _ _ _ Hpk Hd E)
    as (V' & Eres' & _ & _ & Hev & Hid & Hpos).
  assert (V' = V) by congruence. subst V'.
  destruct Hev as (_ & _ & _ & Hrows & Hiss & _).
  exists dto, w'.
  split; [exact E|]. split; [exact Hid|]. split; [exact Hpos|].
  split; [exact Hrows|]. split; [exact Hiss|].
  split; [|split].
  - apply fetched_strictly with (sid := sid).
    + intros r H. apply andb_prop in H. tauto.
    + now apply dense_positions_NoDup.
  - intros r. unfold fetched. rewrite order_In, filter_In. unfold from_position.
    rewrite andb_true_iff, Z.leb_le. unfold entries. rewrite filter_In. tauto.
  - intros H.
    assert (Hbeyond : forall r, In r (sequence_poses (db w)) ->
                                from_position sid p r = false).
    { apply no_entry_beyond; [exact Hd|]. unfold p, insert_position. rewrite H. lia. }
    split; [unfold p, insert_position; now rewrite H|]. split.
    + unfold fetched. now rewrite filter_none.
    + rewrite Hrows. f_equal. now apply moved_none.
Qed.

Lemma insert_postcondition_witness :
  exists dto w',
    addPoseToSequence "E" "alice" "s1" (add_at (Some 2)) abcd = (Ok dto, w') /\
    map (fun r => (sp_id r, sp_position r)) (sequence_poses (db w'))
    = [("A", 1); ("B", 3); ("C", 4); ("D", 5); ("E", 2)] /\
    issued w' = [WUpdatePosition "D" 5; WUpdatePosition "C" 4; WUpdatePosition "B" 3;
                 WInsert (mkSequencePose "E" "s1" "p1" "v1" 2)].
Proof.
  destruct (insert_postcondition abcd "E" "alice" "s1" (add_at (Some 2))
              (mkSequence "s1" "alice") "v1")
    as (dto & w' & E & _ & _ & Hrows & Hiss & _).
  - apply consistentb_sound; reflexivity.
  - apply denseb_sound; reflexivity.
  - reflexivity.
  - reflexivity.
  - reflexivity.
  - simpl. intros [H|[H|[H|[H|[]]]]]; discriminate.
  - simpl. unfold count. simpl. lia.
  - exists dto, w'. split; [exact E|]. rewrite Hrows, Hiss. split; reflexivity.
Defined.

(** ** C3: what a move does *)

(** On a dense sequence every move to another valid position is rejected by
    the store: the first shift statement sends the neighbour of the moved
    entry to the position the moved entry still holds, which
    [unique_sequence_position] forbids.  No row changes. *)
Lemma move_rejected (w : World) (uid sid : Id) (e : SequencePose) (np : Z)
      (cmd : UpdateSequencePoseCommand) (s : Sequence) :
  consistent (db w) -> dense sid (db w) ->
  verifySequenceOwnership sid uid w = (Ok s, w) ->
  In e (entries sid (db w)) ->
  upd_position cmd = Some np -> upd_duration cmd = None ->
  upd_instructions cmd = None ->
  np <> sp_position e -> 1 <= np <= count sid (db w) ->
  exists n c w',
    updateSequencePose uid sid (sp_id e) cmd w = (Throw (StoreError c), w') /\
    In n (entries sid (db w)) /\
    sp_position n = (if sp_position e <? np then sp_position e + 1
                     else sp_position e - 1) /\
    db w' = db w /\
    issued w' = issued w ++ [WUpdatePosition (sp_id n) (sp_position e)] /\
    (outage w = None -> c = "23505").
Proof.
  intros Hc Hd Ever He Hp Hdur Hins Hne Hrange.
  pose proof (pk_sequence_poses Hc) as Hpk.
  destruct (reorder_blocked sid e np w Hpk Hd He Hne Hrange)
    as (n & c & w' & B & Hn & Pn & Hdb & Hiss & Hcode).
  exists n, c, w'. split; [|tauto].
  rewrite (updateSequencePose_unfold _ _ _ _ _ Hd), Ever. cbn [fst].
  rewrite (entry_lookup sid (db w) e Hpk He), Hdur, Hins, Hp. cbn [is_defined orb].
  replace (np =? sp_position e) with false by (symmetry; now apply Z.eqb_neq).
  replace ((np <? 1) || (count sid (db w) + 1 <=? np)) with false.
  - now rewrite (bind_throw _ _ _ _ _ B).
  - symmetry. apply orb_false_intro; [apply Z.ltb_ge | apply Z.leb_gt]; lia.
Qed.

(** A move to the position the entry already has writes nothing and returns
    the entry. *)
Lemma move_to_same_position (w : World) (uid sid : Id) (e : SequencePose)
      (cmd : UpdateSequencePoseCommand) (s : Sequence) :
  consistent (db w) -> dense sid (db w) ->
  verifySequenceOwnership sid uid w = (Ok s, w) ->
  In e (entries sid (db w)) ->
  upd_position cmd = Some (sp_position e) -> upd_duration cmd = None ->
  upd_instructions cmd = None ->
  exists dto,
    updateSequencePose uid sid (sp_id e) cmd w = (Ok dto, w) /\
    dto_id dto = sp_id e /\ dto_position dto = sp_position e.
Proof.
  intros Hc Hd Ever He Hp Hdur Hins.
  pose proof (pk_sequence_poses Hc) as Hpk.
  rewrite (updateSequencePose_unfold _ _ _ _ _ Hd), Ever. cbn [fst].
  rewrite (entry_lookup sid (db w) e Hpk He), Hdur, Hins, Hp. cbn [is_defined orb].
  rewrite Z.eqb_refl.
  assert (Hrow : In e (sequence_poses (db w))) by (apply filter_In in He; tauto).
  unfold fetchSequencePoseDto, bind, query.
  replace (filter (fun r => sp_id r == sp_id e) (sequence_poses (db w))) with [e].
  - cbn [single].
    destruct (fk_entry_pose Hc e Hrow) as [x [Hx Ex]].
    destruct (find (fun p => pose_id p == sp_pose_id e) (poses (db w))) eqn:F.
    + eexists. split; [reflexivity|]. cbn. tauto.
    + apply (find_none _ _ F) in Hx. rewrite Ex, same_refl in Hx. discriminate.
  - symmetry.
    rewrite <- (filter_unique (fun _ => true) (sequence_poses (db w)) e Hpk Hrow eq_refl).
    apply filter_ext. intros r. now rewrite andb_true_r.
Qed.

(** *** What the reordering block is written to achieve

    With the update statement of a store that defers the uniqueness check,
    the block does what a move is meant to: the rows between the old and the
    new position shift by one, in ascending order when moving later and in
    descending order when moving earlier, then the target row is set, and the
    sequence is dense again. *)

Ltac zbool :=
  repeat match goal with
         | H : (_ <? _) = true |- _ => apply Z.ltb_lt in H
         | H : (_ <? _) = false |- _ => apply Z.ltb_ge in H
         | H : (_ <=? _) = true |- _ => apply Z.leb_le in H
         | H : (_ <=? _) = false |- _ => apply Z.leb_gt in H
         | H : (_ =? _) = true |- _ => apply Z.eqb_eq in H
         | H : (_ =? _) = false |- _ => apply Z.eqb_neq in H
         end.

Lemma update_position_deferred_ok id p w :
  outage w = None ->
  exists w', update_position_deferred id p w = (Ok tt, w') /\
             evolves w w' (map (set_position id p) (sequence_poses (db w)))
                     [WUpdatePosition id p].
Proof.
  intros Hout. unfold update_position_deferred. cbv zeta.
  change (reachable (record (WUpdatePosition id p) w)) with (reachable w).
  change (db (record (WUpdatePosition id p) w)) with (db w).
  unfold reachable. rewrite Hout. cbn [negb]. eexists. split; [reflexivity|].
  unfold evolves, set_rows, served, record; cbn. rewrite Hout. tauto.
Qed.

Lemma deferred_loop delta fetched : forall w,
  outage w = None ->
  exists w',
    for_each fetched
      (fun pose => update_position_deferred (sp_id pose) (sp_position pose + delta)) w
    = (Ok tt, w') /\
    evolves w w' (shifted delta fetched (sequence_poses (db w)))
            (shift_writes delta fetched).
Proof.
  induction fetched as [|x rest IH]; intros w Hout.
  - exists w. split; [reflexivity | apply evolves_refl].
  - destruct (update_position_deferred_ok (sp_id x) (sp_position x + delta) w Hout)
      as (w1 & E1 & Ev1).
    assert (Hout1 : outage w1 = None) by (destruct Ev1 as (_ & _ & _ & _ & _ & H); auto).
    destruct (IH w1 Hout1) as (w' & E & Ev).
    exists w'. cbn [for_each]. rewrite (bind_ok _ _ _ _ _ E1). split; [exact E|].
    replace (sequence_poses (db w1)) with
      (map (set_position (sp_id x) (sp_position x + delta)) (sequence_poses (db w))) in Ev
      by (destruct Ev1 as (_ & _ & _ & H & _); now rewrite H).
    exact (evolves_trans _ _ _ _ _ _ _ Ev1 Ev).
Qed.

Lemma dense_after_move sid d d' e np :
  dense sid d -> NoDup (map sp_id (sequence_poses d)) -> In e (entries sid d) ->
  np <> sp_position e -> 1 <= np <= count sid d ->
  sequence_poses d'
  = map (set_position (sp_id e) np)
        (moved (shift_of (sp_position e) np) (between sid (sp_position e) np)
               (sequence_poses d)) ->
  dense sid d' /\ count sid d' = count sid d.
Proof.
  intros Hd Hpk He Hne Hnp Hrows.
  set (old := sp_position e) in *.
  set (h := fun r => sp_position
                       (set_position (sp_id e) np
                          (if between sid old np r
                           then set_position (sp_id r)
                                             (sp_position r + shift_of old np) r
                           else r))).
  assert (Hent : map sp_position (entries sid d') = map h (entries sid d)).
  { unfold entries. rewrite Hrows, filter_map_swap, map_map.
    rewrite (filter_ext (fun a => in_sequence sid (set_position (sp_id e) np a))
                        (in_sequence sid))
      by (intros a; unfold in_sequence; now rewrite set_position_sequence).
    rewrite entries_moved. unfold moved. rewrite map_map. reflexivity. }
  assert (Hc : count sid d' = count sid d).
  { unfold count. f_equal.
    rewrite <- (length_map sp_position (entries sid d')), Hent. now rewrite length_map. }
  split; [|exact Hc].
  pose proof (dense_bounds _ _ _ Hd He) as Hbe. fold (count sid d) in Hbe. fold old in Hbe.
  assert (Hh : forall r, In r (entries sid d) ->
             (r = e /\ h r = np) \/
             (sp_position r <> old /\
              h r = if old <? np
                    then if (old <? sp_position r) && (sp_position r <=? np)
                         then sp_position r - 1 else sp_position r
                    else if (np <=? sp_position r) && (sp_position r <? old)
                         then sp_position r + 1 else sp_position r)).
  { intros r Hr. destruct (String.string_dec (sp_id r) (sp_id e)) as [E|E].
    - left. split.
      + apply (pk_injective (sequence_poses d) r e Hpk);
          [apply entries_In in Hr; tauto | apply entries_In in He; tauto | exact E].
      + unfold h. apply set_position_self.
        destruct (between sid old np r); [rewrite set_position_id|]; exact E.
    - right. split.
      + intros P. apply E. f_equal. now apply (dense_unique sid d).
      + unfold h. unfold between, shift_of.
        assert (S : in_sequence sid r = true) by (apply filter_In in Hr; tauto).
        rewrite S. cbn [andb].
        destruct (old <? np);
          match goal with
          | |- context [if ?c then _ else _] => destruct c
          end;
          rewrite set_position_other; try reflexivity;
          try (rewrite set_position_id; exact E); try exact E;
          now rewrite (set_position_self _ _ _ eq_refl). }
  apply dense_intro; rewrite Hent.
  - apply (NoDup_map_on sp_position); [now apply dense_positions_NoDup|].
    intros a b Ha Hb Eab.
    pose proof (dense_bounds _ _ _ Hd Ha) as Ba. pose proof (dense_bounds _ _ _ Hd Hb) as Bb.
    fold (count sid d) in Ba, Bb.
    destruct (Hh a Ha) as [[-> Ea]|[Na Ea]], (Hh b Hb) as [[-> Eb]|[Nb Eb]];
      try rewrite Ea in Eab; try rewrite Eb in Eab; [reflexivity | | |]; fold old;
      destruct (old <? np) eqn:L;
      repeat match goal with
             | H : context [if ?c then _ else _] |- _ => 
                 let C := fresh "C" in destruct c eqn:C;
                 try apply andb_prop in C; try apply andb_false_iff in C
             end;
      repeat match goal with H : _ /\ _ |- _ => destruct H | H : _ \/ _ |- _ => destruct H end;
      zbool; lia.
  - intros z Hz. rewrite Hc. apply in_map_iff in Hz. destruct Hz as [r [<- Hr]].
    pose proof (dense_bounds _ _ _ Hd Hr) as Br. fold (count sid d) in Br.
    destruct (Hh r Hr) as [[-> Er]|[Nr Er]]; rewrite Er; [lia|].
    destruct (old <? np) eqn:L;
      match goal with
      | |- context [if ?c then _ else _] =>
          let C := fresh "C" in destruct c eqn:C;
          try apply andb_prop in C; try apply andb_false_iff in C
      end;
      repeat match goal with H : _ /\ _ |- _ => destruct H | H : _ \/ _ |- _ => destruct H end;
      zbool; lia.
Qed.

Lemma move_intended (w : World) (sid : Id) (e : SequencePose) (np : Z) :
  NoDup (map sp_id (sequence_poses (db w))) -> dense sid (db w) ->
  outage w = None -> In e (entries sid (db w)) ->
  np <> sp_position e -> 1 <= np <= count sid (db w) ->
  let old := sp_position e in
  let fetched := order (old <? np)
                       (filter (between sid old np) (sequence_poses (db w))) in
  exists w',
    reorder_with update_position_deferred sid (sp_id e) old np w = (Ok tt, w') /\
    sequence_poses (db w')
    = map (set_position (sp_id e) np)
          (moved (shift_of old np) (between sid old np) (sequence_poses (db w))) /\
    issued w' = issued w ++ shift_writes (shift_of old np) fetched
                         ++ [WUpdatePosition (sp_id e) np] /\
    StronglySorted (strictly (old <? np)) fetched /\
    dense sid (db w') /\ count sid (db w') = count sid (db w).
Proof.
  intros Hpk Hd Hout He Hne Hnp old fetched.
  assert (Hloop : exists w1,
            for_each fetched
              (fun pose => update_position_deferred (sp_id pose)
                             (sp_position pose + shift_of old np)) w = (Ok tt, w1) /\
            evolves w w1 (moved (shift_of old np) (between sid old np)
                                (sequence_poses (db w)))
                    (shift_writes (shift_of old np) fetched)).
  { destruct (deferred_loop (shift_of old np) fetched w Hout) as (w1 & E & Ev).
    exists w1. split; [exact E|]. unfold fetched in Ev.
    now rewrite fetched_closed in Ev. }
  destruct Hloop as (w1 & Eloop & Ev1).
  assert (Hout1 : outage w1 = None) by (destruct Ev1 as (_ & _ & _ & _ & _ & H); auto).
  destruct (update_position_deferred_ok (sp_id e) np w1 Hout1) as (w' & Eset & Ev2).
  replace (sequence_poses (db w1)) with
    (moved (shift_of old np) (between sid old np) (sequence_poses (db w))) in Ev2
    by (destruct Ev1 as (_ & _ & _ & H & _); now rewrite H).
  pose proof (evolves_trans _ _ _ _ _ _ _ Ev1 Ev2) as Ev.
  assert (Hrows : sequence_poses (db w')
                  = map (set_position (sp_id e) np)
                        (moved (shift_of old np) (between sid old np)
                               (sequence_poses (db w))))
    by (destruct Ev as (_ & _ & _ & H & _); exact H).
  exists w'. split; [|split; [exact Hrows|split; [|split]]].
  - clear Ev Ev1 Ev2 Hrows. unfold reorder_with.
    unfold fetched, shift_of, between in Eloop.
    destruct (old <? np) eqn:L; cbv beta iota.
    + replace (np <? old) with false by (symmetry; apply Z.ltb_ge; zbool; lia).
      rewrite (filter_ext _ (fun r => in_sequence sid r && (old <? sp_position r)
                                      && (sp_position r <=? np))) in Eloop
        by (intros r; now rewrite andb_assoc).
      assert (P1 : bind (query (fun d =>
                     Ok (order true
                           (filter (fun r => in_sequence sid r
                                             && (old <? sp_position r)
                                             && (sp_position r <=? np))
                                   (sequence_poses d)))))
                     (fun posesToShift =>
                        for_each posesToShift
                          (fun pose => update_position_deferred (sp_id pose)
                                         (sp_position pose - 1))) w
                   = (Ok tt, w1)) by exact Eloop.
      rewrite (bind_ok _ _ _ _ _ P1).
      rewrite (bind_ok _ _ _ _ _ (eq_refl : ret tt w1 = (Ok tt, w1))).
      exact Eset.
    + replace (np <? old) with true by (symmetry; apply Z.ltb_lt; zbool; lia).
      rewrite (filter_ext _ (fun r => in_sequence sid r && (np <=? sp_position r)
                                      && (sp_position r <? old))) in Eloop
        by (intros r; now rewrite andb_assoc).
      assert (P1 : bind (query (fun d =>
                     Ok (order false
                           (filter (fun r => in_sequence sid r
                                             && (np <=? sp_position r)
                                             && (sp_position r <? old))
                                   (sequence_poses d)))))
                     (fun posesToShift =>
                        for_each posesToShift
                          (fun pose => update_position_deferred (sp_id pose)
                                         (sp_position pose + 1))) w
                   = (Ok tt, w1)) by exact Eloop.
      rewrite (bind_ok _ _ _ _ _ (eq_refl : ret tt w = (Ok tt, w))).
      rewrite (bind_ok _ _ _ _ _ P1).
      exact Eset.
  - destruct Ev as (_ & _ & _ & _ & H & _). exact H.
  - apply fetched_strictly with (sid := sid).
    + intros r H. apply andb_prop in H. tauto.
    + now apply dense_positions_NoDup.
  - now apply (dense_after_move sid (db w) (db w') e np).
Qed.

Example move_later_intended :
  map (fun r => (sp_id r, sp_position r))
      (sequence_poses (db (snd (reorder_with update_position_deferred "s1" "A" 1 3 abcd))))
  = [("A", 3); ("B", 1); ("C", 2); ("D", 4)].
Proof. reflexivity. Qed.

Example move_earlier_intended :
  map (fun r => (sp_id r, sp_position r))
      (sequence_poses (db (snd (reorder_with update_position_deferred "s1" "D" 4 2 abcd))))
  = [("A", 1); ("B", 3); ("C", 4); ("D", 2)].
Proof. reflexivity. Qed.

(** C3 (code at the failing inputs): on A@1, B@2, C@3, D@4 moving A to
    position 3 issues the update of B to position 1, which A still holds, and
    moving D to position 2 issues the update of C to position 4, which D still
    holds; the store answers 23505 (unique violation) both times, the service
    rethrows it, and no position has changed. *)
Theorem move_between_positions_rejected :
  updateSequencePose "alice" "s1" "A" (move_to 3) abcd
  = (Throw (StoreError "23505"),
     mkWorld (db abcd) [WUpdatePosition "B" 1] None) /\
  updateSequencePose "alice" "s1" "D" (move_to 2) abcd
  = (Throw (StoreError "23505"),
     mkWorld (db abcd) [WUpdatePosition "C" 4] None).
Proof. split; reflexivity. Qed.

(** ** C4: what a remove does *)

(** C4: on a consistent store and a dense sequence owned by the caller, with
    the store reachable, [removeSequencePose] of an entry of the sequence
    succeeds; it issues the delete first and then one update per entry at a
    position above the deleted one, in strictly ascending order of position,
    each moving its entry down by one; the entries below the deleted position
    are untouched, and the sequence is dense again with one entry less. *)
Theorem remove_postcondition (w : World) (uid sid : Id) (e : SequencePose)
        (s : Sequence) :
  consistent (db w) -> dense sid (db w) -> outage w = None ->
  verifySequenceOwnership sid uid w = (Ok s, w) ->
  In e (entries sid (db w)) ->
  let rest := filter (fun r => negb (sp_id r == sp_id e)) (sequence_poses (db w)) in
  let fetched := order true (filter (after_position sid (sp_position e)) rest) in
  exists w',
    removeSequencePose uid sid (sp_id e) w = (Ok tt, w') /\
    sequence_poses (db w') = moved (-1) (after_position sid (sp_position e)) rest /\
    issued w' = issued w ++ WDelete (sp_id e) :: shift_writes (-1) fetched /\
    StronglySorted (strictly true) fetched /\
    (forall r, In r fetched <->
               In r (entries sid (db w)) /\ sp_position e < sp_position r) /\
    (forall r, In r (entries sid (db w)) -> sp_position r < sp_position e ->
               In r (entries sid (db w'))) /\
    ~ In (sp_id e) (map sp_id (sequence_poses (db w'))) /\
    dense sid (db w') /\ count sid (db w') = count sid (db w) - 1.
Proof.
  intros Hc Hd Hout Ever He rest fetched.
  pose proof (pk_sequence_poses Hc) as Hpk.
  destruct (remove_phases sid e w Hpk Hd He) as [Hrun Hgo].
  destruct (Hgo Hout) as [w' E]. specialize (Hrun w' E).
  fold rest in Hrun. fold fetched in Hrun.
  assert (Erun : removeSequencePose uid sid (sp_id e) w = (Ok tt, w')).
  { rewrite removeSequencePose_unfold, Ever. cbn [fst].
    now rewrite (entry_lookup sid (db w) e Hpk He). }
  destruct Hrun as (_ & _ & _ & Hrows & Hiss & _).
  assert (Hother : forall r, In r (entries sid (db w)) ->
                             sp_position r <> sp_position e ->
                             In r rest /\ in_sequence sid r = true).
  { intros r Hr Hne. apply filter_In in Hr. destruct Hr as [Hr S].
    split; [|exact S]. apply filter_In. split; [exact Hr|].
    apply negb_true_iff, same_false. intros Eid. apply Hne. f_equal.
    apply (pk_injective (sequence_poses (db w))); auto.
    apply filter_In in He. tauto. }
  exists w'.
  split; [exact Erun|]. split; [exact Hrows|]. split; [exact Hiss|].
  split; [|split; [|split; [|split]]].
  - apply sorted_strictly; [apply order_sorted|].
    eapply Permutation_NoDup;
      [apply Permutation_map, Permutation_sym, order_perm|].
    unfold rest. rewrite filter_swap. apply NoDup_map_filter.
    apply (positions_filter _ sid).
    + intros r H. apply andb_prop in H. tauto.
    + now apply dense_positions_NoDup.
  - intros r. split.
    + intros H. apply order_In, filter_In in H. destruct H as [H S].
      apply filter_In in H. apply andb_prop in S. destruct S as [S L].
      apply Z.ltb_lt in L. split; [apply filter_In; tauto | exact L].
    + intros [H L]. apply order_In, filter_In.
      destruct (Hother r H) as [Hr S]; [lia|]. split; [exact Hr|].
      unfold after_position. rewrite S. now apply Z.ltb_lt.
  - intros r Hr L. destruct (Hother r Hr) as [Hrest S]; [lia|].
    apply filter_In. split; [|exact S]. rewrite Hrows. unfold moved.
    apply in_map_iff. exists r. split; [|exact Hrest].
    unfold after_position. rewrite S. cbn [andb].
    replace (sp_position e <? sp_position r) with false
      by (symmetry; apply Z.ltb_ge; lia).
    reflexivity.
  - rewrite Hrows, moved_ids. intros Hin. apply in_map_iff in Hin.
    destruct Hin as [r [Er Hr]]. apply filter_In in Hr. destruct Hr as [_ N].
    apply negb_true_iff, same_false in N. auto.
  - now apply (dense_after_remove sid (db w) (db w') e).
Qed.

Lemma remove_postcondition_witness :
  exists w',
    removeSequencePose "alice" "s1" "B" abcd = (Ok tt, w') /\
    map (fun r => (sp_id r, sp_position r)) (sequence_poses (db w'))
    = [("A", 1); ("C", 2); ("D", 3)] /\
    issued w' = [WDelete "B"; WUpdatePosition "C" 2; WUpdatePosition "D" 3].
Proof.
  destruct (remove_postcondition abcd "alice" "s1" (entry "B" 2)
              (mkSequence "s1" "alice"))
    as (w' & E & Hrows & Hiss & _).
  - apply consistentb_sound; reflexivity.
  - apply denseb_sound; reflexivity.
  - reflexivity.
  - reflexivity.
  - simpl. auto.
  - exists w'. split; [exact E|]. rewrite Hrows, Hiss. split; reflexivity.
Defined.

(** ** C5: out-of-range positions *)

Lemma fetchSequencePoseDto_errors id w e w' :
  fetchSequencePoseDto id w = (Throw e, w') ->
  e = StoreError "PGRST116" \/ e = AppError "SEQUENCE_POSE_NOT_FOUND".
Proof.
  unfold fetchSequencePoseDto, bind, query.
  destruct (filter _ _) as [|r [|r2 t]]; cbn [single];
    try solve [intros E; inversion E; auto].
  destruct (find _ _); intros E; inversion E; auto.
Qed.

(** C5, as stated, fails for [addPoseToSequence]: position 0 is outside
    1..N+1 and the run does not fail; it shifts all four entries and inserts. *)
Lemma insert_at_zero_accepted :
  dense "s1" (db abcd) /\ ~ (1 <= 0 <= count "s1" (db abcd) + 1) /\
  exists dto w',
    addPoseToSequence "E" "alice" "s1" (add_at (Some 0)) abcd = (Ok dto, w') /\
    dto_position dto = 0 /\
    issued w' = [WUpdatePosition "D" 5; WUpdatePosition "C" 4; WUpdatePosition "B" 3;
                 WUpdatePosition "A" 2;
                 WInsert (mkSequencePose "E" "s1" "p1" "v1" 0)].
Proof.
  split; [apply denseb_sound; reflexivity|]. split; [lia|].
  do 2 eexists. split; [reflexivity|]. split; reflexivity.
Qed.

(** C5 (amended): on a consistent store and a dense sequence of N entries
    owned by the caller: [addPoseToSequence], the pose version resolved, with a
    supplied position p throws INVALID_POSITION if and only if p > N+1 (a
    position below 1 is not rejected); [updateSequencePose] of an entry of the
    sequence, without duration and instructions, to a position p throws
    INVALID_POSITION if and only if p differs from the entry's position and
    lies outside 1..N.  A run that throws INVALID_POSITION leaves the world as
    it was: no statement issued, no row changed. *)
Theorem invalid_position_iff (w : World) (uid sid : Id) (s : Sequence) :
  consistent (db w) -> dense sid (db w) ->
  verifySequenceOwnership sid uid w = (Ok s, w) ->
  (forall newId cmd V p,
      resolvePoseVersion (add_poseId cmd) (add_poseVersion cmd) w = (Ok V, w) ->
      add_position cmd = Some p ->
      (fst (addPoseToSequence newId uid sid cmd w)
       = Throw (AppError "INVALID_POSITION") <-> count sid (db w) + 1 < p) /\
      (fst (addPoseToSequence newId uid sid cmd w)
       = Throw (AppError "INVALID_POSITION") ->
       snd (addPoseToSequence newId uid sid cmd w) = w)) /\
  (forall e cmd p,
      In e (entries sid (db w)) ->
      upd_position cmd = Some p -> upd_duration cmd = None ->
      upd_instructions cmd = None ->
      (fst (updateSequencePose uid sid (sp_id e) cmd w)
       = Throw (AppError "INVALID_POSITION") <->
       p <> sp_position e /\ (p < 1 \/ count sid (db w) < p)) /\
      (fst (updateSequencePose uid sid (sp_id e) cmd w)
       = Throw (AppError "INVALID_POSITION") ->
       snd (updateSequencePose uid sid (sp_id e) cmd w) = w)).
Proof.
  intros Hc Hd Ever. pose proof (pk_sequence_poses Hc) as Hpk. split.
  - intros newId cmd V p Eres Hp.
    assert (Hff : forall r w', addPoseToSequence newId uid sid cmd w = (r, w') ->
                   r = Throw (AppError "INVALID_POSITION") -> w' = w).
    { intros r w' E ->. eapply addPoseToSequence_fail_fast; eauto. }
    split.
    + assert (Hip : insert_position sid (db w) cmd = p)
        by (unfold insert_position; now rewrite Hp).
      rewrite (addPoseToSequence_unfold _ _ _ _ _ Hd), Ever, Eres. cbn [fst].
      cbv zeta.
      destruct (count sid (db w) + 1 <? insert_position sid (db w) cmd) eqn:G.
      * apply Z.ltb_lt in G. cbn [fst]. split; [lia | reflexivity].
      * apply Z.ltb_ge in G. split; [|lia]. intros F. exfalso.
        match type of F with
        | fst ?run = _ => destruct run as [r w'] eqn:E
        end.
        cbn [fst] in F. subst r.
        destruct (insert_tail_errors newId sid cmd V w _ w' Hpk Hd G E) as [c Hcode].
        discriminate.
    + destruct (addPoseToSequence newId uid sid cmd w) as [r w'] eqn:E.
      cbn [fst snd]. eauto.
  - intros e cmd p He Hp Hdur Hins. split.
    + rewrite (updateSequencePose_unfold _ _ _ _ _ Hd), Ever. cbn [fst].
      rewrite (entry_lookup sid (db w) e Hpk He), Hdur, Hins, Hp.
      cbn [is_defined orb].
      assert (Hfetch : fst (fetchSequencePoseDto (sp_id e) w)
                       <> Throw (AppError "INVALID_POSITION")).
      { destruct (fetchSequencePoseDto (sp_id e) w) as [[dto|err] w'] eqn:F;
          cbn [fst]; [discriminate|].
        apply fetchSequencePoseDto_errors in F. destruct F as [-> | ->]; discriminate. }
      destruct (p =? sp_position e) eqn:Q.
      * apply Z.eqb_eq in Q. split; [intros F; now apply Hfetch in F | tauto].
      * apply Z.eqb_neq in Q.
        destruct ((p <? 1) || (count sid (db w) + 1 <=? p)) eqn:G.
        -- cbn [fst]. apply orb_prop in G. split; [|reflexivity]. intros _.
           split; [exact Q|].
           destruct G as [G|G]; [apply Z.ltb_lt in G | apply Z.leb_le in G]; lia.
        -- apply orb_false_elim in G. destruct G as [G1 G2].
           apply Z.ltb_ge in G1. apply Z.leb_gt in G2.
           destruct (reorder_blocked sid e p w Hpk Hd He Q) as (n & c & w2 & B & _);
             [lia|].
           rewrite (bind_throw _ _ _ _ _ B). cbn [fst].
           split; [discriminate | lia].
    + destruct (updateSequencePose uid sid (sp_id e) cmd w) as [r w'] eqn:E.
      cbn [fst snd]. intros ->.
      eapply updateSequencePose_fail_fast; eauto.
Qed.

Lemma invalid_position_iff_witness :
  addPoseToSequence "E" "alice" "s1" (add_at (Some 6)) abcd
  = (Throw (AppError "INVALID_POSITION"), abcd) /\
  updateSequencePose "alice" "s1" "D" (move_to 5) abcd
  = (Throw (AppError "INVALID_POSITION"), abcd) /\
  updateSequencePose "alice" "s1" "D" (move_to 0) abcd
  = (Throw (AppError "INVALID_POSITION"), abcd).
Proof.
  assert (Hc : consistent (db abcd)) by (apply consistentb_sound; reflexivity).
  assert (Hd : dense "s1" (db abcd)) by (apply denseb_sound; reflexivity).
  destruct (invalid_position_iff abcd "alice" "s1" (mkSequence "s1" "alice")
              Hc Hd eq_refl) as [Hins Hmove].
  destruct (Hins "E" (add_at (Some 6)) "v1" 6 eq_refl eq_refl) as [[_ I1] I2].
  assert (D : In (entry "D" 4) (entries "s1" (db abcd))) by (simpl; auto).
  destruct (Hmove (entry "D" 4) (move_to 5) 5 D eq_refl eq_refl eq_refl)
    as [[_ M1] M2].
  destruct (Hmove (entry "D" 4) (move_to 0) 0 D eq_refl eq_refl eq_refl)
    as [[_ N1] N2].
  split; [|split].
  - apply injective_projections; [apply I1 | apply I2, I1]; vm_compute; reflexivity.
  - apply injective_projections; [apply M1 | apply M2, M1];
      (split; [discriminate | right; vm_compute; reflexivity]).
  - apply injective_projections; [apply N1 | apply N2, N1];
      (split; [discriminate | left; vm_compute; reflexivity]).
Defined.

(** ** C6: ownership *)

Lemma verifySequenceOwnership_denied sid uid w :
  (forall s, In s (sequences (db w)) -> seq_id s = sid -> seq_user_id s <> uid) ->
  verifySequenceOwnership sid uid w = (Throw (AppError "SEQUENCE_NOT_FOUND"), w).
Proof.
  intros H. unfold verifySequenceOwnership, bind, query.
  rewrite filter_none; [reflexivity|].
  intros s Hs. destruct (seq_id s == sid) eqn:E1; [|reflexivity].
  apply same_true in E1. apply same_false. auto.
Qed.

(** C6: when the store has no sequence with the given id that belongs to the
    given user -- because no sequence has that id, or because the one that has
    it belongs to someone else -- each of the three operations throws
    SEQUENCE_NOT_FOUND and leaves the world (tables and issued statements) as
    it was: the two cases get the same answer. *)
Theorem ownership_anti_enumeration (w : World) (uid sid : Id) :
  (forall s, In s (sequences (db w)) -> seq_id s = sid -> seq_user_id s <> uid) ->
  (forall newId cmd,
      addPoseToSequence newId uid sid cmd w
      = (Throw (AppError "SEQUENCE_NOT_FOUND"), w)) /\
  (forall id cmd,
      updateSequencePose uid sid id cmd w
      = (Throw (AppError "SEQUENCE_NOT_FOUND"), w)) /\
  (forall id,
      removeSequencePose uid sid id w
      = (Throw (AppError "SEQUENCE_NOT_FOUND"), w)).
Proof.
  intros H. pose proof (verifySequenceOwnership_denied sid uid w H) as E.
  split; [|split]; intros.
  - unfold addPoseToSequence. now rewrite (bind_throw _ _ _ _ _ E).
  - unfold updateSequencePose. now rewrite (bind_throw _ _ _ _ _ E).
  - unfold removeSequencePose. now rewrite (bind_throw _ _ _ _ _ E).
Qed.

Lemma ownership_anti_enumeration_witness :
  removeSequencePose "bob" "s1" "B" abcd
  = (Throw (AppError "SEQUENCE_NOT_FOUND"), abcd) /\
  removeSequencePose "bob" "s9" "B" abcd
  = (Throw (AppError "SEQUENCE_NOT_FOUND"), abcd).
Proof.
  split.
  - apply (ownership_anti_enumeration abcd "bob" "s1").
    simpl. intros s [<-|[<-|[]]]; simpl; intros; discriminate.
  - apply (ownership_anti_enumeration abcd "bob" "s9").
    simpl. intros s [<-|[<-|[]]]; simpl; intros; discriminate.
Defined.

(** ** C7: fail-fast and atomicity *)

(** C7 (code at the failing inputs): the store serves one more statement and
    then drops out.  Inserting at position 1 into A@1, B@2 moves B to 3, fails
    on the update of A, and leaves A@1, B@3; removing A from A@1, B@2, C@3
    deletes A, fails on the first update, and leaves B@2, C@3.  In both runs
    the rows afterwards differ from the rows before and are not dense. *)
Theorem partial_shift_persists :
  (let w := failing_after 1 [entry "A" 1; entry "B" 2] in
   exists w',
     addPoseToSequence "E" "alice" "s1" (add_at (Some 1)) w
     = (Throw (StoreError "UNAVAILABLE"), w') /\
     sequence_poses (db w') = [entry "A" 1; entry "B" 3] /\
     sequence_poses (db w') <> sequence_poses (db w) /\
     ~ dense "s1" (db w')) /\
  (let w := failing_after 1 [entry "A" 1; entry "B" 2; entry "C" 3] in
   exists w',
     removeSequencePose "alice" "s1" "A" w
     = (Throw (StoreError "UNAVAILABLE"), w') /\
     sequence_poses (db w') = [entry "B" 2; entry "C" 3] /\
     sequence_poses (db w') <> sequence_poses (db w) /\
     ~ dense "s1" (db w')).
Proof.
  split; cbv zeta.
  - exists (snd (addPoseToSequence "E" "alice" "s1" (add_at (Some 1))
                   (failing_after 1 [entry "A" 1; entry "B" 2]))).
    split; [vm_compute; reflexivity|]. split; [vm_compute; reflexivity|]. split.
    + vm_compute. discriminate.
    + intros H. apply dense_iff in H. destruct H as [_ H].
      specialize (H 3). vm_compute in H. destruct H as [_ H]; auto.
  - exists (snd (removeSequencePose "alice" "s1" "A"
                   (failing_after 1 [entry "A" 1; entry "B" 2; entry "C" 3]))).
    split; [vm_compute; reflexivity|]. split; [vm_compute; reflexivity|]. split.
    + vm_compute. discriminate.
    + intros H. apply dense_iff in H. destruct H as [_ H].
      specialize (H 3). vm_compute in H. destruct H as [_ H]; auto.
Qed.

(** ** C8: unsupported fields *)

Lemma updateSequencePose_unsupported uid sid id cmd w :
  is_defined (upd_duration cmd) || is_defined (upd_instructions cmd) = true ->
  exists e, updateSequencePose uid sid id cmd w = (Throw e, w) /\
    (forall s existing,
        verifySequenceOwnership sid uid w = (Ok s, w) ->
        maybeSingle (filter (fun r => (sp_id r == id) && in_sequence sid r)
                            (sequence_poses (db w))) = Ok (Some existing) ->
        e = AppError "DURATION_AND_INSTRUCTIONS_NOT_SUPPORTED").
Proof.
  intros Hflag. unfold updateSequencePose.
  pose proof (verifySequenceOwnership_reads sid uid w) as R1.
  destruct (verifySequenceOwnership sid uid w) as [[s|e] w1] eqn:E1;
    cbn [fst snd] in *; subst w1.
  - rewrite (bind_ok _ _ _ _ _ E1). unfold bind at 1, query.
    destruct (maybeSingle _) as [[x|]|e] eqn:L.
    + rewrite Hflag. eexists. split; [reflexivity|]. reflexivity.
    + eexists. split; [reflexivity|]. intros; discriminate.
    + eexists. split; [reflexivity|]. intros; discriminate.
  - rewrite (bind_throw _ _ _ _ _ E1). eexists. split; [reflexivity|].
    intros; discriminate.
Qed.

(** C8: a run of [updateSequencePose] whose command defines duration or
    instructions -- whatever position comes with it -- never succeeds and
    leaves the world as it was (no statement issued, no row changed); once the
    caller owns the sequence and the entry is found, the error is
    DURATION_AND_INSTRUCTIONS_NOT_SUPPORTED, which PATCH answers with status
    400 and code FEATURE_NOT_SUPPORTED. *)
Theorem unsupported_fields_rejected (is_uuid : string -> bool) (w : World)
        (uid sid : Id) (e : SequencePose) (cmd : UpdateSequencePoseCommand)
        (s : Sequence) :
  is_defined (upd_duration cmd) || is_defined (upd_instructions cmd) = true ->
  (forall uid' sid' id', exists err,
      updateSequencePose uid' sid' id' cmd w = (Throw err, w)) /\
  (consistent (db w) ->
   verifySequenceOwnership sid uid w = (Ok s, w) ->
   In e (entries sid (db w)) ->
   updateSequencePose uid sid (sp_id e) cmd w
   = (Throw (AppError "DURATION_AND_INSTRUCTIONS_NOT_SUPPORTED"), w) /\
   forall req requestBody,
     supabase_available req = true -> auth_user req = Some uid ->
     uuidParamSchema is_uuid (params_sequenceId req) = Valid sid ->
     uuidParamSchema is_uuid (params_sequencePoseId req) = Valid (sp_id e) ->
     body req = Some requestBody ->
     updateSequencePoseSchema requestBody = Valid cmd ->
     PATCH is_uuid req w = (error_response 400 "FEATURE_NOT_SUPPORTED", w)).
Proof.
  intros Hflag. split.
  - intros uid' sid' id'.
    destruct (updateSequencePose_unsupported uid' sid' id' cmd w Hflag) as [err [E _]].
    eauto.
  - intros Hc Ever He.
    destruct (updateSequencePose_unsupported uid sid (sp_id e) cmd w Hflag)
      as [err [E Hcode]].
    rewrite (Hcode s e Ever) in E
      by (apply entry_lookup; [apply (pk_sequence_poses Hc) | exact He]).
    split; [exact E|].
    intros req requestBody Hsup Hauth Hsid Hid Hbody Hschema.
    unfold PATCH. rewrite Hsup, Hauth, Hsid, Hid, Hbody, Hschema, E. reflexivity.
Qed.

Lemma unsupported_fields_rejected_witness :
  PATCH uuid_any
        (alice_request "B" (JObject [("position", JNumber (JInt 3));
                                     ("duration", JNumber (JInt 30))]))
        abcd
  = (error_response 400 "FEATURE_NOT_SUPPORTED", abcd).
Proof.
  destruct (unsupported_fields_rejected uuid_any abcd "alice" "s1" (entry "B" 2)
              (mkUpdateSequencePoseCommand (Some 3) (Some 30) None)
              (mkSequence "s1" "alice") eq_refl) as [_ H].
  destruct H as [_ H].
  - apply consistentb_sound; reflexivity.
  - reflexivity.
  - simpl; auto.
  - apply (H _ (JObject [("position", JNumber (JInt 3));
                         ("duration", JNumber (JInt 30))])); reflexivity.
Defined.

(** ** C9: version pinning *)

Lemma keeps_ret {A} (P : World -> World -> Prop) (a : A) :
  (forall w, P w w) -> keeps P (ret a).
Proof. intros Hr w r w' E. inversion E; subst. apply Hr. Qed.

Lemma keeps_throw {A} (P : World -> World -> Prop) e :
  (forall w, P w w) -> keeps P (@throw A e).
Proof. intros Hr w r w' E. inversion E; subst. apply Hr. Qed.

Lemma keeps_reads {A} (P : World -> World -> Prop) (m : M A) :
  (forall w, P w w) -> (forall w, snd (m w) = w) -> keeps P m.
Proof. intros Hr Hm w r w' E. specialize (Hm w). rewrite E in Hm. subst. apply Hr. Qed.

Lemma keeps_bind {A B} (P Q R : World -> World -> Prop) (m : M A) (k : A -> M B) :
  (forall a b c, P a b -> Q b c -> R a c) -> (forall a b, P a b -> R a b) ->
  keeps P m -> (forall a, keeps Q (k a)) -> keeps R (bind m k).
Proof.
  intros Hcomp Hweak Hm Hk w r w' E. unfold bind in E.
  destruct (m w) as [[a|e] w1] eqn:Em.
  - eapply Hcomp; [eapply Hm; eauto | eapply Hk; eauto].
  - inversion E; subst. eapply Hweak, Hm; eauto.
Qed.

Lemma repositioned_refl w : repositioned w w.
Proof. reflexivity. Qed.

Lemma repositioned_trans a b c : repositioned a b -> repositioned b c -> repositioned a c.
Proof. unfold repositioned. congruence. Qed.

Lemma keeps_seq {A B} (m : M A) (k : A -> M B) :
  keeps repositioned m -> (forall a, keeps repositioned (k a)) ->
  keeps repositioned (bind m k).
Proof. apply keeps_bind; [apply repositioned_trans | auto]. Qed.

Lemma keeps_for_each {A} (body : A -> M unit) l :
  (forall x, keeps repositioned (body x)) -> keeps repositioned (for_each l body).
Proof.
  intros Hbody. induction l as [|x rest IH]; cbn [for_each].
  - apply keeps_ret, repositioned_refl.
  - apply keeps_seq; auto.
Qed.

Lemma keeps_query {A} (q : Store -> Result A) : keeps repositioned (query q).
Proof. apply keeps_reads; [apply repositioned_refl | reflexivity]. Qed.

Lemma unpositioned_set_position id p r :
  unpositioned (set_position id p r) = unpositioned r.
Proof. unfold set_position. now destruct (sp_id r == id). Qed.

Lemma update_position_keeps id p : keeps repositioned (update_position id p).
Proof.
  intros w r w'. unfold update_position. cbv zeta.
  destruct (negb _); [intros E; inversion E; reflexivity|].
  destruct (find _ _); [|intros E; inversion E; reflexivity].
  destruct (position_taken _ _ _ _); intros E; inversion E; [reflexivity|].
  unfold repositioned, rows_unpositioned. cbn. rewrite map_map.
  apply map_ext. intros x. apply unpositioned_set_position.
Qed.

Lemma getNextPosition_keeps sid : keeps repositioned (getNextPosition sid).
Proof.
  apply keeps_reads; [apply repositioned_refl|]. intros w.
  destruct (getNextPosition_total sid w) as [v E]. now rewrite E.
Qed.

Lemma shiftPositionsUp_keeps sid p : keeps repositioned (shiftPositionsUp sid p).
Proof.
  unfold shiftPositionsUp. apply keeps_seq; [apply keeps_query|].
  intros l. apply keeps_for_each. intros x. apply update_position_keeps.
Qed.

Lemma shiftPositionsDown_keeps sid p : keeps repositioned (shiftPositionsDown sid p).
Proof.
  unfold shiftPositionsDown. apply keeps_seq; [apply keeps_query|].
  intros l. apply keeps_for_each. intros x. apply update_position_keeps.
Qed.

Lemma reorder_keeps sid id old np : keeps repositioned (reorder sid id old np).
Proof.
  unfold reorder, reorder_with. apply keeps_seq; [|intros _; apply keeps_seq].
  - destruct (old <? np); [|apply keeps_ret, repositioned_refl].
    apply keeps_seq; [apply keeps_query|].
    intros l. apply keeps_for_each. intros x. apply update_position_keeps.
  - destruct (np <? old); [|apply keeps_ret, repositioned_refl].
    apply keeps_seq; [apply keeps_query|].
    intros l. apply keeps_for_each. intros x. apply update_position_keeps.
  - intros _. apply update_position_keeps.
Qed.

Lemma verifySequenceOwnership_keeps sid uid :
  keeps repositioned (verifySequenceOwnership sid uid).
Proof.
  apply keeps_reads; [apply repositioned_refl | apply verifySequenceOwnership_reads].
Qed.

Lemma fetchSequencePoseDto_keeps id : keeps repositioned (fetchSequencePoseDto id).
Proof.
  apply keeps_reads; [apply repositioned_refl | apply fetchSequencePoseDto_reads].
Qed.

(** [updateSequencePose] changes nothing but positions, whatever its outcome. *)
Lemma updateSequencePose_keeps uid sid id cmd :
  keeps repositioned (updateSequencePose uid sid id cmd).
Proof.
  unfold updateSequencePose.
  apply keeps_seq; [apply verifySequenceOwnership_keeps | intros _].
  apply keeps_seq; [apply keeps_query | intros [e|]];
    [|apply keeps_throw, repositioned_refl].
  destruct (_ || _); [apply keeps_throw, repositioned_refl|].
  apply keeps_seq; [|intros _; apply fetchSequencePoseDto_keeps].
  destruct (upd_position cmd) as [np|]; [|apply keeps_ret, repositioned_refl].
  destruct (np =? sp_position e); [apply keeps_ret, repositioned_refl|].
  apply keeps_seq; [apply getNextPosition_keeps | intros maxPosition].
  destruct (_ || _); [apply keeps_throw, repositioned_refl | apply reorder_keeps].
Qed.

Lemma map_filter_unpositioned (g : Id * Id * Id * Id -> bool) rows :
  map unpositioned (filter (fun r => g (unpositioned r)) rows)
  = filter g (map unpositioned rows).
Proof.
  induction rows as [|x rest IH]; simpl; [reflexivity|].
  destruct (g (unpositioned x)); simpl; now rewrite IH.
Qed.

Lemma delete_sequence_pose_keeps id : keeps trimmed (delete_sequence_pose id).
Proof.
  intros w r w'. unfold delete_sequence_pose. cbv zeta.
  destruct (negb _); intros E; inversion E.
  - exists (fun _ => true). unfold rows_unpositioned. cbn.
    clear. induction (map unpositioned (sequence_poses (db w))); simpl; congruence.
  - exists (fun k => negb (key_id k == id)). unfold rows_unpositioned. cbn.
    now rewrite <- map_filter_unpositioned.
Qed.

Lemma repositioned_trimmed a b c : repositioned a b -> trimmed b c -> trimmed a c.
Proof. unfold repositioned. intros E [g H]. exists g. now rewrite <- E. Qed.

Lemma trimmed_repositioned a b c : trimmed a b -> repositioned b c -> trimmed a c.
Proof. unfold repositioned. intros [g H] E. exists g. now rewrite E. Qed.

Lemma trimmed_refl w : trimmed w w.
Proof.
  exists (fun _ => true). induction (rows_unpositioned w); simpl; congruence.
Qed.

Lemma repositioned_is_trimmed a b : repositioned a b -> trimmed a b.
Proof. intros H. eapply repositioned_trimmed; [exact H | apply trimmed_refl]. Qed.

(** [removeSequencePose] deletes rows and changes positions, nothing else,
    whatever its outcome. *)
Lemma removeSequencePose_keeps uid sid id : keeps trimmed (removeSequencePose uid sid id).
Proof.
  unfold removeSequencePose.
  apply (keeps_bind repositioned trimmed trimmed);
    [apply repositioned_trimmed | apply repositioned_is_trimmed
     | apply verifySequenceOwnership_keeps | intros _].
  apply (keeps_bind repositioned trimmed trimmed);
    [apply repositioned_trimmed | apply repositioned_is_trimmed
     | apply keeps_query | intros [e|]];
    [|apply keeps_throw, trimmed_refl].
  apply (keeps_bind trimmed repositioned trimmed);
    [apply trimmed_repositioned | auto
     | apply delete_sequence_pose_keeps | intros _; apply shiftPositionsDown_keeps].
Qed.

Lemma insert_sequence_pose_keeps row :
  keeps (appended (sp_id row)) (insert_sequence_pose row).
Proof.
  intros w r w'. unfold insert_sequence_pose. cbv zeta.
  change (db (record (WInsert row) w)) with (db w).
  destruct (negb _); [intros E; inversion E; now left|].
  destruct (existsb (fun r0 => sp_id r0 == sp_id row) (sequence_poses (db w))) eqn:F;
    cbn [orb]; [intros E; inversion E; now left|].
  destruct (position_taken _ _ _ _); [intros E; inversion E; now left|].
  destruct (_ || _); intros E; inversion E; [now left|].
  right. exists (unpositioned row). unfold rows_unpositioned. cbn.
  rewrite map_app. split; [reflexivity|]. split; [reflexivity|].
  rewrite map_map. intros Hin. apply in_map_iff in Hin.
  destruct Hin as [x [Ex Hx]]. cbn in Ex.
  assert (T : existsb (fun r0 => sp_id r0 == sp_id row) (sequence_poses (db w)) = true)
    by (apply existsb_exists; exists x; split; [exact Hx | now apply same_true]).
  congruence.
Qed.

Lemma repositioned_appended n a b c :
  repositioned a b -> appended n b c -> appended n a c.
Proof. unfold repositioned, appended. intros E H. now rewrite <- E. Qed.

Lemma appended_repositioned n a b c :
  appended n a b -> repositioned b c -> appended n a c.
Proof. unfold repositioned, appended. intros H E. now rewrite E. Qed.

Lemma repositioned_is_appended n a b : repositioned a b -> appended n a b.
Proof. intros H. now left. Qed.

(** [addPoseToSequence] changes positions and adds at most the new row,
    whatever its outcome. *)
Lemma addPoseToSequence_keeps newId uid sid cmd :
  keeps (appended newId) (addPoseToSequence newId uid sid cmd).
Proof.
  unfold addPoseToSequence.
  assert (Hstep : forall {A B} (m : M A) (k : A -> M B),
             keeps repositioned m -> (forall a, keeps (appended newId) (k a)) ->
             keeps (appended newId) (bind m k)).
  { intros A B m k. apply keeps_bind;
      [apply repositioned_appended | apply repositioned_is_appended]. }
  apply Hstep; [apply verifySequenceOwnership_keeps | intros _].
  apply Hstep; [|intros V].
  { apply keeps_reads; [apply repositioned_refl | apply resolvePoseVersion_reads]. }
  apply Hstep; [|intros position].
  { destruct (add_position cmd); [apply keeps_ret, repositioned_refl
                                 | apply getNextPosition_keeps]. }
  apply Hstep; [apply getNextPosition_keeps | intros maxPosition].
  destruct (maxPosition <? position).
  { apply keeps_throw. intros w. now left. }
  apply Hstep; [|intros _].
  { destruct (add_position cmd) as [p|]; [|apply keeps_ret, repositioned_refl].
    destruct (p <? maxPosition); [apply shiftPositionsUp_keeps
                                 | apply keeps_ret, repositioned_refl]. }
  apply (keeps_bind (appended newId) repositioned (appended newId));
    [apply appended_repositioned | auto
     | apply (insert_sequence_pose_keeps
                (mkSequencePose newId sid (add_poseId cmd) V position))
     | intros id; apply fetchSequencePoseDto_keeps].
Qed.

(** The three relations keep an entry pinned to its version. *)
Lemma ids_unpositioned w :
  map key_id (rows_unpositioned w) = map sp_id (sequence_poses (db w)).
Proof. unfold rows_unpositioned. rewrite map_map. reflexivity. Qed.

Lemma unpositioned_In w r :
  In r (sequence_poses (db w)) -> In (unpositioned r) (rows_unpositioned w).
Proof. apply in_map. Qed.

Lemma unpositioned_In_inv w k :
  In k (rows_unpositioned w) ->
  exists r, In r (sequence_poses (db w)) /\ unpositioned r = k.
Proof.
  unfold rows_unpositioned. intros H. apply in_map_iff in H.
  destruct H as [r [E Hr]]. eauto.
Qed.

Lemma pinned_trimmed e V w w' : pinned_to e V w -> trimmed w w' -> pinned_to e V w'.
Proof.
  intros [Hpk Hv] [g H]. split.
  - rewrite <- ids_unpositioned, H. rewrite <- ids_unpositioned in Hpk.
    now apply NoDup_map_filter.
  - intros r' Hr' Hid. apply unpositioned_In in Hr'. rewrite H in Hr'.
    apply filter_In in Hr'. destruct Hr' as [Hr' _].
    apply unpositioned_In_inv in Hr'. destruct Hr' as [r [Hr E]].
    pose proof (f_equal snd E) as Ev. pose proof (f_equal key_id E) as Ei.
    cbn in Ev, Ei. rewrite <- Ev. apply Hv; [exact Hr | congruence].
Qed.

Lemma pinned_appended e V newId w w' :
  newId <> e -> pinned_to e V w -> appended newId w w' -> pinned_to e V w'.
Proof.
  intros Hne [Hpk Hv] [H|[k (H & Hk & Hfresh)]].
  - apply (pinned_trimmed e V w w'); [split; assumption|].
    apply repositioned_is_trimmed. exact H.
  - split.
    + rewrite <- ids_unpositioned, H, map_app. cbn [map].
      rewrite <- ids_unpositioned in Hpk. rewrite Hk. now apply NoDup_snoc.
    + intros r' Hr' Hid. apply unpositioned_In in Hr'. rewrite H in Hr'.
      apply in_app_or in Hr'. destruct Hr' as [Hr'|[Ek|[]]].
      * apply unpositioned_In_inv in Hr'. destruct Hr' as [r [Hr E]].
        pose proof (f_equal snd E) as Ev. pose proof (f_equal key_id E) as Ei.
        cbn in Ev, Ei. rewrite <- Ev. apply Hv; [exact Hr | congruence].
      * exfalso. apply Hne. rewrite <- Hk, <- Hid, Ek. reflexivity.
Qed.

Lemma pinned_history e V w w' : history e w w' -> pinned_to e V w -> pinned_to e V w'.
Proof.
  induction 1 as [w | ps vs w w' _ IH | newId uid sid cmd w r w1 w' Hne Hrun _ IH
                  | uid sid id cmd w r w1 w' Hrun _ IH
                  | uid sid id w r w1 w' Hrun _ IH]; intros Hp.
  - exact Hp.
  - apply IH. exact Hp.
  - apply IH. eapply pinned_appended; [exact Hne | exact Hp|].
    eapply addPoseToSequence_keeps; eauto.
  - apply IH. eapply pinned_trimmed; [exact Hp|].
    apply repositioned_is_trimmed. eapply updateSequencePose_keeps; eauto.
  - apply IH. eapply pinned_trimmed; [exact Hp|].
    eapply removeSequencePose_keeps; eauto.
Qed.

Lemma resolvePoseVersion_meaning pid ver w V :
  resolvePoseVersion pid ver w = (Ok V, w) ->
  match ver with
  | Some v => exists pv, In pv (pose_versions (db w)) /\ pv_id pv = V /\
                         pv_pose_id pv = pid /\ pv_version pv = v
  | None => exists p, In p (poses (db w)) /\ pose_id p = pid /\
                      current_version_id p = Some V
  end.
Proof.
  unfold resolvePoseVersion, bind, query. destruct ver as [v|].
  - destruct (maybeSingle _) as [[pv|]|e] eqn:F; intros E; inversion E; subst.
    apply maybeSingle_some in F.
    assert (Hin : In pv (filter (fun pv => (pv_pose_id pv == pid)
                                           && (pv_version pv =? v))
                                (pose_versions (db w))))
      by (rewrite F; simpl; auto).
    apply filter_In in Hin. destruct Hin as [Hin Hb].
    apply andb_prop in Hb. destruct Hb as [H1 H2].
    apply same_true in H1. apply Z.eqb_eq in H2. exists pv. auto.
  - destruct (maybeSingle _) as [[p|]|e] eqn:F; try solve [intros E; inversion E].
    destruct (current_version_id p) as [cv|] eqn:C; try solve [intros E; inversion E].
    destruct (cv == ""); intros E; inversion E; subst.
    apply maybeSingle_some in F.
    assert (Hin : In p (filter (fun p => pose_id p == pid) (poses (db w))))
      by (rewrite F; simpl; auto).
    apply filter_In in Hin. destruct Hin as [Hin H1]. apply same_true in H1.
    exists p. auto.
Qed.

(** What a successful run of [addPoseToSequence] stored, on any store. *)
Lemma addPoseToSequence_stored newId uid sid cmd w dto w1 :
  addPoseToSequence newId uid sid cmd w = (Ok dto, w1) ->
  exists V p wd,
    resolvePoseVersion (add_poseId cmd) (add_poseVersion cmd) w = (Ok V, w) /\
    repositioned w wd /\
    ~ In newId (map sp_id (sequence_poses (db wd))) /\
    sequence_poses (db w1)
    = sequence_poses (db wd) ++ [mkSequencePose newId sid (add_poseId cmd) V p].
Proof.
  intros E. unfold addPoseToSequence in E.
  apply bind_inv in E. destruct E as (s & wa & Ea & E).
  apply (reads_inv _ _ _ _ (verifySequenceOwnership_reads sid uid w)) in Ea as Ha.
  subst wa.
  apply bind_inv in E. destruct E as (V & wb & Eb & E).
  pose proof (reads_inv _ _ _ _ (resolvePoseVersion_reads _ _ w) Eb) as Hb. subst wb.
  apply bind_inv in E. destruct E as (p & wc & Ec & E).
  assert (Hc : wc = w).
  { destruct (add_position cmd); [now inversion Ec|].
    destruct (getNextPosition_total sid w) as [v Ev]. congruence. }
  subst wc.
  apply bind_inv in E. destruct E as (mx & wm & Em & E).
  assert (Hm : wm = w).
  { destruct (getNextPosition_total sid w) as [v Ev]. congruence. }
  subst wm.
  destruct (mx <? p); [discriminate|].
  apply bind_inv in E. destruct E as ([] & wd & Ed & E).
  apply bind_inv in E. destruct E as (id & we & Ee & E).
  assert (Hd : repositioned w wd).
  { revert Ed. destruct (add_position cmd) as [q|].
    - destruct (q <? mx); [apply shiftPositionsUp_keeps|].
      intros Ed. inversion Ed. reflexivity.
    - intros Ed. inversion Ed. reflexivity. }
  apply insert_sequence_pose_inv in Ee. destruct Ee as (-> & Hfresh & Ev).
  pose proof (reads_inv _ _ _ _ (fetchSequencePoseDto_reads _ we) E) as He. subst w1.
  exists V, p, wd. split; [exact Eb|]. split; [exact Hd|]. split; [exact Hfresh|].
  destruct Ev as (_ & _ & _ & H & _). exact H.
Qed.

(** C9: a successful [addPoseToSequence] stores, in the row it creates, the
    version it resolved -- the version of the pose with the requested number
    if one was requested, else the pose's [current_version_id] at that time --
    [updateSequencePose] changes no field of any row but the position and
    [removeSequencePose] only deletes rows and changes positions, whatever
    their outcome; and whatever happens afterwards (edits of [poses] and
    [pose_versions], further inserts, moves and removes, failed or not), a row
    with the entry's id still references that version. *)
Theorem version_pinning (w : World) (newId uid sid : Id)
        (cmd : AddPoseToSequenceCommand) (dto : SequencePoseDto) (w1 : World) :
  NoDup (map sp_id (sequence_poses (db w))) ->
  addPoseToSequence newId uid sid cmd w = (Ok dto, w1) ->
  exists V,
    resolvePoseVersion (add_poseId cmd) (add_poseVersion cmd) w = (Ok V, w) /\
    match add_poseVersion cmd with
    | Some v => exists pv, In pv (pose_versions (db w)) /\ pv_id pv = V /\
                           pv_pose_id pv = add_poseId cmd /\ pv_version pv = v
    | None => exists p, In p (poses (db w)) /\ pose_id p = add_poseId cmd /\
                        current_version_id p = Some V
    end /\
    (exists r, In r (sequence_poses (db w1)) /\ sp_id r = newId /\
               sp_sequence_id r = sid /\ sp_pose_id r = add_poseId cmd /\
               sp_pose_version_id r = V) /\
    (forall uid' sid' id cmd', keeps repositioned (updateSequencePose uid' sid' id cmd')) /\
    (forall uid' sid' id, keeps trimmed (removeSequencePose uid' sid' id)) /\
    forall w2, history newId w1 w2 ->
      forall r, In r (sequence_poses (db w2)) -> sp_id r = newId ->
                sp_pose_version_id r = V.
Proof.
  intros Hpk E.
  destruct (addPoseToSequence_stored _ _ _ _ _ _ _ E)
    as (V & p & wd & Eres & Hd & Hfresh & Hrows).
  exists V. split; [exact Eres|].
  split; [exact (resolvePoseVersion_meaning _ _ _ _ Eres)|].
  split.
  - exists (mkSequencePose newId sid (add_poseId cmd) V p). rewrite Hrows.
    split; [apply in_or_app; right; simpl; auto | cbn; auto].
  - split; [intros; apply updateSequencePose_keeps|].
    split; [intros; apply removeSequencePose_keeps|].
    assert (Hpin : pinned_to newId V w1).
    { assert (Hids : map sp_id (sequence_poses (db wd))
                     = map sp_id (sequence_poses (db w))).
      { rewrite <- !ids_unpositioned. now rewrite Hd. }
      split.
      - rewrite Hrows, map_app. cbn [map sp_id]. apply NoDup_snoc; [|exact Hfresh].
        now rewrite Hids.
      - intros r Hr Hid. rewrite Hrows in Hr. apply in_app_or in Hr.
        destruct Hr as [Hr|[<-|[]]]; [|reflexivity].
        exfalso. apply Hfresh. rewrite <- Hid. now apply in_map. }
    intros w2 Hh. exact (proj2 (pinned_history newId V w1 w2 Hh Hpin)).
Qed.

Lemma version_pinning_witness :
  let w1 := snd (addPoseToSequence "E" "alice" "s1" (add_at (Some 2)) abcd) in
  let w2 := with_catalog [mkPose "p1" "Tree pose" (Some "v2")]
                         [mkPoseVersion "v1" "p1" 1; mkPoseVersion "v2" "p1" 2] w1 in
  let w3 := snd (updateSequencePose "alice" "s1" "E" (move_to 4) w2) in
  let w4 := snd (removeSequencePose "alice" "s1" "A" w3) in
  In (mkSequencePose "E" "s1" "p1" "v1" 1) (sequence_poses (db w4)) /\
  forall r, In r (sequence_poses (db w4)) -> sp_id r = "E" ->
            sp_pose_version_id r = "v1".
Proof.
  intros w1 w2 w3 w4. split; [vm_compute; auto|].
  destruct (version_pinning abcd "E" "alice" "s1" (add_at (Some 2))
              (mkSequencePoseDto "E" "p1" "Tree" 2) w1)
    as (V & Eres & _ & _ & _ & _ & Hpin).
  - vm_compute. repeat constructor; simpl; intuition discriminate.
  - vm_compute. reflexivity.
  - assert (V = "v1") by (vm_compute in Eres; congruence). subst V.
    apply (Hpin w4).
    apply (@history_catalog "E" [mkPose "p1" "Tree pose" (Some "v2")]
             [mkPoseVersion "v1" "p1" 1; mkPoseVersion "v2" "p1" 2] w1 w4).
    apply (@history_move "E" "alice" "s1" "E" (move_to 4) w2 _ w3 w4
             (surjective_pairing _)).
    apply (@history_remove "E" "alice" "s1" "A" w3 _ w4 w4 (surjective_pairing _)).
    apply history_done.
Defined.

(** ** C10: the lower bound is checked by the schemas, not by the service *)

Lemma optional_positive_int_rejects v :
  ~ positive_integer v -> optional_positive_int (Some v) = Invalid.
Proof.
  intros H. destruct v as [| |[z|]| | |]; try reflexivity. cbn.
  destruct (0 <? z) eqn:Hpos; [|reflexivity].
  exfalso. apply H. exists z. apply Z.ltb_lt in Hpos. auto.
Qed.

Lemma optional_positive_int_accepts v o :
  optional_positive_int v = Valid o -> forall z, o = Some z -> 1 <= z.
Proof.
  destruct v as [[| |[z|]| | |]|]; cbn; try discriminate.
  - destruct (0 <? z) eqn:Hpos; [|discriminate].
    intros E z' Hz. subst o. inversion E; subst z'. apply Z.ltb_lt in Hpos. lia.
  - intros E z Hz. congruence.
Qed.

Lemma addPoseToSequenceSchema_accepts is_uuid requestBody cmd :
  addPoseToSequenceSchema is_uuid requestBody = Valid cmd ->
  (forall p, add_position cmd = Some p -> 1 <= p) /\
  (forall v, add_poseVersion cmd = Some v -> 1 <= v).
Proof.
  destruct requestBody as [| | | | |fields]; try discriminate. cbn.
  destruct (uuid_string is_uuid (field "poseId" fields)); [|discriminate].
  destruct (optional_positive_int (field "poseVersion" fields)) as [ver|] eqn:V;
    [|discriminate].
  destruct (optional_positive_int (field "position" fields)) as [pos|] eqn:P;
    [|discriminate].
  intros E. inversion E; subst. cbn. split.
  - now apply (optional_positive_int_accepts _ _ P).
  - now apply (optional_positive_int_accepts _ _ V).
Qed.

Lemma updateSequencePoseSchema_accepts requestBody cmd :
  updateSequencePoseSchema requestBody = Valid cmd ->
  forall p, upd_position cmd = Some p -> 1 <= p.
Proof.
  destruct requestBody as [| | | | |fields]; try discriminate. cbn.
  destruct (optional_positive_int (field "position" fields)) as [pos|] eqn:P;
    [|discriminate].
  destruct (optional_nonnegative_int (field "duration" fields)); [|discriminate].
  destruct (optional_string_max 1000 (field "instructions" fields)); [|discriminate].
  destruct (_ || _); [|discriminate].
  intros E. inversion E; subst. cbn.
  now apply (optional_positive_int_accepts _ _ P).
Qed.

(** C10: a body whose [position] (or, for POST, [poseVersion]) field is
    present and is not a positive integer is rejected by the schema; POST and
    PATCH, for an authenticated caller, answer it with status 400 and code
    VALIDATION_ERROR, and whoever the caller is the world stays as it was, the
    service not being called.  A command a schema lets through has a position
    (and pose version) of at least 1 or none.  The service itself has no such
    check: called directly with a supplied position below 1 on a dense
    sequence, [addPoseToSequence] succeeds and inserts there. *)
Theorem http_position_guard (is_uuid : string -> bool) :
  (forall fields v,
      field "position" fields = Some v \/ field "poseVersion" fields = Some v ->
      ~ positive_integer v ->
      addPoseToSequenceSchema is_uuid (JObject fields) = Invalid /\
      forall newId req w,
        body req = Some (JObject fields) ->
        snd (POST is_uuid newId req w) = w /\
        (supabase_available req = true -> auth_user req <> None ->
         POST is_uuid newId req w = (error_response 400 "VALIDATION_ERROR", w))) /\
  (forall fields v,
      field "position" fields = Some v -> ~ positive_integer v ->
      updateSequencePoseSchema (JObject fields) = Invalid /\
      forall req w,
        body req = Some (JObject fields) ->
        snd (PATCH is_uuid req w) = w /\
        (supabase_available req = true -> auth_user req <> None ->
         PATCH is_uuid req w = (error_response 400 "VALIDATION_ERROR", w))) /\
  (forall requestBody cmd,
      addPoseToSequenceSchema is_uuid requestBody = Valid cmd ->
      (forall p, add_position cmd = Some p -> 1 <= p) /\
      (forall v, add_poseVersion cmd = Some v -> 1 <= v)) /\
  (forall requestBody cmd,
      updateSequencePoseSchema requestBody = Valid cmd ->
      forall p, upd_position cmd = Some p -> 1 <= p) /\
  (forall w newId uid sid cmd s V p,
      consistent (db w) -> dense sid (db w) -> outage w = None ->
      verifySequenceOwnership sid uid w = (Ok s, w) ->
      resolvePoseVersion (add_poseId cmd) (add_poseVersion cmd) w = (Ok V, w) ->
      ~ In newId (map sp_id (sequence_poses (db w))) ->
      add_position cmd = Some p -> p < 1 ->
      exists dto w',
        addPoseToSequence newId uid sid cmd w = (Ok dto, w') /\
        dto_position dto = p /\
        In (mkSequencePose newId sid (add_poseId cmd) V p) (sequence_poses (db w'))).
Proof.
  split; [|split; [|split; [|split]]].
  - intros fields v Hfield Hv.
    assert (Hschema : addPoseToSequenceSchema is_uuid (JObject fields) = Invalid).
    { cbn. destruct (uuid_string is_uuid (field "poseId" fields)); [|reflexivity].
      destruct Hfield as [F|F]; rewrite F, (optional_positive_int_rejects v Hv).
      - now destruct (optional_positive_int (field "poseVersion" fields)).
      - reflexivity. }
    split; [exact Hschema|]. intros newId req w Hbody. unfold POST.
    rewrite Hbody, Hschema.
    destruct (supabase_available req); cbn [negb]; [|split; [reflexivity|discriminate]].
    destruct (auth_user req) as [u|]; [|split; [reflexivity|tauto]].
    destruct (uuidParamSchema is_uuid (params_sequenceId req));
      (split; [reflexivity | reflexivity]).
  - intros fields v Hfield Hv.
    assert (Hschema : updateSequencePoseSchema (JObject fields) = Invalid).
    { cbn. now rewrite Hfield, (optional_positive_int_rejects v Hv). }
    split; [exact Hschema|]. intros req w Hbody. unfold PATCH.
    rewrite Hbody, Hschema.
    destruct (supabase_available req); cbn [negb]; [|split; [reflexivity|discriminate]].
    destruct (auth_user req) as [u|]; [|split; [reflexivity|tauto]].
    destruct (uuidParamSchema is_uuid (params_sequenceId req));
      destruct (uuidParamSchema is_uuid (params_sequencePoseId req));
      (split; [reflexivity | reflexivity]).
  - apply addPoseToSequenceSchema_accepts.
  - apply updateSequencePoseSchema_accepts.
  - intros w newId uid sid cmd s V p Hc Hd Hout Ever Eres Hfresh Hp Hlow.
    assert (Hip : insert_position sid (db w) cmd = p)
      by (unfold insert_position; now rewrite Hp).
    assert (Hle : insert_position sid (db w) cmd <= count sid (db w) + 1)
      by (rewrite Hip; unfold count; lia).
    destruct (addPoseToSequence_total newId uid sid cmd w s V Hc Hd Hout Ever Eres
                Hfresh Hle) as (dto & w' & E).
    destruct (addPoseToSequence_success _ _ _ _ _ _ _ (pk_sequence_poses Hc) Hd E)
      as (V' & Eres' & _ & _ & Hev & _ & Hpos).
    assert (V' = V) by congruence. subst V'. rewrite Hip in *.
    exists dto, w'. split; [exact E|]. split; [exact Hpos|].
    destruct Hev as (_ & _ & _ & Hrows & _). rewrite Hrows.
    apply in_or_app. right. simpl. auto.
Qed.

Lemma http_position_guard_witness :
  POST uuid_any "E"
       (alice_request "" (JObject [("poseId", JString "p1");
                                   ("position", JNumber (JInt 0))]))
       abcd
  = (error_response 400 "VALIDATION_ERROR", abcd) /\
  exists dto w',
    addPoseToSequence "E" "alice" "s1" (add_at (Some 0)) abcd = (Ok dto, w') /\
    dto_position dto = 0.
Proof.
  destruct (http_position_guard uuid_any) as (Hpost & _ & _ & _ & Hservice).
  split.
  - destruct (Hpost [("poseId", JString "p1"); ("position", JNumber (JInt 0))]
                    (JNumber (JInt 0)) (or_introl eq_refl)) as [_ H].
    + intros [z [E Hz]]. inversion E; subst. lia.
    + apply H; [reflexivity | reflexivity | discriminate].
  - destruct (Hservice abcd "E" "alice" "s1" (add_at (Some 0))
                       (mkSequence "s1" "alice") "v1" 0)
      as (dto & w' & E & Hpos & _).
    + apply consistentb_sound; reflexivity.
    + apply denseb_sound; reflexivity.
    + reflexivity.
    + reflexivity.
    + reflexivity.
    + simpl. intros [H|[H|[H|[H|[]]]]]; discriminate.
    + reflexivity.
    + lia.
    + exists dto, w'. auto.
Defined.

(** * The helpers, the handlers and the other modules *)

(** ** The reads of the service on any store *)

(** [getNextPosition] on any store, dense or not: the run never fails and
    writes nothing; the result is 1 for a sequence without entries and
    otherwise one more than the highest position of the sequence, so it lies
    above every position of the sequence. *)
Theorem getNextPosition_above_all (sid : Id) (w : World) :
  exists v,
    getNextPosition sid w = (Ok v, w) /\
    (forall r, In r (entries sid (db w)) -> sp_position r < v) /\
    (entries sid (db w) = [] -> v = 1) /\
    (entries sid (db w) <> [] ->
       exists r, In r (entries sid (db w)) /\ v = sp_position r + 1).
Proof.
  unfold getNextPosition, bind, query. fold (entries sid (db w)).
  pose proof (order_perm false (entries sid (db w))) as Hp.
  pose proof (order_sorted false (entries sid (db w))) as Hs.
  destruct (order false (entries sid (db w))) as [|h t] eqn:O.
  - apply Permutation_nil in Hp. rewrite Hp. exists 1.
    split; [reflexivity|]. split; [intros r []|]. split; [reflexivity|].
    intros H. now destruct H.
  - cbn [firstn maybeSingle]. exists (sp_position h + 1).
    assert (Hh : In h (entries sid (db w)))
      by (eapply Permutation_in; [exact Hp | simpl; auto]).
    split; [reflexivity|]. split; [|split].
    + intros r Hr.
      assert (Hr' : In r (h :: t))
        by (eapply Permutation_in; [apply Permutation_sym, Hp | exact Hr]).
      pose proof (sorted_head_extreme _ _ _ _ Hs Hr') as Hle.
      unfold precedes in Hle. lia.
    + intros E. rewrite E in Hh. destruct Hh.
    + intros _. exists h. auto.
Qed.

(** [fetchSequencePoseDto] on a store that satisfies its key constraints: for
    the id of a stored row it returns that row's id, pose id and position with
    the name of the referenced pose; for an id no row has, [.single()] fails
    with the store error PGRST116; the branch that throws
    SEQUENCE_POSE_NOT_FOUND is never taken. *)
Theorem fetchSequencePoseDto_lookup (id : Id) (w : World) :
  consistent (db w) ->
  (forall r, In r (sequence_poses (db w)) -> sp_id r = id ->
     exists p, In p (poses (db w)) /\ pose_id p = sp_pose_id r /\
       fetchSequencePoseDto id w
       = (Ok (mkSequencePoseDto (sp_id r) (sp_pose_id r) (pose_name p)
                                (sp_position r)), w)) /\
  (~ In id (map sp_id (sequence_poses (db w))) ->
     fetchSequencePoseDto id w = (Throw (StoreError "PGRST116"), w)) /\
  (forall w', fetchSequencePoseDto id w
              <> (Throw (AppError "SEQUENCE_POSE_NOT_FOUND"), w')).
Proof.
  intros Hc. pose proof (pk_sequence_poses Hc) as Hpk.
  assert (Hjoin : forall r, In r (sequence_poses (db w)) ->
            exists p, find (fun p => pose_id p == sp_pose_id r) (poses (db w)) = Some p).
  { intros r Hr. destruct (fk_entry_pose Hc r Hr) as [x [Hx Ex]].
    destruct (find _ (poses (db w))) as [p|] eqn:F; [eauto|].
    apply (find_none _ _ F) in Hx. rewrite Ex, same_refl in Hx. discriminate. }
  split; [|split].
  - intros r Hr <-. destruct (Hjoin r Hr) as [p F]. exists p.
    pose proof (find_some _ _ F) as [Hp Ep]. apply same_true in Ep.
    split; [exact Hp|]. split; [exact Ep|].
    unfold fetchSequencePoseDto, bind, query.
    replace (filter (fun x => sp_id x == sp_id r) (sequence_poses (db w))) with [r].
    + cbn [single]. now rewrite F.
    + symmetry.
      rewrite <- (filter_unique (fun _ => true) (sequence_poses (db w)) r Hpk Hr eq_refl).
      apply filter_ext. intros x. now rewrite andb_true_r.
  - intros Hno. unfold fetchSequencePoseDto, bind, query.
    rewrite filter_none; [reflexivity|].
    intros x Hx. apply same_false. intros E. apply Hno. rewrite <- E.
    now apply in_map.
  - intros w' E. unfold fetchSequencePoseDto, bind, query in E.
    destruct (filter (fun x => sp_id x == id) (sequence_poses (db w)))
      as [|r [|r' t]] eqn:S; cbn [single] in E; try discriminate.
    assert (Hr : In r (sequence_poses (db w))).
    { assert (H : In r (filter (fun x => sp_id x == id) (sequence_poses (db w))))
        by (rewrite S; simpl; auto).
      apply filter_In in H. tauto. }
    destruct (Hjoin r Hr) as [p F]. rewrite F in E. discriminate.
Qed.

Lemma fetchSequencePoseDto_lookup_witness :
  fetchSequencePoseDto "C" abcd = (Ok (mkSequencePoseDto "C" "p1" "Tree" 3), abcd) /\
  fetchSequencePoseDto "Z" abcd = (Throw (StoreError "PGRST116"), abcd).
Proof.
  destruct (fetchSequencePoseDto_lookup "Z" abcd) as (_ & Hmiss & _);
    [apply consistentb_sound; reflexivity|].
  destruct (fetchSequencePoseDto_lookup "C" abcd) as (Hrow & _ & _);
    [apply consistentb_sound; reflexivity|].
  split.
  - destruct (Hrow (entry "C" 3)) as (p & Hp & Ep & E);
      [simpl; tauto | reflexivity |].
    destruct Hp as [<-|[]]. exact E.
  - apply Hmiss. simpl. intros [H|[H|[H|[H|[]]]]]; discriminate.
Defined.

Lemma lookup_miss (sid id : Id) (rows : list SequencePose) :
  (forall r, In r rows -> sp_id r = id -> sp_sequence_id r <> sid) ->
  filter (fun r => (sp_id r == id) && in_sequence sid r) rows = [].
Proof.
  intros Hout. apply filter_none. intros r Hr.
  destruct (sp_id r == id) eqn:E1; [|reflexivity].
  apply same_true in E1. cbn [andb]. unfold in_sequence.
  apply same_false. now apply Hout.
Qed.

(** An entry id that is not an entry of the addressed sequence (no row has
    it, or its row belongs to another sequence, the caller's own or not):
    for the owner of the addressed sequence [updateSequencePose] and
    [removeSequencePose] throw SEQUENCE_POSE_NOT_FOUND and write nothing,
    whatever the command. *)
Theorem entry_outside_sequence_not_found (uid sid id : Id)
        (cmd : UpdateSequencePoseCommand) (w : World) (s : Sequence) :
  verifySequenceOwnership sid uid w = (Ok s, w) ->
  (forall r, In r (sequence_poses (db w)) -> sp_id r = id -> sp_sequence_id r <> sid) ->
  updateSequencePose uid sid id cmd w
  = (Throw (AppError "SEQUENCE_POSE_NOT_FOUND"), w) /\
  removeSequencePose uid sid id w
  = (Throw (AppError "SEQUENCE_POSE_NOT_FOUND"), w).
Proof.
  intros Ever Hout.
  pose proof (lookup_miss sid id (sequence_poses (db w)) Hout) as F.
  split.
  - unfold updateSequencePose. rewrite (bind_ok _ _ _ _ _ Ever).
    unfold bind, query. now rewrite F.
  - rewrite removeSequencePose_unfold, Ever. cbn [fst]. now rewrite F.
Qed.

Lemma entry_outside_sequence_not_found_witness :
  updateSequencePose "alice" "s1" "X" (move_to 1) shared
  = (Throw (AppError "SEQUENCE_POSE_NOT_FOUND"), shared) /\
  removeSequencePose "alice" "s1" "X" shared
  = (Throw (AppError "SEQUENCE_POSE_NOT_FOUND"), shared).
Proof.
  apply (entry_outside_sequence_not_found "alice" "s1" "X" (move_to 1) shared
           (mkSequence "s1" "alice")).
  - reflexivity.
  - simpl. intros r [<-|[<-|[<-|[]]]] E; discriminate.
Defined.






(** ** Runs on one sequence leave the others alone *)

Lemma bind_cases {A B} (m : M A) (k : A -> M B) w r w' :
  bind m k w = (r, w') ->
  (exists e, m w = (Throw e, w') /\ r = Throw e) \/
  (exists a w1, m w = (Ok a, w1) /\ k a w1 = (r, w')).
Proof.
  unfold bind. destruct (m w) as [[a|e] w1]; intros E.
  - right. eauto.
  - left. inversion E; subst. eauto.
Qed.

Lemma elsewhere_refl sid w : elsewhere_unchanged sid w w.
Proof. unfold elsewhere_unchanged. auto. Qed.

Lemma elsewhere_trans sid a b c :
  elsewhere_unchanged sid a b -> elsewhere_unchanged sid b c ->
  elsewhere_unchanged sid a c.
Proof.
  intros (A1 & A2 & A3 & A4) (B1 & B2 & B3 & B4).
  unfold elsewhere_unchanged. repeat split; try congruence.
  intros other H. rewrite B4, A4; auto.
Qed.

Lemma elsewhere_reads {A} sid (m : M A) w r w' :
  snd (m w) = w -> m w = (r, w') -> elsewhere_unchanged sid w w'.
Proof. intros H E. rewrite E in H. cbn in H. subst. apply elsewhere_refl. Qed.

Lemma repositioned_owns sid id w w' : repositioned w w' -> owns sid id w -> owns sid id w'.
Proof.
  intros Hr Ho r Hin E. apply unpositioned_In in Hin. rewrite Hr in Hin.
  apply unpositioned_In_inv in Hin. destruct Hin as [r0 [H0 U]].
  unfold unpositioned in U. inversion U as [[U1 U2 U3 U4]].
  assert (sp_sequence_id r0 = sid) by (apply Ho; congruence). congruence.
Qed.

Lemma repositioned_pk w w' :
  repositioned w w' -> NoDup (map sp_id (sequence_poses (db w))) ->
  NoDup (map sp_id (sequence_poses (db w'))).
Proof. intros Hr. rewrite <- !ids_unpositioned. now rewrite Hr. Qed.

Lemma pk_owns sid w x :
  NoDup (map sp_id (sequence_poses (db w))) ->
  In x (sequence_poses (db w)) -> in_sequence sid x = true -> owns sid (sp_id x) w.
Proof.
  intros Hpk Hx Hs r Hr E. apply same_true in Hs.
  now rewrite (pk_injective _ r x Hpk Hr Hx E).
Qed.

Lemma update_position_elsewhere sid id p w r w' :
  owns sid id w -> update_position id p w = (r, w') -> elsewhere_unchanged sid w w'.
Proof.
  intros Ho. unfold update_position. cbv zeta.
  change (db (record (WUpdatePosition id p) w)) with (db w).
  destruct (negb _); [intros E; inversion E; now unfold elsewhere_unchanged|].
  destruct (find _ _); [|intros E; inversion E; now unfold elsewhere_unchanged].
  destruct (position_taken _ _ _ _); intros E; inversion E;
    [now unfold elsewhere_unchanged|].
  unfold elsewhere_unchanged. cbn. repeat split.
  intros other Hne. unfold entries. cbn.
  rewrite filter_map_swap.
  rewrite (filter_ext _ (in_sequence other))
    by (intros x; unfold in_sequence; now rewrite set_position_sequence).
  rewrite <- (map_id (filter (in_sequence other) (sequence_poses (db w)))) at 2.
  apply map_ext_in. intros x Hx. apply filter_In in Hx. destruct Hx as [Hx Hs].
  apply set_position_other. intros E1. apply Hne.
  apply same_true in Hs. rewrite <- Hs. now apply Ho.
Qed.

Lemma loop_elsewhere sid (f : SequencePose -> Z) l : forall w r w',
  (forall x, In x l -> owns sid (sp_id x) w) ->
  for_each l (fun pose => update_position (sp_id pose) (f pose)) w = (r, w') ->
  elsewhere_unchanged sid w w'.
Proof.
  induction l as [|x rest IH]; intros w r w' Ho E; cbn [for_each] in E.
  - inversion E; subst. apply elsewhere_refl.
  - apply bind_cases in E. destruct E as [(e & E & _)|([] & w1 & E1 & E2)].
    + eapply update_position_elsewhere; [|exact E]. apply Ho. simpl. auto.
    + eapply elsewhere_trans.
      * eapply update_position_elsewhere; [|exact E1]. apply Ho. simpl. auto.
      * eapply IH; [|exact E2]. intros y Hy.
        eapply repositioned_owns; [eapply update_position_keeps; exact E1|].
        apply Ho. simpl. auto.
Qed.

(** The shape of the four shift loops: fetch rows of the sequence, update
    each by id. *)
Lemma shift_elsewhere sid (sel : SequencePose -> bool) asc (f : SequencePose -> Z)
      w r w' :
  NoDup (map sp_id (sequence_poses (db w))) ->
  (forall x, sel x = true -> in_sequence sid x = true) ->
  (posesToShift <- query (fun d => Ok (order asc (filter sel (sequence_poses d)))) ;;
   for_each posesToShift (fun pose => update_position (sp_id pose) (f pose))) w
  = (r, w') ->
  elsewhere_unchanged sid w w'.
Proof.
  intros Hpk Hsel E. unfold bind at 1, query in E.
  eapply loop_elsewhere; [|exact E].
  intros x Hx. apply order_In, filter_In in Hx. destruct Hx as [Hx Hs].
  apply pk_owns; auto.
Qed.

Lemma shiftPositionsUp_elsewhere sid p w r w' :
  NoDup (map sp_id (sequence_poses (db w))) ->
  shiftPositionsUp sid p w = (r, w') -> elsewhere_unchanged sid w w'.
Proof.
  intros Hpk E. unfold shiftPositionsUp in E.
  eapply (shift_elsewhere sid _ false _ w r w' Hpk); [|exact E].
  intros x H. apply andb_prop in H. tauto.
Qed.

Lemma shiftPositionsDown_elsewhere sid p w r w' :
  NoDup (map sp_id (sequence_poses (db w))) ->
  shiftPositionsDown sid p w = (r, w') -> elsewhere_unchanged sid w w'.
Proof.
  intros Hpk E. unfold shiftPositionsDown in E.
  eapply (shift_elsewhere sid _ true _ w r w' Hpk); [|exact E].
  intros x H. apply andb_prop in H. tauto.
Qed.

Lemma isolated_refl sid I w : isolated sid I w w.
Proof. intros Hpk Ho. split; [exact Hpk|]. split; [exact Ho | apply elsewhere_refl]. Qed.

Lemma isolated_trans sid I a b c :
  isolated sid I a b -> isolated sid I b c -> isolated sid I a c.
Proof.
  intros H1 H2 Hpk Ho. destruct (H1 Hpk Ho) as (P1 & O1 & E1).
  destruct (H2 P1 O1) as (P2 & O2 & E2).
  split; [exact P2|]. split; [exact O2|]. eapply elsewhere_trans; eauto.
Qed.

Lemma keeps_isolated_bind {A B} sid I (m : M A) (k : A -> M B) :
  keeps (isolated sid I) m -> (forall a, keeps (isolated sid I) (k a)) ->
  keeps (isolated sid I) (bind m k).
Proof. apply keeps_bind; [apply isolated_trans | auto]. Qed.

Lemma keeps_isolated_reads {A} sid I (m : M A) :
  (forall w, snd (m w) = w) -> keeps (isolated sid I) m.
Proof. apply keeps_reads. apply isolated_refl. Qed.

Lemma repositioned_isolated sid (I : Id -> Prop) w w' :
  repositioned w w' ->
  (NoDup (map sp_id (sequence_poses (db w))) ->
   (forall id, I id -> owns sid id w) -> elsewhere_unchanged sid w w') ->
  isolated sid I w w'.
Proof.
  intros Hr He Hpk Ho. split; [now apply (repositioned_pk w)|].
  split; [|now apply He].
  intros id Hid. apply (repositioned_owns sid id w); auto.
Qed.

Lemma shiftPositionsUp_isolated sid I p : keeps (isolated sid I) (shiftPositionsUp sid p).
Proof.
  intros w r w' E. apply repositioned_isolated.
  - eapply shiftPositionsUp_keeps; eauto.
  - intros Hpk _. eapply shiftPositionsUp_elsewhere; eauto.
Qed.

Lemma shiftPositionsDown_isolated sid I p :
  keeps (isolated sid I) (shiftPositionsDown sid p).
Proof.
  intros w r w' E. apply repositioned_isolated.
  - eapply shiftPositionsDown_keeps; eauto.
  - intros Hpk _. eapply shiftPositionsDown_elsewhere; eauto.
Qed.

Lemma update_position_isolated sid (I : Id -> Prop) id p :
  I id -> keeps (isolated sid I) (update_position id p).
Proof.
  intros Hid w r w' E. apply repositioned_isolated.
  - eapply update_position_keeps; eauto.
  - intros _ Ho. eapply update_position_elsewhere; eauto.
Qed.

Lemma shift_isolated sid I (sel : SequencePose -> bool) asc (f : SequencePose -> Z) :
  (forall x, sel x = true -> in_sequence sid x = true) ->
  keeps (isolated sid I)
    (posesToShift <- query (fun d => Ok (order asc (filter sel (sequence_poses d)))) ;;
     for_each posesToShift (fun pose => update_position (sp_id pose) (f pose))).
Proof.
  intros Hsel w r w' E. apply repositioned_isolated.
  - revert E. apply keeps_seq; [apply keeps_query|].
    intros l. apply keeps_for_each. intros x. apply update_position_keeps.
  - intros Hpk _. eapply shift_elsewhere; eauto.
Qed.

Lemma reorder_isolated sid (I : Id -> Prop) id old np :
  I id -> keeps (isolated sid I) (reorder sid id old np).
Proof.
  intros Hid. unfold reorder, reorder_with.
  apply keeps_isolated_bind; [|intros _; apply keeps_isolated_bind].
  - destruct (old <? np); [|apply keeps_ret, isolated_refl].
    apply shift_isolated. intros x H. apply andb_prop in H. destruct H as [H _].
    apply andb_prop in H. tauto.
  - destruct (np <? old); [|apply keeps_ret, isolated_refl].
    apply shift_isolated. intros x H. apply andb_prop in H. destruct H as [H _].
    apply andb_prop in H. tauto.
  - intros _. now apply update_position_isolated.
Qed.

Lemma filter_all {A} (f : A -> bool) (l : list A) :
  (forall x, In x l -> f x = true) -> filter f l = l.
Proof.
  induction l as [|x rest IH]; simpl; intros H; [reflexivity|].
  rewrite (H x (or_introl eq_refl)). f_equal. apply IH. auto.
Qed.

Lemma delete_sequence_pose_isolated sid (I : Id -> Prop) id :
  I id -> keeps (isolated sid I) (delete_sequence_pose id).
Proof.
  intros Hid w r w' E Hpk Ho. revert E. unfold delete_sequence_pose. cbv zeta.
  change (db (record (WDelete id) w)) with (db w).
  destruct (negb _); intros E; inversion E; subst; clear E.
  - split; [exact Hpk|]. split; [exact Ho | now unfold elsewhere_unchanged].
  - cbn. split; [now apply pk_filter|]. split.
    + intros i Hi r0 Hr0. cbn in Hr0. apply filter_In in Hr0.
      apply (Ho i Hi). tauto.
    + unfold elsewhere_unchanged. cbn. repeat split.
      intros other Hne. unfold entries. cbn. rewrite filter_swap.
      apply filter_all. intros x Hx. apply filter_In in Hx. destruct Hx as [Hx Hs].
      apply negb_true_iff, same_false. intros E1. apply Hne.
      apply same_true in Hs. rewrite <- Hs. now apply (Ho id Hid).
Qed.

Lemma insert_sequence_pose_isolated sid (I : Id -> Prop) row :
  sp_sequence_id row = sid -> keeps (isolated sid I) (insert_sequence_pose row).
Proof.
  intros Hs w r w' E Hpk Ho. revert E. unfold insert_sequence_pose. cbv zeta.
  change (db (record (WInsert row) w)) with (db w).
  assert (Hsame : forall v : World,
            db v = db w ->
            NoDup (map sp_id (sequence_poses (db v))) /\
            (forall id, I id -> owns sid id v) /\ elsewhere_unchanged sid w v).
  { intros v Ev. unfold elsewhere_unchanged. rewrite Ev.
    split; [exact Hpk|]. split; [|repeat split].
    intros i Hi. unfold owns. rewrite Ev. now apply Ho. }
  destruct (negb _); [intros E; inversion E; now apply Hsame|].
  destruct (existsb (fun r0 => sp_id r0 == sp_id row) (sequence_poses (db w))) eqn:F;
    cbn [orb]; [intros E; inversion E; now apply Hsame|].
  destruct (position_taken _ _ _ _); [intros E; inversion E; now apply Hsame|].
  destruct (_ || _); intros E; inversion E; subst; clear E; [now apply Hsame|].
  cbn. split; [|split].
  - rewrite map_app. apply NoDup_snoc; [exact Hpk|].
    intros Hin. apply in_map_iff in Hin. destruct Hin as [x [Ex Hx]].
    assert (existsb (fun r0 => sp_id r0 == sp_id row) (sequence_poses (db w)) = true)
      by (apply existsb_exists; exists x; split; [exact Hx | now apply same_true]).
    congruence.
  - intros i Hi r0 Hr0 E0. cbn in Hr0. apply in_app_or in Hr0.
    destruct Hr0 as [Hr0|[<-|[]]]; [now apply (Ho i Hi) | reflexivity].
  - unfold elsewhere_unchanged. cbn. repeat split.
    intros other Hne. unfold entries. cbn. rewrite filter_app. cbn [filter].
    replace (in_sequence other row) with false; [apply app_nil_r|].
    symmetry. apply same_false. congruence.
Qed.

Lemma addPoseToSequence_isolated newId uid sid cmd (I : Id -> Prop) :
  keeps (isolated sid I) (addPoseToSequence newId uid sid cmd).
Proof.
  unfold addPoseToSequence.
  apply keeps_isolated_bind;
    [apply keeps_isolated_reads; intros; apply verifySequenceOwnership_reads|].
  intros _. apply keeps_isolated_bind;
    [apply keeps_isolated_reads; intros; apply resolvePoseVersion_reads|].
  assert (Hnext : keeps (isolated sid I) (getNextPosition sid)).
  { apply keeps_isolated_reads. intros w.
    destruct (getNextPosition_total sid w) as [v E]. now rewrite E. }
  intros V. apply keeps_isolated_bind.
  { destruct (add_position cmd); [apply keeps_ret, isolated_refl | exact Hnext]. }
  intros position. apply keeps_isolated_bind; [exact Hnext|].
  intros maxPosition.
  destruct (maxPosition <? position); [apply keeps_throw, isolated_refl|].
  apply keeps_isolated_bind.
  { destruct (add_position cmd) as [p|]; [|apply keeps_ret, isolated_refl].
    destruct (p <? maxPosition);
      [apply shiftPositionsUp_isolated | apply keeps_ret, isolated_refl]. }
  intros _. apply keeps_isolated_bind; [now apply insert_sequence_pose_isolated|].
  intros id. apply keeps_isolated_reads. intros; apply fetchSequencePoseDto_reads.
Qed.

Lemma getNextPosition_isolated sid I : keeps (isolated sid I) (getNextPosition sid).
Proof.
  apply keeps_isolated_reads. intros w.
  destruct (getNextPosition_total sid w) as [v E]. now rewrite E.
Qed.

Lemma lookup_owns sid id e w :
  NoDup (map sp_id (sequence_poses (db w))) ->
  maybeSingle (filter (fun r => (sp_id r == id) && in_sequence sid r)
                      (sequence_poses (db w))) = Ok (Some e) ->
  forall i, id = i -> owns sid i w.
Proof.
  intros Hpk L i <-. apply entry_lookup_inv in L. destruct L as [He <-].
  apply filter_In in He. destruct He as [He Hs]. now apply pk_owns.
Qed.

Lemma updateSequencePose_elsewhere uid sid id cmd w r w' :
  NoDup (map sp_id (sequence_poses (db w))) ->
  updateSequencePose uid sid id cmd w = (r, w') -> elsewhere_unchanged sid w w'.
Proof.
  intros Hpk E. unfold updateSequencePose in E.
  apply bind_cases in E. destruct E as [(e & E & _)|(s & w1 & E1 & E)].
  { eapply elsewhere_reads; [apply verifySequenceOwnership_reads | exact E]. }
  assert (w1 = w)
    by (eapply reads_inv; [apply verifySequenceOwnership_reads | exact E1]).
  subst w1. unfold bind at 1, query at 1 in E.
  destruct (maybeSingle _) as [[e0|]|err] eqn:L;
    try (inversion E; subst; apply elsewhere_refl).
  pose proof (lookup_owns sid id e0 w Hpk L) as Ho.
  match type of E with
  | ?m w = _ => assert (K : keeps (isolated sid (eq id)) m)
  end.
  { destruct (is_defined (upd_duration cmd) || is_defined (upd_instructions cmd));
      [apply keeps_throw, isolated_refl|].
    apply keeps_isolated_bind;
      [|intros _; apply keeps_isolated_reads; intros; apply fetchSequencePoseDto_reads].
    destruct (upd_position cmd) as [position|]; [|apply keeps_ret, isolated_refl].
    destruct (position =? sp_position e0); [apply keeps_ret, isolated_refl|].
    apply keeps_isolated_bind; [apply getNextPosition_isolated|].
    intros maxPosition.
    destruct ((position <? 1) || (maxPosition <=? position));
      [apply keeps_throw, isolated_refl | now apply reorder_isolated]. }
  destruct (K w r w' E Hpk Ho) as (_ & _ & H). exact H.
Qed.

Lemma removeSequencePose_elsewhere uid sid id w r w' :
  NoDup (map sp_id (sequence_poses (db w))) ->
  removeSequencePose uid sid id w = (r, w') -> elsewhere_unchanged sid w w'.
Proof.
  intros Hpk E. rewrite removeSequencePose_unfold in E.
  destruct (fst (verifySequenceOwnership sid uid w));
    [|inversion E; subst; apply elsewhere_refl].
  destruct (maybeSingle _) as [[e0|]|err] eqn:L;
    try (inversion E; subst; apply elsewhere_refl).
  pose proof (lookup_owns sid id e0 w Hpk L) as Ho.
  assert (K : keeps (isolated sid (eq id))
                (delete_sequence_pose id ;;; shiftPositionsDown sid (sp_position e0))).
  { apply keeps_isolated_bind; [now apply delete_sequence_pose_isolated|].
    intros _. apply shiftPositionsDown_isolated. }
  destruct (K w r w' E Hpk Ho) as (_ & _ & H). exact H.
Qed.

Lemma addPoseToSequence_elsewhere newId uid sid cmd w r w' :
  NoDup (map sp_id (sequence_poses (db w))) ->
  addPoseToSequence newId uid sid cmd w = (r, w') -> elsewhere_unchanged sid w w'.
Proof.
  intros Hpk E.
  destruct (addPoseToSequence_isolated newId uid sid cmd (fun _ => False) w r w' E Hpk)
    as (_ & _ & H); [intros i []|exact H].
Qed.

(** Isolation: whatever a run of [addPoseToSequence], [updateSequencePose]
    or [removeSequencePose] on a sequence does and however it ends (result,
    error of the service, error of the store partway through), the entries of
    every other sequence and the tables [sequences], [poses] and
    [pose_versions] are afterwards what they were, on any store whose rows
    have distinct ids. *)
Theorem other_sequences_untouched (w : World) (uid sid : Id) :
  NoDup (map sp_id (sequence_poses (db w))) ->
  (forall newId cmd r w',
     addPoseToSequence newId uid sid cmd w = (r, w') ->
     elsewhere_unchanged sid w w') /\
  (forall id cmd r w',
     updateSequencePose uid sid id cmd w = (r, w') ->
     elsewhere_unchanged sid w w') /\
  (forall id r w',
     removeSequencePose uid sid id w = (r, w') ->
     elsewhere_unchanged sid w w').
Proof.
  intros Hpk. split; [|split].
  - intros newId cmd r w'. now apply addPoseToSequence_elsewhere.
  - intros id cmd r w'. now apply updateSequencePose_elsewhere.
  - intros id r w'. now apply removeSequencePose_elsewhere.
Qed.

Lemma other_sequences_untouched_witness :
  exists w',
    removeSequencePose "alice" "s1" "A" shared = (Ok tt, w') /\
    entries "s2" (db w') = [mkSequencePose "X" "s2" "p1" "v1" 1].
Proof.
  destruct (removeSequencePose "alice" "s1" "A" shared) as [r w'] eqn:E.
  exists w'. split; [vm_compute in E; inversion E; reflexivity|].
  destruct (other_sequences_untouched shared "alice" "s1") as (_ & _ & H).
  - apply distinct_NoDup with (eqb := same); [apply same_true | reflexivity].
  - destruct (H "A" r w' E) as (_ & _ & _ & Hother).
    rewrite Hother; [reflexivity | discriminate].
Defined.

(** Access control: a user who does not own a sequence cannot change its
    entries through the service.  Whatever sequence, entry and command the
    three operations are called with, a run by that user, successful or
    not, leaves the entries of every sequence the user does not own as they
    were. *)
Theorem foreign_sequence_protected (w : World) (uid victim : Id) :
  NoDup (map sp_id (sequence_poses (db w))) ->
  (forall s, In s (sequences (db w)) -> seq_id s = victim -> seq_user_id s <> uid) ->
  forall sid,
  (forall newId cmd r w',
     addPoseToSequence newId uid sid cmd w = (r, w') ->
     entries victim (db w') = entries victim (db w)) /\
  (forall id cmd r w',
     updateSequencePose uid sid id cmd w = (r, w') ->
     entries victim (db w') = entries victim (db w)) /\
  (forall id r w',
     removeSequencePose uid sid id w = (r, w') ->
     entries victim (db w') = entries victim (db w)).
Proof.
  intros Hpk Hforeign sid.
  destruct (String.eqb_spec victim sid) as [<-|Hne].
  - pose proof (verifySequenceOwnership_denied victim uid w Hforeign) as Hden.
    split; [|split].
    + intros newId cmd r w' E. unfold addPoseToSequence in E.
      rewrite (bind_throw _ _ _ _ _ Hden) in E. now inversion E.
    + intros id cmd r w' E. unfold updateSequencePose in E.
      rewrite (bind_throw _ _ _ _ _ Hden) in E. now inversion E.
    + intros id r w' E. unfold removeSequencePose in E.
      rewrite (bind_throw _ _ _ _ _ Hden) in E. now inversion E.
  - split; [|split].
    + intros newId cmd r w' E.
      now apply (addPoseToSequence_elsewhere _ _ _ _ _ _ _ Hpk E).
    + intros id cmd r w' E.
      now apply (updateSequencePose_elsewhere _ _ _ _ _ _ _ Hpk E).
    + intros id r w' E.
      now apply (removeSequencePose_elsewhere _ _ _ _ _ _ Hpk E).
Qed.

Lemma foreign_sequence_protected_witness :
  exists w',
    removeSequencePose "alice" "s2" "X" shared
    = (Throw (AppError "SEQUENCE_NOT_FOUND"), w') /\
    entries "s2" (db w') = [mkSequencePose "X" "s2" "p1" "v1" 1].
Proof.
  destruct (removeSequencePose "alice" "s2" "X" shared) as [r w'] eqn:E.
  exists w'. split; [vm_compute in E; inversion E; reflexivity|].
  destruct (foreign_sequence_protected shared "alice" "s2") with (sid := "s2")
    as (_ & _ & H).
  - apply distinct_NoDup with (eqb := same); [apply same_true | reflexivity].
  - simpl. intros s [<-|[<-|[]]]; simpl; intros; discriminate.
  - rewrite (H "X" r w' E). reflexivity.
Defined.

(** ** Appending, and undoing an insert *)

(** Supplying the next free position is the same as supplying none: on any
    store, [addPoseToSequence] with [position] set to what [getNextPosition]
    returns runs exactly as with [position] left out (same statements, same
    result, same final store). *)
Theorem append_explicit_is_default (newId uid sid pid : Id) (ver : option Z)
        (w : World) (v : Z) :
  getNextPosition sid w = (Ok v, w) ->
  addPoseToSequence newId uid sid (mkAddPoseToSequenceCommand pid ver (Some v)) w
  = addPoseToSequence newId uid sid (mkAddPoseToSequenceCommand pid ver None) w.
Proof.
  intros Hnext. unfold addPoseToSequence.
  cbn [add_poseId add_poseVersion add_position].
  pose proof (verifySequenceOwnership_reads sid uid w) as R1.
  destruct (verifySequenceOwnership sid uid w) as [[s|e] w1] eqn:E1;
    cbn [snd] in R1; subst w1;
    [rewrite !(bind_ok _ _ _ _ _ E1) | now rewrite !(bind_throw _ _ _ _ _ E1)].
  pose proof (resolvePoseVersion_reads pid ver w) as R2.
  destruct (resolvePoseVersion pid ver w) as [[V|e] w1] eqn:E2;
    cbn [snd] in R2; subst w1;
    [rewrite !(bind_ok _ _ _ _ _ E2) | now rewrite !(bind_throw _ _ _ _ _ E2)].
  rewrite (bind_ok _ _ _ _ _ Hnext).
  assert (Hret : ret v w = (Ok v, w)) by reflexivity.
  rewrite (bind_ok _ _ _ _ _ Hret).
  rewrite !(bind_ok _ _ _ _ _ Hnext).
  rewrite Z.ltb_irrefl. reflexivity.
Qed.

Lemma append_explicit_is_default_witness :
  addPoseToSequence "E" "alice" "s1" (add_at (Some 5)) abcd
  = addPoseToSequence "E" "alice" "s1" (add_at None) abcd.
Proof.
  apply (append_explicit_is_default "E" "alice" "s1" "p1" None abcd 5).
  reflexivity.
Defined.

Lemma store_ext (d d' : Store) :
  sequences d = sequences d' -> poses d = poses d' ->
  pose_versions d = pose_versions d' -> sequence_poses d = sequence_poses d' ->
  d = d'.
Proof. destruct d, d'; cbn; intros; subst; reflexivity. Qed.

(** Shifting the rows from [p] on up and then the rows above [p] down gives
    the table back. *)
Lemma moved_back sid p rows :
  moved (-1) (after_position sid p) (moved 1 (from_position sid p) rows) = rows.
Proof.
  unfold moved. rewrite map_map. rewrite <- (map_id rows) at 2.
  apply map_ext. intros r.
  unfold from_position, after_position, set_position, in_sequence.
  destruct r as [i s x v q].
  cbn [sp_id sp_sequence_id sp_pose_id sp_pose_version_id sp_position].
  rewrite !same_refl.
  destruct (s == sid) eqn:S; cbn [andb].
  - destruct (p <=? q) eqn:L;
      cbn [sp_id sp_sequence_id sp_pose_id sp_pose_version_id sp_position];
      rewrite ?same_refl, S; cbn [andb].
    + replace (p <? q + 1) with true
        by (symmetry; apply Z.ltb_lt; apply Z.leb_le in L; lia).
      cbn [sp_id sp_sequence_id sp_pose_id sp_pose_version_id sp_position].
      f_equal; lia.
    + replace (p <? q) with false
        by (symmetry; apply Z.ltb_ge; apply Z.leb_gt in L; lia).
      reflexivity.
  - cbn [sp_id sp_sequence_id sp_pose_id sp_pose_version_id sp_position].
    rewrite S. reflexivity.
Qed.

(** Undo: on a consistent store with the sequence dense and the store
    reachable, removing the entry a successful [addPoseToSequence] has just
    returned succeeds and gives back the tables exactly as they were before
    the insert, for every position the insert accepted (a position below 1
    included). *)
Theorem add_then_remove_restores (newId uid sid : Id) (cmd : AddPoseToSequenceCommand)
        (w : World) (dto : SequencePoseDto) (w1 : World) :
  consistent (db w) -> dense sid (db w) -> outage w = None ->
  addPoseToSequence newId uid sid cmd w = (Ok dto, w1) ->
  exists w2,
    removeSequencePose uid sid (dto_id dto) w1 = (Ok tt, w2) /\ db w2 = db w.
Proof.
  intros Hc Hd Hout E.
  pose proof (pk_sequence_poses Hc) as Hpk.
  destruct (addPoseToSequence_success _ _ _ _ _ _ _ Hpk Hd E)
    as (V & _ & Hle & Hfresh & Hev & Hid & _).
  cbv zeta in Hle, Hev.
  set (p := insert_position sid (db w) cmd) in *.
  set (row := mkSequencePose newId sid (add_poseId cmd) V p) in *.
  destruct Hev as (S1 & S2 & S3 & S4 & _ & S6).
  assert (Ever : exists s, verifySequenceOwnership sid uid w1 = (Ok s, w1)).
  { unfold addPoseToSequence in E. apply bind_inv in E.
    destruct E as (s & wa & Ea & _). exists s.
    unfold verifySequenceOwnership, bind, query in *. rewrite S1.
    destruct (maybeSingle _) as [[s0|]|e]; inversion Ea; reflexivity. }
  destruct Ever as [s Ever].
  assert (Hpk1 : NoDup (map sp_id (sequence_poses (db w1))))
    by (rewrite S4, map_app, moved_ids; apply NoDup_snoc; auto).
  assert (Hrow : In row (entries sid (db w1))).
  { apply filter_In. split; [|apply same_refl].
    rewrite S4. apply in_or_app. right. simpl. auto. }
  rewrite Hid, removeSequencePose_unfold, Ever. cbn [fst].
  change newId with (sp_id row).
  rewrite (entry_lookup sid (db w1) row Hpk1 Hrow).
  change (sp_position row) with p.
  destruct (delete_sequence_pose_run (sp_id row) w1) as [Hdel Hdel_ok].
  destruct (Hdel_ok (S6 Hout)) as [wd Ed]. specialize (Hdel wd Ed).
  rewrite (bind_ok _ _ _ _ _ Ed).
  destruct Hdel as (D1 & D2 & D3 & D4 & _ & D6).
  assert (Hrest : sequence_poses (db wd)
                  = moved 1 (from_position sid p) (sequence_poses (db w))).
  { rewrite D4, S4, filter_app. cbn [filter]. rewrite same_refl. cbn [negb].
    rewrite app_nil_r. apply filter_all. intros x Hx.
    apply negb_true_iff, same_false. intros Ex. apply Hfresh.
    change (sp_id row) with newId in Ex. rewrite <- Ex.
    rewrite <- (moved_ids 1 (from_position sid p) (sequence_poses (db w))).
    now apply in_map. }
  assert (Hsel : forall r, In r (entries sid (db w)) ->
                           from_position sid p r = (p <=? sp_position r)).
  { intros r Hr. apply filter_In in Hr. unfold from_position.
    destruct Hr as [_ ->]. reflexivity. }
  destruct (shiftPositionsDown_run sid p wd) as [Hrun Hgo].
  - rewrite Hrest, moved_ids. exact Hpk.
  - unfold positions, entries. rewrite Hrest, entries_moved, positions_moved.
    apply (NoDup_map_on sp_position); [now apply dense_positions_NoDup|].
    intros a b Ha Hb. rewrite (Hsel a Ha), (Hsel b Hb).
    destruct (p <=? sp_position a) eqn:A, (p <=? sp_position b) eqn:B;
      try apply Z.leb_le in A; try apply Z.leb_le in B;
      try apply Z.leb_gt in A; try apply Z.leb_gt in B; lia.
  - intros r Hr Hs Hp. rewrite Hrest in Hr. apply moved_In in Hr.
    destruct Hr as (r0 & H0 & _ & Es & _ & _ & Epos).
    rewrite Hsel in Epos
      by (apply filter_In; split; [exact H0 | apply same_true; congruence]).
    destruct (p <=? sp_position r0) eqn:L;
      [apply Z.leb_le in L | apply Z.leb_gt in L]; lia.
  - destruct (Hgo (D6 (S6 Hout))) as [w2 E2]. exists w2. split; [exact E2|].
    destruct (Hrun w2 E2) as (F1 & F2 & F3 & F4 & _).
    apply store_ext; try congruence.
    rewrite F4, Hrest. apply moved_back.
Qed.

Lemma add_then_remove_restores_witness :
  exists dto w1 w2,
    addPoseToSequence "E" "alice" "s1" (add_at (Some 2)) abcd = (Ok dto, w1) /\
    removeSequencePose "alice" "s1" (dto_id dto) w1 = (Ok tt, w2) /\
    db w2 = db abcd.
Proof.
  destruct (addPoseToSequence "E" "alice" "s1" (add_at (Some 2)) abcd)
    as [[dto|e] w1] eqn:E; [|vm_compute in E; discriminate].
  destruct (add_then_remove_restores "E" "alice" "s1" (add_at (Some 2)) abcd dto w1)
    as (w2 & E2 & Hdb).
  - apply consistentb_sound; reflexivity.
  - apply denseb_sound; reflexivity.
  - reflexivity.
  - exact E.
  - exists dto, w1, w2. split; [reflexivity|]. split; [exact E2 | exact Hdb].
Defined.

Lemma verifySequenceOwnership_frame sid uid w w' s :
  sequences (db w') = sequences (db w) ->
  verifySequenceOwnership sid uid w = (Ok s, w) ->
  verifySequenceOwnership sid uid w' = (Ok s, w').
Proof.
  unfold verifySequenceOwnership, bind, query. intros ->.
  destruct (maybeSingle _) as [[s0|]|e]; intros E; inversion E; reflexivity.
Qed.

(** Removing twice: on a consistent store with the sequence dense and the
    store reachable, after the owner has removed an entry a second
    [removeSequencePose] of the same entry throws SEQUENCE_POSE_NOT_FOUND
    and changes nothing; nothing is shifted a second time. *)
Theorem remove_twice (w : World) (uid sid : Id) (e : SequencePose) (s : Sequence) :
  consistent (db w) -> dense sid (db w) -> outage w = None ->
  verifySequenceOwnership sid uid w = (Ok s, w) ->
  In e (entries sid (db w)) ->
  exists w1,
    removeSequencePose uid sid (sp_id e) w = (Ok tt, w1) /\
    removeSequencePose uid sid (sp_id e) w1
    = (Throw (AppError "SEQUENCE_POSE_NOT_FOUND"), w1).
Proof.
  intros Hc Hd Hout Ever He.
  pose proof (pk_sequence_poses Hc) as Hpk.
  destruct (remove_phases sid e w Hpk Hd He) as [Hrun Hgo].
  destruct (Hgo Hout) as [w1 E]. specialize (Hrun w1 E).
  exists w1. split.
  - rewrite removeSequencePose_unfold, Ever. cbn [fst].
    now rewrite (entry_lookup sid (db w) e Hpk He).
  - destruct Hrun as (S1 & _ & _ & S4 & _).
    rewrite removeSequencePose_unfold.
    rewrite (verifySequenceOwnership_frame sid uid w w1 s S1 Ever). cbn [fst].
    rewrite lookup_miss; [reflexivity|].
    intros r Hr Eid. exfalso. rewrite S4 in Hr. apply moved_In in Hr.
    destruct Hr as (r0 & H0 & Er & _). apply filter_In in H0.
    destruct H0 as [_ N]. apply negb_true_iff, same_false in N. congruence.
Qed.

Lemma remove_twice_witness :
  exists w1,
    removeSequencePose "alice" "s1" "B" abcd = (Ok tt, w1) /\
    removeSequencePose "alice" "s1" "B" w1
    = (Throw (AppError "SEQUENCE_POSE_NOT_FOUND"), w1).
Proof.
  apply (remove_twice abcd "alice" "s1" (entry "B" 2) (mkSequence "s1" "alice")).
  - apply consistentb_sound; reflexivity.
  - apply denseb_sound; reflexivity.
  - reflexivity.
  - reflexivity.
  - simpl. tauto.
Defined.

(** ** What the handlers answer *)

(** On a dense sequence no run of [updateSequencePose] changes a table. *)
Lemma updateSequencePose_db uid sid id cmd w r w' :
  NoDup (map sp_id (sequence_poses (db w))) -> dense sid (db w) ->
  updateSequencePose uid sid id cmd w = (r, w') -> db w' = db w.
Proof.
  intros Hpk Hd E. rewrite (updateSequencePose_unfold _ _ _ _ _ Hd) in E.
  destruct (fst (verifySequenceOwnership sid uid w)); [|now inversion E].
  destruct (maybeSingle _) as [[e|]|err] eqn:L; try now inversion E.
  destruct (is_defined (upd_duration cmd) || is_defined (upd_instructions cmd));
    [now inversion E|].
  assert (Hfetch : fetchSequencePoseDto id w = (r, w') -> db w' = db w).
  { intros F. f_equal. eapply reads_inv; eauto. apply fetchSequencePoseDto_reads. }
  destruct (upd_position cmd) as [np|]; [|auto].
  destruct (np =? sp_position e) eqn:Q; [auto|].
  destruct ((np <? 1) || (count sid (db w) + 1 <=? np)) eqn:G; [now inversion E|].
  apply entry_lookup_inv in L. destruct L as [He <-].
  apply orb_false_elim in G. destruct G as [G1 G2].
  apply Z.ltb_ge in G1. apply Z.leb_gt in G2. apply Z.eqb_neq in Q.
  destruct (reorder_blocked sid e np w Hpk Hd He Q) as (n & c & w2 & B & _ & _ & Hdb & _);
    [lia|].
  rewrite (bind_throw _ _ _ _ _ B) in E. inversion E; subst. exact Hdb.
Qed.

Lemma uuidParamSchema_valid is_uuid param s :
  uuidParamSchema is_uuid param = Valid s -> param = Some s.
Proof.
  unfold uuidParamSchema. destruct param as [x|]; [|discriminate].
  destruct (is_uuid x); [|discriminate]. intros E. now inversion E.
Qed.



Lemma updateSequencePoseSchema_defined requestBody cmd :
  updateSequencePoseSchema requestBody = Valid cmd ->
  is_defined (upd_position cmd) || is_defined (upd_duration cmd)
  || is_defined (upd_instructions cmd) = true.
Proof.
  destruct requestBody as [| | | | |fields]; try discriminate. cbn.
  destruct (optional_positive_int (field "position" fields)); [|discriminate].
  destruct (optional_nonnegative_int (field "duration" fields)); [|discriminate].
  destruct (optional_string_max 1000 (field "instructions" fields)); [|discriminate].
  destruct (_ || _) eqn:D; [|discriminate].
  intros E. inversion E; subst. exact D.
Qed.

(** A run of [updateSequencePose] that returns, on a dense sequence: the
    command had neither [duration] nor [instructions], and a [position] it
    had is the position of the returned entry. *)
Lemma updateSequencePose_ok_inv uid sid id cmd w dto w' :
  NoDup (map sp_id (sequence_poses (db w))) -> dense sid (db w) ->
  updateSequencePose uid sid id cmd w = (Ok dto, w') ->
  upd_duration cmd = None /\ upd_instructions cmd = None /\
  forall p, upd_position cmd = Some p -> p = dto_position dto.
Proof.
  intros Hpk Hd E.
  pose proof (updateSequencePose_success _ _ _ _ _ _ _ Hpk Hd E). subst w'.
  rewrite (updateSequencePose_unfold _ _ _ _ _ Hd) in E.
  destruct (fst (verifySequenceOwnership sid uid w)); [|discriminate].
  destruct (maybeSingle _) as [[e|]|err] eqn:L; try discriminate.
  destruct (upd_duration cmd), (upd_instructions cmd); try discriminate.
  cbn [is_defined orb] in E. split; [reflexivity|]. split; [reflexivity|].
  intros p Hp. rewrite Hp in E.
  destruct (p =? sp_position e) eqn:Q.
  - apply Z.eqb_eq in Q. apply fetchSequencePoseDto_inv in E.
    destruct E as [_ (r & F & _ & _ & Hpos)].
    apply entry_lookup_inv in L. destruct L as [He Eid].
    assert (Hr : In e (filter (fun x => sp_id x == id) (sequence_poses (db w)))).
    { apply filter_In. apply filter_In in He. split; [tauto | now apply same_true]. }
    rewrite F in Hr. destruct Hr as [<-|[]]. congruence.
  - destruct ((p <? 1) || (count sid (db w) + 1 <=? p)) eqn:G; [discriminate|].
    exfalso. apply entry_lookup_inv in L. destruct L as [He <-].
    apply orb_false_elim in G. destruct G as [G1 G2].
    apply Z.ltb_ge in G1. apply Z.leb_gt in G2. apply Z.eqb_neq in Q.
    destruct (reorder_blocked sid e p w Hpk Hd He Q) as (n & c & w2 & B & _); [lia|].
    rewrite (bind_throw _ _ _ _ _ B) in E. discriminate.
Qed.

(** What PATCH answers when the addressed sequence is dense, on a store whose
    rows have distinct ids: no table is changed by any request.  The answer
    is 200 with the entry, and then the body asked for the position the
    entry already has and for nothing else; or a client error 400, 401 or
    404; in both cases no statement was issued; or it is 500
    INTERNAL_ERROR. *)
Theorem PATCH_outcomes (is_uuid : string -> bool) (req : Request) (w : World)
        (resp : Response) (w' : World) :
  NoDup (map sp_id (sequence_poses (db w))) ->
  (forall sid, params_sequenceId req = Some sid -> dense sid (db w)) ->
  PATCH is_uuid req w = (resp, w') ->
  db w' = db w /\
  ((exists uid sid id requestBody cmd dto,
      resp = mkResponse 200 None (Some dto) /\ w' = w /\
      body req = Some requestBody /\
      updateSequencePoseSchema requestBody = Valid cmd /\
      updateSequencePose uid sid id cmd w = (Ok dto, w) /\
      upd_position cmd = Some (dto_position dto) /\
      upd_duration cmd = None /\ upd_instructions cmd = None) \/
   (In (status resp) [400; 401; 404] /\ payload resp = None /\ w' = w) \/
   resp = error_response 500 "INTERNAL_ERROR").
Proof.
  unfold PATCH. intros Hpk Hdense E.
  destruct (negb (supabase_available req)); [inversion E; auto|].
  destruct (auth_user req) as [uid|];
    [|inversion E; split; [reflexivity|]; right; left; cbn; auto].
  destruct (uuidParamSchema is_uuid (params_sequenceId req)) as [sid|] eqn:V1;
    [|inversion E; split; [reflexivity|]; right; left; cbn; auto].
  destruct (uuidParamSchema is_uuid (params_sequencePoseId req)) as [id|] eqn:V2;
    [|inversion E; split; [reflexivity|]; right; left; cbn; auto].
  apply uuidParamSchema_valid in V1.
  destruct (body req) as [requestBody|];
    [|inversion E; split; [reflexivity|]; right; left; cbn; auto].
  destruct (updateSequencePoseSchema requestBody) as [cmd|] eqn:P;
    [|inversion E; split; [reflexivity|]; right; left; cbn; auto].
  pose proof (Hdense sid V1) as Hd.
  destruct (updateSequencePose uid sid id cmd w) as [[dto|[m|c]] w1] eqn:R;
    inversion E; subst; clear E;
    (split; [exact (updateSequencePose_db _ _ _ _ _ _ _ Hpk Hd R)|]).
  - pose proof (updateSequencePose_success _ _ _ _ _ _ _ Hpk Hd R). subst.
    destruct (updateSequencePose_ok_inv _ _ _ _ _ _ _ Hpk Hd R) as (Hdur & Hins & Hpos).
    pose proof (updateSequencePoseSchema_defined _ _ P) as Hdef.
    rewrite Hdur, Hins in Hdef. cbn [is_defined] in Hdef. rewrite !orb_false_r in Hdef.
    destruct (upd_position cmd) as [p|] eqn:Hp; [|discriminate].
    rewrite (Hpos p eq_refl) in Hp.
    left. exists uid, sid, id, requestBody, cmd, dto. auto 10.
  - pose proof (updateSequencePose_fail_fast _ _ _ _ _ _ _ Hpk Hd R). subst.
    unfold PATCH_catch.
    destruct (String.eqb m "SEQUENCE_NOT_FOUND"); [right; left; cbn; auto|].
    destruct (String.eqb m "SEQUENCE_POSE_NOT_FOUND"); [right; left; cbn; auto|].
    destruct (String.eqb m "INVALID_POSITION"); [right; left; cbn; auto|].
    destruct (String.eqb m "DURATION_AND_INSTRUCTIONS_NOT_SUPPORTED");
      [right; left; cbn; auto | auto].
  - auto.
Qed.

Lemma PATCH_outcomes_witness :
  exists w',
    PATCH uuid_any (alice_request "A" (JObject [("position", JNumber (JInt 3))])) abcd
    = (error_response 500 "INTERNAL_ERROR", w') /\ db w' = db abcd.
Proof.
  destruct (PATCH uuid_any (alice_request "A" (JObject [("position", JNumber (JInt 3))]))
                  abcd) as [resp w'] eqn:E.
  exists w'.
  destruct (PATCH_outcomes uuid_any
              (alice_request "A" (JObject [("position", JNumber (JInt 3))]))
              abcd resp w') as [Hdb _].
  - apply distinct_NoDup with (eqb := same); [apply same_true | reflexivity].
  - intros sid H. inversion H; subst. apply denseb_sound; reflexivity.
  - exact E.
  - split; [|exact Hdb]. vm_compute in E. inversion E. reflexivity.
Defined.

(** What POST answers when the addressed sequence is dense, on a store whose
    rows have distinct ids: 201 with the entry [addPoseToSequence] returned
    for the authenticated user, the path parameter and the parsed body; or a
    client error 400, 401 or 404, and then nothing was written and no
    statement was issued; or 500 INTERNAL_ERROR. *)
Theorem POST_outcomes (is_uuid : string -> bool) (newId : Id) (req : Request)
        (w : World) (resp : Response) (w' : World) :
  NoDup (map sp_id (sequence_poses (db w))) ->
  (forall sid, params_sequenceId req = Some sid -> dense sid (db w)) ->
  POST is_uuid newId req w = (resp, w') ->
  (exists uid sid requestBody cmd dto,
     resp = mkResponse 201 None (Some dto) /\
     auth_user req = Some uid /\ params_sequenceId req = Some sid /\
     body req = Some requestBody /\
     addPoseToSequenceSchema is_uuid requestBody = Valid cmd /\
     addPoseToSequence newId uid sid cmd w = (Ok dto, w')) \/
  (In (status resp) [400; 401; 404] /\ payload resp = None /\ w' = w) \/
  resp = error_response 500 "INTERNAL_ERROR".
Proof.
  unfold POST. intros Hpk Hdense E.
  destruct (negb (supabase_available req)); [inversion E; auto|].
  destruct (auth_user req) as [uid|];
    [|inversion E; right; left; cbn; auto].
  destruct (uuidParamSchema is_uuid (params_sequenceId req)) as [sid|] eqn:V1;
    [|inversion E; right; left; cbn; auto].
  apply uuidParamSchema_valid in V1.
  destruct (body req) as [requestBody|];
    [|inversion E; right; left; cbn; auto].
  destruct (addPoseToSequenceSchema is_uuid requestBody) as [cmd|] eqn:P;
    [|inversion E; right; left; cbn; auto].
  pose proof (Hdense sid V1) as Hd.
  destruct (addPoseToSequence newId uid sid cmd w) as [[dto|[m|c]] w1] eqn:R;
    inversion E; subst; clear E.
  - left. exists uid, sid, requestBody, cmd, dto. auto 10.
  - pose proof (addPoseToSequence_fail_fast _ _ _ _ _ _ _ Hpk Hd R). subst.
    unfold POST_catch.
    destruct (String.eqb m "SEQUENCE_NOT_FOUND"); [right; left; cbn; auto|].
    destruct (String.eqb m "POSE_NOT_FOUND"); [right; left; cbn; auto|].
    destruct (String.eqb m "POSE_VERSION_NOT_FOUND"); [right; left; cbn; auto|].
    destruct (String.eqb m "INVALID_POSITION"); [right; left; cbn; auto | auto].
  - auto.
Qed.

Lemma POST_outcomes_witness :
  POST uuid_any "E"
       (alice_request "" (JObject [("poseId", JString "p1");
                                   ("position", JNumber (JInt 6))]))
       abcd
  = (error_response 400 "INVALID_POSITION", abcd).
Proof.
  destruct (POST uuid_any "E"
              (alice_request "" (JObject [("poseId", JString "p1");
                                          ("position", JNumber (JInt 6))]))
              abcd) as [resp w'] eqn:E.
  destruct (POST_outcomes uuid_any "E"
              (alice_request "" (JObject [("poseId", JString "p1");
                                          ("position", JNumber (JInt 6))]))
              abcd resp w')
    as [(uid & sid & b & cmd & dto & Hr & _)|[(_ & _ & Hw)|Hr]].
  - apply distinct_NoDup with (eqb := same); [apply same_true | reflexivity].
  - intros sid H. inversion H; subst. apply denseb_sound; reflexivity.
  - exact E.
  - exfalso. subst resp. vm_compute in E. inversion E.
  - subst w'. vm_compute in E. inversion E. reflexivity.
  - exfalso. subst resp. vm_compute in E. inversion E.
Defined.

(** ** Density through the handlers *)

Lemma addPoseToSequence_run_dense newId uid sid cmd w r w' :
  consistent (db w) -> dense sid (db w) -> outage w = None ->
  ~ In newId (map sp_id (sequence_poses (db w))) ->
  match add_position cmd with Some p => 1 <= p | None => True end ->
  addPoseToSequence newId uid sid cmd w = (r, w') -> dense sid (db w').
Proof.
  intros Hc Hd Hout Hfresh Hlow E. pose proof E as E0.
  pose proof (pk_sequence_poses Hc) as Hpk.
  rewrite (addPoseToSequence_unfold _ _ _ _ _ Hd) in E.
  pose proof (verifySequenceOwnership_reads sid uid w) as R1.
  destruct (verifySequenceOwnership sid uid w) as [[s|e] w1] eqn:Ever;
    cbn [fst snd] in *; subst w1; [|inversion E; subst; exact Hd].
  pose proof (resolvePoseVersion_reads (add_poseId cmd) (add_poseVersion cmd) w) as R2.
  destruct (resolvePoseVersion (add_poseId cmd) (add_poseVersion cmd) w)
    as [[V|e] w1] eqn:Eres;
    cbn [fst snd] in *; subst w1; [|inversion E; subst; exact Hd].
  cbv zeta in E.
  destruct (count sid (db w) + 1 <? insert_position sid (db w) cmd) eqn:G;
    [inversion E; subst; exact Hd|].
  apply Z.ltb_ge in G. clear E.
  destruct (addPoseToSequence_total newId uid sid cmd w s V Hc Hd Hout Ever Eres
              Hfresh G) as (dto & w2 & Et).
  rewrite Et in E0. inversion E0; subst.
  destruct (addPoseToSequence_success _ _ _ _ _ _ _ Hpk Hd Et)
    as (V' & _ & _ & _ & Hev & _).
  destruct Hev as (_ & _ & _ & Hrows & _).
  refine (proj1 (dense_after_insert sid (db w) (db w') _ _ Hd _ Hrows eq_refl eq_refl)).
  split; [|exact G]. unfold insert_position in *.
  destruct (add_position cmd); [exact Hlow | unfold count; lia].
Qed.

Lemma removeSequencePose_run_dense uid sid id w r w' :
  consistent (db w) -> dense sid (db w) -> outage w = None ->
  removeSequencePose uid sid id w = (r, w') -> dense sid (db w').
Proof.
  intros Hc Hd Hout E. pose proof (pk_sequence_poses Hc) as Hpk.
  rewrite removeSequencePose_unfold in E.
  destruct (fst (verifySequenceOwnership sid uid w)); [|inversion E; subst; exact Hd].
  destruct (maybeSingle _) as [[e0|]|err] eqn:L;
    try (inversion E; subst; exact Hd).
  apply entry_lookup_inv in L. destruct L as [He <-].
  destruct (remove_phases sid e0 w Hpk Hd He) as [Hrun Hgo].
  destruct (Hgo Hout) as [w2 E2]. rewrite E2 in E. inversion E; subst.
  destruct (Hrun w' E2) as (_ & _ & _ & Hrows & _).
  now apply (dense_after_remove sid (db w) (db w') e0).
Qed.

(** Through the handlers the dense positions are safe.  On a consistent
    store that is reachable, with the addressed sequence dense, every POST
    (the generated id being new), PATCH and DELETE request, whatever its
    parameters and body and whatever the answer, leaves the sequence dense:
    the lower bound [addPoseToSequence] does not check is checked by the
    schema before it is called. *)
Theorem handlers_keep_dense (is_uuid : string -> bool) (w : World) (sid : Id) :
  consistent (db w) -> dense sid (db w) -> outage w = None ->
  (forall newId req resp w',
     params_sequenceId req = Some sid ->
     ~ In newId (map sp_id (sequence_poses (db w))) ->
     POST is_uuid newId req w = (resp, w') -> dense sid (db w')) /\
  (forall req resp w',
     params_sequenceId req = Some sid ->
     PATCH is_uuid req w = (resp, w') -> dense sid (db w')) /\
  (forall req resp w',
     params_sequenceId req = Some sid ->
     DELETE is_uuid req w = (resp, w') -> dense sid (db w')).
Proof.
  intros Hc Hd Hout. pose proof (pk_sequence_poses Hc) as Hpk.
  split; [|split].
  - intros newId req resp w' Hsid Hfresh E. unfold POST in E.
    destruct (negb (supabase_available req)); [inversion E; subst; exact Hd|].
    destruct (auth_user req) as [uid|]; [|inversion E; subst; exact Hd].
    destruct (uuidParamSchema is_uuid (params_sequenceId req)) as [sid'|] eqn:V1;
      [|inversion E; subst; exact Hd].
    apply uuidParamSchema_valid in V1. rewrite Hsid in V1. inversion V1; subst sid'.
    destruct (body req) as [requestBody|]; [|inversion E; subst; exact Hd].
    destruct (addPoseToSequenceSchema is_uuid requestBody) as [cmd|] eqn:P;
      [|inversion E; subst; exact Hd].
    destruct (addPoseToSequenceSchema_accepts _ _ _ P) as [Hpos _].
    destruct (addPoseToSequence newId uid sid cmd w) as [r w1] eqn:R.
    assert (Hd1 : dense sid (db w1)).
    { apply (addPoseToSequence_run_dense newId uid sid cmd w r w1); auto.
      destruct (add_position cmd) as [p|]; [now apply Hpos | exact I]. }
    destruct r; inversion E; subst; exact Hd1.
  - intros req resp w' Hsid E.
    destruct (PATCH is_uuid req w) as [resp0 w0] eqn:R. inversion E; subst.
    unfold PATCH in R.
    destruct (negb (supabase_available req)); [inversion R; subst; exact Hd|].
    destruct (auth_user req) as [uid|]; [|inversion R; subst; exact Hd].
    destruct (uuidParamSchema is_uuid (params_sequenceId req)) as [sid'|] eqn:V1;
      [|inversion R; subst; exact Hd].
    apply uuidParamSchema_valid in V1. rewrite Hsid in V1. inversion V1; subst sid'.
    destruct (uuidParamSchema is_uuid (params_sequencePoseId req)) as [id|];
      [|inversion R; subst; exact Hd].
    destruct (body req) as [requestBody|]; [|inversion R; subst; exact Hd].
    destruct (updateSequencePoseSchema requestBody) as [cmd|];
      [|inversion R; subst; exact Hd].
    destruct (updateSequencePose uid sid id cmd w) as [r w1] eqn:U.
    pose proof (updateSequencePose_db _ _ _ _ _ _ _ Hpk Hd U) as Hdb.
    assert (Hd1 : dense sid (db w1)) by (rewrite Hdb; exact Hd).
    destruct r; inversion R; subst; exact Hd1.
  - intros req resp w' Hsid E. unfold DELETE in E.
    destruct (negb (supabase_available req)); [inversion E; subst; exact Hd|].
    destruct (auth_user req) as [uid|]; [|inversion E; subst; exact Hd].
    destruct (uuidParamSchema is_uuid (params_sequenceId req)) as [sid'|] eqn:V1;
      [|inversion E; subst; exact Hd].
    apply uuidParamSchema_valid in V1. rewrite Hsid in V1. inversion V1; subst sid'.
    destruct (uuidParamSchema is_uuid (params_sequencePoseId req)) as [id|];
      [|inversion E; subst; exact Hd].
    destruct (removeSequencePose uid sid id w) as [r w1] eqn:R.
    pose proof (removeSequencePose_run_dense _ _ _ _ _ _ Hc Hd Hout R) as Hd1.
    destruct r; inversion E; subst; exact Hd1.
Qed.

Lemma handlers_keep_dense_witness :
  exists resp w',
    POST uuid_any "E"
         (alice_request "" (JObject [("poseId", JString "p1");
                                     ("position", JNumber (JInt 2))]))
         abcd
    = (resp, w') /\ status resp = 201 /\ dense "s1" (db w').
Proof.
  destruct (POST uuid_any "E"
              (alice_request "" (JObject [("poseId", JString "p1");
                                          ("position", JNumber (JInt 2))]))
              abcd) as [resp w'] eqn:E.
  exists resp, w'. split; [reflexivity|].
  split; [vm_compute in E; inversion E; reflexivity|].
  destruct (handlers_keep_dense uuid_any abcd "s1") as (Hpost & _ & _).
  - apply consistentb_sound; reflexivity.
  - apply denseb_sound; reflexivity.
  - reflexivity.
  - apply (Hpost "E"
             (alice_request "" (JObject [("poseId", JString "p1");
                                         ("position", JNumber (JInt 2))]))
             resp w'); [reflexivity | | exact E].
    simpl. intros [H|[H|[H|[H|[]]]]]; discriminate.
Defined.

(** ** The rate limiter: the map *)

Lemma map_get_set_same u v (m : Requests) : map_get u (map_set u v m) = Some v.
Proof.
  unfold map_get. induction m as [|[k x] rest IH]; cbn.
  - now rewrite String.eqb_refl.
  - destruct (String.eqb k u) eqn:E; cbn; rewrite E; [reflexivity | exact IH].
Qed.

Lemma map_get_set_other u u' v (m : Requests) :
  u' <> u -> map_get u' (map_set u v m) = map_get u' m.
Proof.
  intros Hne. unfold map_get. induction m as [|[k x] rest IH]; cbn.
  - replace (String.eqb u u') with false; [reflexivity|].
    symmetry. apply String.eqb_neq. congruence.
  - destruct (String.eqb k u) eqn:E; cbn.
    + apply String.eqb_eq in E. subst k.
      replace (String.eqb u u') with false; [reflexivity|].
      symmetry. apply String.eqb_neq. congruence.
    + destruct (String.eqb k u'); [reflexivity | exact IH].
Qed.

Lemma kept_set_same u v m : kept u (map_set u v m) = v.
Proof. unfold kept. now rewrite map_get_set_same. Qed.

Lemma kept_set_other u u' v m : u' <> u -> kept u' (map_set u v m) = kept u' m.
Proof. intros H. unfold kept. now rewrite map_get_set_other. Qed.

Lemma map_set_In u v (m : Requests) k l :
  In (k, l) (map_set u v m) -> (k, l) = (u, v) \/ In (k, l) m.
Proof.
  induction m as [|[k0 x] rest IH]; cbn.
  - intros [E|[]]. left. now symmetry.
  - destruct (String.eqb k0 u) eqn:E; cbn.
    + apply String.eqb_eq in E. subst k0. intros [H|H]; [left; now symmetry | auto].
    + intros [H|H]; [auto|]. destruct (IH H); auto.
Qed.

Lemma map_set_keys u v (m : Requests) :
  map fst (map_set u v m) = map fst m \/
  (~ In u (map fst m) /\ map fst (map_set u v m) = map fst m ++ [u]).
Proof.
  induction m as [|[k x] rest IH]; cbn.
  - right. auto.
  - destruct (String.eqb k u) eqn:E; cbn; [now left|].
    apply String.eqb_neq in E.
    destruct IH as [IH|[Hn IH]]; rewrite IH; [now left|].
    right. split; [|reflexivity]. intros [H|H]; auto.
Qed.

Lemma map_set_NoDup u v (m : Requests) :
  NoDup (map fst m) -> NoDup (map fst (map_set u v m)).
Proof.
  intros H. destruct (map_set_keys u v m) as [E|[Hn E]]; rewrite E; [exact H|].
  now apply NoDup_snoc.
Qed.

Lemma kept_absent u (m : Requests) : ~ In u (map fst m) -> kept u m = [].
Proof.
  intros H. unfold kept, map_get.
  destruct (find _ m) as [kv|] eqn:F; [|reflexivity].
  apply find_some in F. destruct F as [Hin E]. apply String.eqb_eq in E.
  exfalso. apply H. rewrite <- E. now apply in_map.
Qed.

Lemma kept_In u l (m : Requests) : NoDup (map fst m) -> In (u, l) m -> kept u m = l.
Proof.
  unfold kept, map_get. induction m as [|[k x] rest IH]; cbn; [tauto|].
  intros Hnd [H|H]; inversion Hnd as [|? ? Hk Hrest]; subst.
  - inversion H; subst. now rewrite String.eqb_refl.
  - destruct (String.eqb k u) eqn:E; [|now apply IH].
    apply String.eqb_eq in E. subst k. exfalso. apply Hk.
    change u with (fst (u, l)). now apply in_map.
Qed.

Lemma map_delete_absent u (m : Requests) : ~ In u (map fst m) -> map_delete u m = m.
Proof.
  intros H. apply filter_all. intros [k x] Hin. cbn.
  apply negb_true_iff, String.eqb_neq. intros E. apply H. subst k.
  change u with (fst (u, x)). now apply in_map.
Qed.

Lemma map_set_absent u v (m : Requests) :
  ~ In u (map fst m) -> map_set u v m = m ++ [(u, v)].
Proof.
  induction m as [|[k x] rest IH]; cbn; intros H; [reflexivity|].
  replace (String.eqb k u) with false
    by (symmetry; apply String.eqb_neq; intros E; apply H; auto).
  f_equal. apply IH. intros Hin. apply H. auto.
Qed.

(** ** The rate limiter: [cleanup] *)

Lemma swept_keys config now (m : Requests) u :
  In u (map fst (swept config now m)) -> In u (map fst m).
Proof.
  unfold swept. intros H. apply in_map_iff in H. destruct H as [[k l] [E H]].
  apply filter_In in H. destruct H as [H _]. apply in_map_iff in H.
  destruct H as [[k0 l0] [E0 H0]]. cbn in E, E0. inversion E0; subst.
  change u with (fst (u, l0)). now apply in_map.
Qed.

Lemma swept_NoDup config now (m : Requests) :
  NoDup (map fst m) -> NoDup (map fst (swept config now m)).
Proof.
  intros H. unfold swept. apply NoDup_map_filter. rewrite map_map. cbn. exact H.
Qed.

Lemma cleanup_loop config now : forall todo pre,
  NoDup (map fst (pre ++ todo)) ->
  fold_left
    (fun m entry =>
       match filter (recent config now) (snd entry) with
       | [] => map_delete (fst entry) m
       | recentRequests => map_set (fst entry) recentRequests m
       end)
    todo (pre ++ todo)
  = pre ++ swept config now todo.
Proof.
  induction todo as [|[k v] rest IH]; intros pre Hnd; cbn [fold_left].
  - reflexivity.
  - rewrite map_app in Hnd. cbn [map fst] in Hnd.
    pose proof (NoDup_remove_2 _ _ _ Hnd) as Hk.
    pose proof (NoDup_remove_1 _ _ _ Hnd) as Hrest.
    assert (Hpre : ~ In k (map fst pre)) by (intros H; apply Hk, in_or_app; auto).
    assert (Hr : ~ In k (map fst rest)) by (intros H; apply Hk, in_or_app; auto).
    cbn [fst snd]. unfold swept. cbn [map filter fst snd]. fold (swept config now rest).
    destruct (filter (recent config now) v) as [|t ts] eqn:F.
    + replace (map_delete k (pre ++ (k, v) :: rest)) with (pre ++ rest).
      * apply IH. now rewrite map_app.
      * unfold map_delete. rewrite filter_app. cbn [filter fst].
        rewrite String.eqb_refl. cbn [negb].
        fold (map_delete k pre). fold (map_delete k rest).
        now rewrite !map_delete_absent.
    + replace (map_set k (t :: ts) (pre ++ (k, v) :: rest))
        with ((pre ++ [(k, t :: ts)]) ++ rest).
      * rewrite IH; [now rewrite <- app_assoc|].
        rewrite !map_app. cbn [map fst]. now rewrite <- app_assoc.
      * rewrite <- app_assoc. cbn [app]. clear - Hpre.
        induction pre as [|[k0 x] pre IH]; cbn.
        -- now rewrite String.eqb_refl.
        -- replace (String.eqb k0 k) with false
             by (symmetry; apply String.eqb_neq; intros E; apply Hpre; cbn; auto).
           f_equal. apply IH. intros H. apply Hpre. cbn. auto.
Qed.

Lemma cleanup_swept config now (m : Requests) :
  NoDup (map fst m) -> cleanup config now m = swept config now m.
Proof. intros H. apply (cleanup_loop config now m []). exact H. Qed.

Lemma kept_swept config now (m : Requests) u :
  NoDup (map fst m) ->
  kept u (swept config now m) = filter (recent config now) (kept u m).
Proof.
  induction m as [|[k v] rest IH]; intros Hnd; [reflexivity|].
  inversion Hnd as [|? ? Hk Hrest]; subst.
  unfold swept. cbn [map filter fst snd]. fold (swept config now rest).
  destruct (String.eqb k u) eqn:E.
  - apply String.eqb_eq in E. subst k.
    replace (kept u ((u, v) :: rest)) with v
      by (unfold kept, map_get; cbn; now rewrite String.eqb_refl).
    destruct (filter (recent config now) v) as [|t ts] eqn:F.
    + apply kept_absent. intros H. apply Hk. eapply swept_keys; eauto.
    + unfold kept, map_get. cbn. now rewrite String.eqb_refl.
  - replace (kept u ((k, v) :: rest)) with (kept u rest)
      by (unfold kept, map_get; cbn; now rewrite E).
    destruct (filter (recent config now) v) as [|t ts] eqn:F; [now apply IH|].
    replace (kept u ((k, t :: ts) :: swept config now rest))
      with (kept u (swept config now rest))
      by (unfold kept, map_get; cbn; now rewrite E).
    now apply IH.
Qed.

(** ** The rate limiter: what is kept and what was granted *)

Lemma filter_recent_later config t T (l : list Z) :
  t <= T ->
  filter (recent config T) (filter (recent config t) l) = filter (recent config T) l.
Proof.
  intros H. induction l as [|x rest IH]; cbn [filter]; [reflexivity|].
  destruct (recent config t x) eqn:A; cbn [filter]; rewrite IH; [reflexivity|].
  replace (recent config T x) with false; [reflexivity|].
  symmetry. unfold recent in *. apply Z.ltb_ge. apply Z.ltb_ge in A. lia.
Qed.

Lemma filter_idem {A} (f : A -> bool) (l : list A) : filter f (filter f l) = filter f l.
Proof.
  induction l as [|x rest IH]; cbn [filter]; [reflexivity|].
  destruct (f x) eqn:E; cbn [filter]; rewrite ?E, IH; reflexivity.
Qed.

Lemma run_snoc config calls c :
  run config (calls ++ [c]) = serve config (run config calls) c.
Proof. unfold run. now rewrite fold_left_app. Qed.

Lemma serve_check config l now u :
  serve config l (CallCheck now u)
  = mkLimiter (snd (check config now u (requests_of l)))
              (answers l ++ [(now, u, fst (check config now u (requests_of l)))]).
Proof. cbn [serve]. now destruct (check config now u (requests_of l)). Qed.

Lemma granted_snoc u log now u0 res :
  granted u (log ++ [(now, u0, res)])
  = granted u log ++ (if String.eqb u0 u && allowed res then [now] else []).
Proof.
  unfold granted. rewrite filter_app, map_app. cbn [filter fst snd].
  now destruct (String.eqb u0 u && allowed res).
Qed.

(** The two branches of [check]. *)
Lemma check_unfold config now u m :
  check config now u m
  = if Z.of_nat (List.length (filter (recent config now) (kept u m)))
       <? maxRequests config
    then (mkRateLimitResult true
            (maxRequests config
             - (Z.of_nat (List.length (filter (recent config now) (kept u m))) + 1))
            None,
          map_set u (filter (recent config now) (kept u m) ++ [now]) m)
    else (mkRateLimitResult false 0
            (Some (match min_of (filter (recent config now) (kept u m)) with
                   | Finite oldest =>
                       Finite (ceil_seconds (oldest + windowMs config - now))
                   | Infinity => Infinity
                   end)),
          m).
Proof.
  unfold check. cbv zeta. rewrite Z.leb_antisym.
  destruct (_ <? _); cbn [negb]; [|reflexivity].
  rewrite length_app. cbn [List.length]. do 3 f_equal. lia.
Qed.

Lemma run_keys config calls : NoDup (map fst (requests_of (run config calls))).
Proof.
  induction calls as [|c calls IH] using rev_ind; [constructor|].
  rewrite run_snoc. destruct c as [now u|now].
  - rewrite serve_check. cbn [requests_of]. rewrite check_unfold.
    destruct (_ <? _); cbn [snd]; [now apply map_set_NoDup | exact IH].
  - cbn [serve requests_of]. rewrite cleanup_swept by exact IH.
    now apply swept_NoDup.
Qed.

(** Of the timestamps still inside the window, the map keeps for a user
    exactly the times at which the user's requests were let through. *)
Lemma kept_granted config calls : forall T u,
  (forall c, In c calls -> call_time c <= T) ->
  filter (recent config T) (kept u (requests_of (run config calls)))
  = filter (recent config T) (granted u (answers (run config calls))).
Proof.
  induction calls as [|c calls IH] using rev_ind; intros T u HT; [reflexivity|].
  assert (HT' : forall c', In c' calls -> call_time c' <= T)
    by (intros c' H; apply HT, in_or_app; auto).
  assert (Hc : call_time c <= T) by (apply HT, in_or_app; simpl; auto).
  specialize (IH T). rewrite run_snoc. destruct c as [now u0|now]; cbn in Hc.
  - rewrite serve_check. cbn [requests_of answers]. rewrite granted_snoc.
    rewrite check_unfold. destruct (_ <? _); cbn [fst snd allowed].
    + destruct (String.eqb u0 u) eqn:E; cbn [andb].
      * apply String.eqb_eq in E. subst u0. rewrite kept_set_same.
        rewrite !filter_app, filter_recent_later by exact Hc.
        now rewrite IH.
      * rewrite app_nil_r, kept_set_other; [now apply IH|].
        apply String.eqb_neq in E. congruence.
    + rewrite andb_false_r, app_nil_r. now apply IH.
  - cbn [serve requests_of answers].
    rewrite cleanup_swept, kept_swept by apply run_keys.
    rewrite filter_recent_later by exact Hc. now apply IH.
Qed.

Lemma check_answer config calls now userId :
  (forall c, In c calls -> call_time c <= now) ->
  fst (check config now userId (requests_of (run config calls)))
  = let within := filter (recent config now)
                         (granted userId (answers (run config calls))) in
    let n := Z.of_nat (List.length within) in
    if n <? maxRequests config
    then mkRateLimitResult true (maxRequests config - (n + 1)) None
    else mkRateLimitResult false 0
           (Some (match min_of within with
                  | Finite oldest =>
                      Finite (ceil_seconds (oldest + windowMs config - now))
                  | Infinity => Infinity
                  end)).
Proof.
  intros H. rewrite check_unfold, (kept_granted config calls now userId H). cbv zeta.
  now destruct (_ <? _).
Qed.

(** The sliding window: a check whose clock reading is not earlier than
    those of the calls before it is answered from the user's own history
    alone.  It is allowed exactly when fewer than [maxRequests] of the user's
    earlier requests were let through within the last [windowMs]
    milliseconds; [remaining] then counts the requests left after this one;
    a refusal reports 0 remaining and the seconds until the oldest of those
    requests leaves the window. *)
Theorem check_sliding_window (config : RateLimitConfig) (calls : list Call)
        (now : Z) (userId : string) :
  (forall c, In c calls -> call_time c <= now) ->
  fst (check config now userId (requests_of (run config calls)))
  = let within := filter (recent config now)
                         (granted userId (answers (run config calls))) in
    let n := Z.of_nat (List.length within) in
    if n <? maxRequests config
    then mkRateLimitResult true (maxRequests config - (n + 1)) None
    else mkRateLimitResult false 0
           (Some (match min_of within with
                  | Finite oldest =>
                      Finite (ceil_seconds (oldest + windowMs config - now))
                  | Infinity => Infinity
                  end)).
Proof.
  intros Hclock. rewrite check_unfold.
  rewrite (kept_granted config calls now userId Hclock). cbv zeta.
  now destruct (_ <? _).
Qed.

Lemma check_sliding_window_witness :
  fst (check aiGenerationRateLimiter 5000 "u"
             (requests_of (run aiGenerationRateLimiter five_requests)))
  = mkRateLimitResult false 0 (Some (Finite 3595)).
Proof.
  rewrite (check_sliding_window aiGenerationRateLimiter five_requests 5000 "u").
  - reflexivity.
  - simpl. intros c [<-|[<-|[<-|[<-|[<-|[]]]]]]; simpl; lia.
Defined.

Lemma sorted_snoc_inv {A} (R : A -> A -> Prop) (l : list A) x :
  StronglySorted R (l ++ [x]) -> StronglySorted R l /\ Forall (fun y => R y x) l.
Proof.
  induction l as [|a l IH]; cbn; intros H; [split; constructor|].
  inversion H as [|? ? Hs Hall]; subst. destruct (IH Hs) as [H1 H2].
  split; constructor; auto.
  - rewrite Forall_forall in *. intros y Hy. apply Hall, in_or_app. auto.
  - rewrite Forall_forall in Hall. apply Hall, in_or_app. simpl. auto.
Qed.

Lemma calls_snoc_inv calls c :
  StronglySorted Z.le (map call_time (calls ++ [c])) ->
  StronglySorted Z.le (map call_time calls) /\
  forall c', In c' calls -> call_time c' <= call_time c.
Proof.
  rewrite map_app. cbn [map]. intros H. apply sorted_snoc_inv in H.
  destruct H as [H1 H2]. split; [exact H1|].
  intros c' Hc'. rewrite Forall_forall in H2. apply H2. now apply in_map.
Qed.

Lemma filter_length_imp {A} (f g : A -> bool) (l : list A) :
  (forall x, f x = true -> g x = true) ->
  (List.length (filter f l) <= List.length (filter g l))%nat.
Proof.
  intros H. induction l as [|x rest IH]; cbn [filter]; [lia|].
  destruct (f x) eqn:F.
  - rewrite (H x F). cbn [List.length]. lia.
  - destruct (g x); cbn [List.length]; lia.
Qed.

(** The limit: when the clock never runs backwards, no user gets more than
    [maxRequests] requests through in any window of [windowMs]
    milliseconds, whatever series of checks (of any users) and cleanups is
    made on a new limiter. *)
Theorem rate_limit_respected (config : RateLimitConfig) (calls : list Call)
        (userId : string) (T : Z) :
  StronglySorted Z.le (map call_time calls) ->
  Z.of_nat (List.length
              (filter (fun t => (T - windowMs config <? t) && (t <=? T))
                      (granted userId (answers (run config calls)))))
  <= Z.max 0 (maxRequests config).
Proof.
  induction calls as [|c calls IH] using rev_ind; intros Hs; [cbn; lia|].
  apply calls_snoc_inv in Hs. destruct Hs as [Hs Hle]. specialize (IH Hs).
  rewrite run_snoc. destruct c as [now u0|now]; [|exact IH].
  rewrite serve_check. cbn [answers]. rewrite granted_snoc.
  destruct (String.eqb u0 userId) eqn:E; cbn [andb];
    [|now rewrite app_nil_r].
  apply String.eqb_eq in E. subst u0.
  cbn [call_time] in Hle. rewrite (check_answer config calls now userId Hle).
  cbv zeta.
  destruct (_ <? _) eqn:L; cbn [allowed]; [|now rewrite app_nil_r].
  apply Z.ltb_lt in L. rewrite filter_app, length_app. cbn [filter].
  destruct ((T - windowMs config <? now) && (now <=? T)) eqn:W;
    cbn [List.length]; [|lia].
  apply andb_prop in W. destruct W as [_ W]. apply Z.leb_le in W.
  pose proof (filter_length_imp
                (fun t => (T - windowMs config <? t) && (t <=? T))
                (recent config now)
                (granted userId (answers (run config calls)))) as Hsub.
  assert (Himp : forall x, (T - windowMs config <? x) && (x <=? T) = true ->
                           recent config now x = true).
  { intros x Hx. apply andb_prop in Hx. destruct Hx as [Hx _].
    unfold recent. apply Z.ltb_lt. apply Z.ltb_lt in Hx. lia. }
  specialize (Hsub Himp).
  lia.
Qed.

Lemma rate_limit_respected_witness :
  Z.of_nat (List.length
              (filter (fun t => (4000 - 3600000 <? t) && (t <=? 4000))
                      (granted "u"
                         (answers (run aiGenerationRateLimiter
                                       (five_requests ++ [CallCheck 5000 "u"]))))))
  <= 5.
Proof.
  apply (rate_limit_respected aiGenerationRateLimiter
           (five_requests ++ [CallCheck 5000 "u"]) "u" 4000).
  cbn. repeat constructor; lia.
Defined.

(** ** The rate limiter: refusals and [retryAfter] *)

Lemma run_bounded config calls u :
  Z.of_nat (List.length (kept u (requests_of (run config calls))))
  <= Z.max 0 (maxRequests config).
Proof.
  induction calls as [|c calls IH] using rev_ind; [cbn; lia|].
  rewrite run_snoc. destruct c as [now u0|now].
  - rewrite serve_check. cbn [requests_of]. rewrite check_unfold.
    destruct (_ <? _) eqn:L; cbn [snd]; [|exact IH].
    apply Z.ltb_lt in L. destruct (String.eqb u0 u) eqn:E.
    + apply String.eqb_eq in E. subst u0. rewrite kept_set_same, length_app.
      cbn [List.length]. lia.
    + rewrite kept_set_other; [exact IH|]. apply String.eqb_neq in E. congruence.
  - cbn [serve requests_of]. rewrite cleanup_swept, kept_swept by apply run_keys.
    pose proof (filter_length_le (recent config now)
                  (kept u (requests_of (run config calls)))). lia.
Qed.

Lemma kept_times config calls u x :
  In x (kept u (requests_of (run config calls))) ->
  exists c, In c calls /\ call_time c = x.
Proof.
  revert x. induction calls as [|c calls IH] using rev_ind; intros x; [intros []|].
  assert (Hold : In x (kept u (requests_of (run config calls))) ->
                 exists c0, In c0 (calls ++ [c]) /\ call_time c0 = x).
  { intros H. destruct (IH x H) as [c0 [H0 E0]]. exists c0.
    split; [apply in_or_app; auto | exact E0]. }
  rewrite run_snoc. destruct c as [now u0|now].
  - rewrite serve_check. cbn [requests_of]. rewrite check_unfold.
    destruct (_ <? _); cbn [snd]; [|exact Hold].
    destruct (String.eqb u0 u) eqn:E.
    + apply String.eqb_eq in E. subst u0. rewrite kept_set_same. intros H.
      apply in_app_or in H. destruct H as [H|[H|[]]].
      * apply filter_In in H. apply Hold. tauto.
      * exists (CallCheck now u). split; [apply in_or_app; simpl; auto | exact H].
    + rewrite kept_set_other; [exact Hold|]. apply String.eqb_neq in E. congruence.
  - cbn [serve requests_of]. rewrite cleanup_swept, kept_swept by apply run_keys.
    intros H. apply filter_In in H. apply Hold. tauto.
Qed.

Lemma min_of_In (l : list Z) :
  l <> [] -> exists m, min_of l = Finite m /\ In m l /\ forall x, In x l -> m <= x.
Proof.
  induction l as [|a rest IH]; [congruence|]. intros _. cbn [min_of].
  destruct rest as [|b rest'].
  - exists a. cbn. split; [reflexivity|]. split; [auto|]. intros x [<-|[]]. lia.
  - destruct IH as (m & E & Hin & Hmin); [discriminate|]. rewrite E.
    exists (Z.min a m). split; [reflexivity|]. split.
    + destruct (Z.min_spec a m) as [[_ ->]|[_ ->]]; [left; reflexivity | right; exact Hin].
    + intros x [<-|Hx]; [lia|]. specialize (Hmin x Hx). lia.
Qed.

Lemma filter_length_lt {A} (f : A -> bool) (l : list A) x :
  In x l -> f x = false -> (List.length (filter f l) < List.length l)%nat.
Proof.
  induction l as [|a rest IH]; cbn [filter In List.length]; [tauto|].
  intros [->|H] F.
  - rewrite F. pose proof (filter_length_le f rest). lia.
  - specialize (IH H F). destruct (f a); cbn [List.length]; lia.
Qed.

Lemma ceil_seconds_spec a : a <= 1000 * ceil_seconds a < a + 1000.
Proof.
  unfold ceil_seconds.
  pose proof (Z_div_mod_eq_full (- a) 1000).
  pose proof (Z.mod_pos_bound (- a) 1000). lia.
Qed.

(** A refusal tells when to come back: on a limiter that allows at least one
    request, a refused check reports a whole number of seconds, at least 1
    (and no more than the window rounded up, when the clock has not run
    backwards); repeated on the same limiter that many seconds later, or
    any time after, the check is allowed. *)
Theorem retry_after_suffices (config : RateLimitConfig) (calls : list Call)
        (now : Z) (userId : string) :
  1 <= maxRequests config ->
  allowed (fst (check config now userId (requests_of (run config calls)))) = false ->
  exists s,
    retryAfter (fst (check config now userId (requests_of (run config calls))))
    = Some (Finite s) /\
    1 <= s /\
    ((forall c, In c calls -> call_time c <= now) ->
     s <= ceil_seconds (windowMs config)) /\
    forall later, now + 1000 * s <= later ->
      allowed (fst (check config later userId (requests_of (run config calls))))
      = true.
Proof.
  intros Hmax. rewrite check_unfold.
  set (m := requests_of (run config calls)).
  set (within := filter (recent config now) (kept userId m)).
  destruct (_ <? _) eqn:L; cbn [fst allowed retryAfter]; [discriminate|].
  intros _. apply Z.ltb_ge in L.
  destruct (min_of_In within) as (oldest & E & Hin & Hmin).
  { intros N. rewrite N in L. cbn in L. lia. }
  rewrite E. exists (ceil_seconds (oldest + windowMs config - now)).
  pose proof (ceil_seconds_spec (oldest + windowMs config - now)) as Hceil.
  assert (Hrec : now - windowMs config < oldest).
  { apply filter_In in Hin. destruct Hin as [_ R]. now apply Z.ltb_lt in R. }
  split; [reflexivity|]. split; [lia|]. split.
  - intros Hclock.
    assert (oldest <= now).
    { apply filter_In in Hin. destruct Hin as [Hin _].
      apply kept_times in Hin. destruct Hin as [c [Hc <-]]. now apply Hclock. }
    pose proof (ceil_seconds_spec (windowMs config)). lia.
  - intros later Hlater. rewrite check_unfold. fold m.
    replace (Z.of_nat (List.length (filter (recent config later) (kept userId m)))
             <? maxRequests config) with true; [reflexivity|].
    symmetry. apply Z.ltb_lt.
    rewrite <- (filter_recent_later config now later) by lia. fold within.
    assert (Hout : recent config later oldest = false)
      by (unfold recent; apply Z.ltb_ge; lia).
    pose proof (filter_length_lt _ _ _ Hin Hout) as Hlt.
    pose proof (filter_length_le (recent config now) (kept userId m)) as Hle.
    pose proof (run_bounded config calls userId) as Hbound.
    fold m in Hbound. fold within in Hle. lia.
Qed.

Lemma retry_after_suffices_witness :
  retryAfter (fst (check aiGenerationRateLimiter 5000 "u"
                         (requests_of (run aiGenerationRateLimiter five_requests))))
  = Some (Finite 3595) /\
  allowed (fst (check aiGenerationRateLimiter (5000 + 1000 * 3595) "u"
                      (requests_of (run aiGenerationRateLimiter five_requests))))
  = true.
Proof.
  destruct (retry_after_suffices aiGenerationRateLimiter five_requests 5000 "u")
    as (s & E & _ & _ & Hlater).
  - cbn. lia.
  - reflexivity.
  - split; [reflexivity|].
    assert (s = 3595) by (vm_compute in E; congruence). subst s.
    apply Hlater. lia.
Defined.

(** ** The rate limiter: [remaining] *)

Lemma repeat_snoc {A} (x : A) n : repeat x (S n) = repeat x n ++ [x].
Proof. induction n as [|n IH]; cbn [repeat app]; [reflexivity|]. now rewrite <- IH. Qed.

(** Checks of one user at one instant, as long as they are allowed: each
    adds its timestamp to the window. *)
Lemma consecutive_checks config calls now u :
  0 < windowMs config -> (forall c, In c calls -> call_time c <= now) ->
  forall j,
    Z.of_nat j
    <= maxRequests config
       - Z.of_nat (List.length (filter (recent config now)
                                       (granted u (answers (run config calls))))) ->
    filter (recent config now)
           (granted u (answers (run config (calls ++ repeat (CallCheck now u) j))))
    = filter (recent config now) (granted u (answers (run config calls)))
      ++ repeat now j.
Proof.
  intros HW Hclock. induction j as [|j IH]; intros Hj.
  - cbn [repeat]. now rewrite !app_nil_r.
  - specialize (IH ltac:(lia)).
    rewrite repeat_snoc, app_assoc, run_snoc, serve_check. cbn [answers].
    rewrite granted_snoc, String.eqb_refl. cbn [andb].
    rewrite (check_answer config (calls ++ repeat (CallCheck now u) j) now u).
    + cbv zeta. rewrite IH, length_app, repeat_length.
      replace (_ <? maxRequests config) with true by (symmetry; apply Z.ltb_lt; lia).
      cbn [allowed]. rewrite filter_app, IH. cbn [filter].
      replace (recent config now now) with true
        by (symmetry; unfold recent; apply Z.ltb_lt; lia).
      now rewrite <- app_assoc, <- repeat_snoc.
    + intros c Hc. apply in_app_or in Hc. destruct Hc as [Hc|Hc]; [now apply Hclock|].
      apply repeat_spec in Hc. subst c. cbn. lia.
Qed.

(** [remaining] is honest.  With a window of positive length, after a check
    that is allowed and reports [remaining = r], exactly [r] more requests
    of that user at that instant are let through: the check after [m] of
    them is allowed when [m <= r], reporting [r - m], and refused when
    [m = r + 1]. *)
Theorem remaining_is_honest (config : RateLimitConfig) (calls : list Call)
        (now : Z) (userId : string) (m : nat) :
  0 < windowMs config ->
  (forall c, In c calls -> call_time c <= now) ->
  allowed (fst (check config now userId (requests_of (run config calls)))) = true ->
  Z.of_nat m
  <= remaining (fst (check config now userId (requests_of (run config calls)))) + 1 ->
  allowed (fst (check config now userId
                      (requests_of (run config
                                        (calls ++ repeat (CallCheck now userId) m)))))
  = (Z.of_nat m
     <=? remaining (fst (check config now userId (requests_of (run config calls))))) /\
  (Z.of_nat m
   <= remaining (fst (check config now userId (requests_of (run config calls)))) ->
   remaining (fst (check config now userId
                         (requests_of (run config
                                           (calls ++ repeat (CallCheck now userId) m)))))
   = remaining (fst (check config now userId (requests_of (run config calls))))
     - Z.of_nat m).
Proof.
  intros HW Hclock. rewrite (check_answer config calls now userId Hclock). cbv zeta.
  destruct (_ <? _) eqn:L; cbn [allowed remaining]; [|discriminate].
  intros _ Hm. apply Z.ltb_lt in L.
  rewrite (check_answer config (calls ++ repeat (CallCheck now userId) m) now userId).
  - cbv zeta. rewrite (consecutive_checks config calls now userId HW Hclock m) by lia.
    rewrite length_app, repeat_length.
    destruct (_ <? maxRequests config) eqn:A; cbn [allowed remaining].
    + apply Z.ltb_lt in A. split; [symmetry; apply Z.leb_le; lia | intros _; lia].
    + apply Z.ltb_ge in A. split; [symmetry; apply Z.leb_gt; lia | intros H; lia].
  - intros c Hc. apply in_app_or in Hc. destruct Hc as [Hc|Hc]; [now apply Hclock|].
    apply repeat_spec in Hc. subst c. cbn. lia.
Qed.

Lemma remaining_is_honest_witness :
  remaining (fst (check aiGenerationRateLimiter 4000 "u"
                        (requests_of (run aiGenerationRateLimiter
                                          [CallCheck 0 "u"; CallCheck 1000 "u"]))))
  = 2 /\
  allowed (fst (check aiGenerationRateLimiter 4000 "u"
                      (requests_of
                         (run aiGenerationRateLimiter
                              ([CallCheck 0 "u"; CallCheck 1000 "u"]
                               ++ repeat (CallCheck 4000 "u") 3)))))
  = false.
Proof.
  split; [reflexivity|].
  destruct (remaining_is_honest aiGenerationRateLimiter
              [CallCheck 0 "u"; CallCheck 1000 "u"] 4000 "u" 3) as [H _].
  - reflexivity.
  - simpl. intros c [<-|[<-|[]]]; simpl; lia.
  - reflexivity.
  - vm_compute. discriminate.
  - exact H.
Defined.

(** ** The rate limiter: [cleanup] is housekeeping *)

(** [cleanup] cannot be observed: when the clock never runs backwards, the
    checks of a series of calls are answered the same, field by field,
    with the cleanups of the series left out. *)
Theorem cleanup_unobservable (config : RateLimitConfig) (calls : list Call) :
  StronglySorted Z.le (map call_time calls) ->
  answers (run config calls) = answers (run config (filter is_check calls)).
Proof.
  induction calls as [|c calls IH] using rev_ind; intros Hs; [reflexivity|].
  apply calls_snoc_inv in Hs. destruct Hs as [Hs Hle]. specialize (IH Hs).
  rewrite filter_app, run_snoc. destruct c as [now u|now]; cbn [filter is_check].
  - rewrite run_snoc, !serve_check. cbn [answers call_time] in *.
    rewrite (check_answer config calls now u Hle).
    rewrite (check_answer config (filter is_check calls) now u)
      by (intros c Hc; apply filter_In in Hc; apply Hle; tauto).
    now rewrite IH.
  - rewrite app_nil_r. exact IH.
Qed.

Lemma cleanup_unobservable_witness :
  answers (run aiGenerationRateLimiter
               [CallCheck 0 "u"; CallCleanup 3600000; CallCheck 3600001 "u"])
  = answers (run aiGenerationRateLimiter [CallCheck 0 "u"; CallCheck 3600001 "u"]).
Proof.
  apply (cleanup_unobservable aiGenerationRateLimiter
           [CallCheck 0 "u"; CallCleanup 3600000; CallCheck 3600001 "u"]).
  cbn. repeat constructor; lia.
Defined.

Lemma granted_filter u (log : list (Z * string * RateLimitResult)) :
  granted u (filter (fun a => String.eqb (snd (fst a)) u) log) = granted u log.
Proof.
  unfold granted. f_equal. induction log as [|a rest IH]; [reflexivity|].
  cbn [filter]. destruct (String.eqb (snd (fst a)) u) eqn:E; cbn [filter andb].
  - rewrite E. cbn [andb]. now rewrite IH.
  - exact IH.
Qed.

(** Users do not interfere: when the clock never runs backwards, a user's
    checks are answered the same, field by field, as they would be had
    nobody else ever called the limiter. *)
Theorem users_do_not_interfere (config : RateLimitConfig) (calls : list Call)
        (userId : string) :
  StronglySorted Z.le (map call_time calls) ->
  filter (fun a => String.eqb (snd (fst a)) userId) (answers (run config calls))
  = answers (run config (filter (concerns userId) calls)).
Proof.
  induction calls as [|c calls IH] using rev_ind; intros Hs; [reflexivity|].
  apply calls_snoc_inv in Hs. destruct Hs as [Hs Hle]. specialize (IH Hs).
  rewrite filter_app, run_snoc. destruct c as [now u|now]; cbn [filter concerns].
  - rewrite serve_check. cbn [answers call_time] in *. rewrite filter_app.
    cbn [filter fst snd]. destruct (String.eqb u userId) eqn:E.
    + apply String.eqb_eq in E. subst u. rewrite run_snoc, serve_check.
      cbn [answers]. rewrite (check_answer config calls now userId Hle).
      rewrite (check_answer config (filter (concerns userId) calls) now userId)
        by (intros c Hc; apply filter_In in Hc; apply Hle; tauto).
      now rewrite <- IH, granted_filter.
    + now rewrite !app_nil_r.
  - cbn [serve answers]. rewrite app_nil_r. exact IH.
Qed.

Lemma users_do_not_interfere_witness :
  filter (fun a => String.eqb (snd (fst a)) "u")
         (answers (run aiGenerationRateLimiter
                       [CallCheck 0 "u"; CallCheck 5 "v"; CallCleanup 7; CallCheck 9 "u"]))
  = answers (run aiGenerationRateLimiter [CallCheck 0 "u"; CallCheck 9 "u"]).
Proof.
  apply (users_do_not_interfere aiGenerationRateLimiter
           [CallCheck 0 "u"; CallCheck 5 "v"; CallCleanup 7; CallCheck 9 "u"] "u").
  cbn. repeat constructor; lia.
Defined.

(** What [cleanup] leaves in a map (its keys are distinct, as a [Map]'s
    are): for every user the timestamps of the window in their order, the
    older ones gone; no entry with an empty list; distinct keys again. *)
Theorem cleanup_sweeps (config : RateLimitConfig) (now : Z) (requests : Requests) :
  NoDup (map fst requests) ->
  NoDup (map fst (cleanup config now requests)) /\
  (forall u, kept u (cleanup config now requests)
             = filter (recent config now) (kept u requests)) /\
  (forall u l, In (u, l) (cleanup config now requests) ->
     l <> [] /\ forall t, In t l -> now - windowMs config < t).
Proof.
  intros Hnd. rewrite cleanup_swept by exact Hnd.
  split; [now apply swept_NoDup|]. split; [intros u; now apply kept_swept|].
  intros u l H. unfold swept in H. apply filter_In in H. destruct H as [H Hne].
  apply in_map_iff in H. destruct H as [[k l0] [E _]]. cbn in E, Hne.
  inversion E; subst. split; [now destruct (filter (recent config now) l0)|].
  intros t Ht. apply filter_In in Ht. destruct Ht as [_ Ht].
  now apply Z.ltb_lt in Ht.
Qed.

Lemma cleanup_sweeps_witness :
  cleanup aiGenerationRateLimiter 3600500 [("u", [0; 1000]); ("v", [100]); ("w", [900])]
  = [("u", [1000]); ("w", [900])] /\
  kept "u" (cleanup aiGenerationRateLimiter 3600500
                    [("u", [0; 1000]); ("v", [100]); ("w", [900])])
  = filter (recent aiGenerationRateLimiter 3600500) [0; 1000].
Proof.
  split; [reflexivity|].
  destruct (cleanup_sweeps aiGenerationRateLimiter 3600500
              [("u", [0; 1000]); ("v", [100]); ("w", [900])]) as (_ & H & _).
  - cbn. repeat constructor; simpl; intuition discriminate.
  - exact (H "u").
Defined.

(** ** The durations of a generated sequence *)

(** One duration of the range the request schema admits. *)
Ltac plan_case :=
  match goal with
  | |- exists (n : nat) (seconds : list Z), poseCount (number ?d) = _ /\ _ =>
      let n := eval vm_compute in
                 (match floor_Z (poseCount (number d)) with
                  | Some z => Z.to_nat z
                  | None => O
                  end) in
      let ss := eval vm_compute in
                  (match distributeDuration (number d) (poseCount (number d)) with
                   | Some l => map (fun x => match floor_Z x with
                                             | Some z => z
                                             | None => 0
                                             end) l
                   | None => []
                   end) in
      exists n, ss;
      split; [vm_compute; reflexivity|];
      split; [lia|];
      split; [vm_compute; reflexivity|];
      split; [reflexivity|];
      split; [repeat constructor; lia|];
      split; [vm_compute; reflexivity|];
      split; [vm_compute; reflexivity|];
      cbn; lia
  end.

(** For every duration the request schema admits (a whole number of minutes
    from 5 to 90; the default is 20), computed in doubles as the code does:
    the number of poses is a whole number from 6 to 12; [distributeDuration]
    returns exactly that many durations, each a whole number of seconds and
    at least 1, so that [durations[index] || 60] is the computed duration for
    every pose and never the fallback; the sum reported as [totalDuration]
    is exact, does not exceed the requested duration and falls short of it
    by less than one second per pose. *)
Theorem distributeDuration_plan (d : Z) :
  5 <= d <= 90 ->
  exists (n : nat) (seconds : list Z),
    poseCount (number d) = number (Z.of_nat n) /\
    (6 <= n <= 12)%nat /\
    distributeDuration (number d) (poseCount (number d)) = Some (map number seconds) /\
    List.length seconds = n /\
    Forall (fun s => 1 <= s) seconds /\
    map (pose_duration (map number seconds)) (seq 0 n) = map number seconds /\
    totalDuration (map number seconds) = number (fold_right Z.add 0 seconds) /\
    d * 60 - Z.of_nat n < fold_right Z.add 0 seconds <= d * 60.
Proof.
  intros H.
  assert (Hin : In d (map Z.of_nat (seq 5 86))).
  { replace d with (Z.of_nat (Z.to_nat d)) by lia. apply in_map, in_seq. lia. }
  vm_compute in Hin.
  repeat (destruct Hin as [<-|Hin]; [plan_case|]). destruct Hin.
Qed.

Lemma distributeDuration_plan_witness :
  exists (n : nat) (seconds : list Z),
    distributeDuration 20 (poseCount 20) = Some (map number seconds) /\
    List.length seconds = n /\ (6 <= n <= 12)%nat /\
    fold_right Z.add 0 seconds <= 20 * 60.
Proof.
  destruct (distributeDuration_plan 20) as (n & seconds & _ & Hn & Hd & Hl & _ & _ & _ & Hs);
    [lia|].
  exists n, seconds. split; [exact Hd|]. split; [exact Hl|]. split; [exact Hn | lia].
Defined.

(** ** The search term of the pose listing *)

Lemma split_from_concat : forall s in_gap current,
  List.concat (split_from in_gap current s)
  = rev current ++ filter (fun c => negb (white_space c)) s.
Proof.
  induction s as [|c rest IH]; intros g cur; cbn [split_from filter].
  - cbn. now rewrite app_nil_r.
  - destruct (white_space c); cbn [negb].
    + destruct g; [apply IH|]. cbn [List.concat]. now rewrite IH.
    + rewrite IH. cbn [rev]. now rewrite <- app_assoc.
Qed.

Lemma split_from_pieces : forall s in_gap current,
  Forall (fun c => white_space c = false) current ->
  Forall (Forall (fun c => white_space c = false)) (split_from in_gap current s).
Proof.
  induction s as [|c rest IH]; intros g cur Hc; cbn [split_from].
  - constructor; [|constructor]. now apply Forall_rev.
  - destruct (white_space c) eqn:W.
    + destruct g; [now apply IH|]. constructor; [now apply Forall_rev|].
      apply IH. constructor.
    + apply IH. now constructor.
Qed.

(** Reading a word does not end the piece. *)
Lemma split_from_word : forall w in_gap current rest,
  Forall (fun c => white_space c = false) w -> w <> [] ->
  split_from in_gap current (w ++ rest) = split_from false (rev w ++ current) rest.
Proof.
  induction w as [|c w IH]; intros g cur rest Hw Hne; [congruence|].
  inversion Hw as [|? ? Hc Hw']; subst. cbn [app split_from]. rewrite Hc.
  destruct w as [|c' w'].
  - reflexivity.
  - rewrite IH by (auto; discriminate). cbn [rev]. now rewrite <- !app_assoc.
Qed.

Lemma split_join : forall ws in_gap,
  ws <> [] ->
  Forall (fun w => w <> [] /\ Forall (fun c => white_space c = false) w) ws ->
  split_from in_gap [] (join_space ws) = ws.
Proof.
  induction ws as [|w ws IH]; intros g Hne Hws; [congruence|].
  inversion Hws as [|? ? [Hw1 Hw2] Hrest]; subst. cbn [join_space].
  destruct ws as [|w' ws'].
  - rewrite <- (app_nil_r w) at 1. rewrite split_from_word by assumption.
    cbn [split_from]. now rewrite app_nil_r, rev_involutive.
  - rewrite split_from_word by assumption. cbn [split_from].
    replace (white_space 32) with true by reflexivity.
    rewrite app_nil_r, rev_involutive. f_equal. apply IH; [discriminate | exact Hrest].
Qed.

Lemma replace_special_clean term :
  Forall (fun c => special c = false) (replace_special term).
Proof.
  unfold replace_special. apply Forall_forall. intros c Hc.
  apply in_map_iff in Hc. destruct Hc as [x [E _]].
  destruct (special x) eqn:S; subst c; [reflexivity | exact S].
Qed.

Lemma replace_special_id s :
  Forall (fun c => special c = false) s -> replace_special s = s.
Proof.
  unfold replace_special. intros H. rewrite <- (map_id s) at 2.
  apply map_ext_in. intros c Hc. rewrite Forall_forall in H. now rewrite (H c Hc).
Qed.

Lemma replace_special_searchable term :
  filter (fun c => negb (white_space c)) (replace_special term)
  = filter searchable term.
Proof.
  unfold replace_special, searchable. induction term as [|c rest IH]; [reflexivity|].
  cbn [map filter]. destruct (special c); cbn [negb andb].
  - replace (white_space 32) with true by reflexivity. exact IH.
  - destruct (white_space c); cbn [negb]; now rewrite IH.
Qed.

Lemma nonempty_true (w : JsString) : nonempty w = true <-> w <> [].
Proof. destruct w; cbn; split; congruence. Qed.

Lemma concat_nonempty (l : list JsString) : List.concat (filter nonempty l) = List.concat l.
Proof.
  induction l as [|w rest IH]; [reflexivity|]. cbn [filter List.concat].
  destruct w; cbn [nonempty List.concat app]; [exact IH | now rewrite IH].
Qed.

(** The words of a term: what [sanitizeSearchTerm] joins. *)
Lemma sanitize_words term :
  Forall word (filter nonempty (split_white_space (replace_special term))).
Proof.
  apply Forall_forall. intros w Hw. apply filter_In in Hw. destruct Hw as [Hin Hne].
  split; [now apply nonempty_true|].
  pose proof (split_from_pieces (replace_special term) false [] (Forall_nil _)) as Hp.
  rewrite Forall_forall in Hp. specialize (Hp w Hin).
  assert (Hs : Forall (fun c => special c = false) w).
  { apply Forall_forall. intros c Hc.
    assert (Hcc : In c (List.concat (split_white_space (replace_special term))))
      by (apply in_concat; exists w; auto).
    unfold split_white_space in Hcc. rewrite split_from_concat in Hcc.
    cbn [rev app] in Hcc. apply filter_In in Hcc. destruct Hcc as [Hcc _].
    pose proof (replace_special_clean term) as Hclean.
    rewrite Forall_forall in Hclean. now apply Hclean. }
  rewrite Forall_forall in *. intros c Hc. unfold searchable.
  now rewrite (Hs c Hc), (Hp c Hc).
Qed.

Lemma join_space_nil ws : Forall word ws -> join_space ws = [] -> ws = [].
Proof.
  destruct ws as [|w ws]; [reflexivity|]. intros H E.
  inversion H as [|? ? [Hne _] _]; subst. exfalso.
  cbn [join_space] in E. destruct ws; [contradiction|].
  destruct w; [contradiction | discriminate].
Qed.

Lemma join_space_special ws :
  Forall word ws -> Forall (fun c => special c = false) (join_space ws).
Proof.
  induction ws as [|w ws IH]; intros H; [constructor|].
  inversion H as [|? ? [_ Hw] Hrest]; subst. cbn [join_space].
  assert (Hws : Forall (fun c => special c = false) w).
  { eapply Forall_impl; [|exact Hw]. intros c Hc. unfold searchable in Hc.
    apply andb_prop in Hc. destruct Hc as [Hc _]. now apply negb_true_iff in Hc. }
  destruct ws as [|w' ws']; [exact Hws|].
  apply Forall_app. split; [exact Hws|]. constructor; [reflexivity | now apply IH].
Qed.

Lemma word_pieces ws :
  Forall word ws ->
  Forall (fun w => w <> [] /\ Forall (fun c => white_space c = false) w) ws.
Proof.
  intros H. eapply Forall_impl; [|exact H]. intros w [Hne Hw]. split; [exact Hne|].
  eapply Forall_impl; [|exact Hw]. intros c Hc. unfold searchable in Hc.
  apply andb_prop in Hc. destruct Hc as [_ Hc]. now apply negb_true_iff in Hc.
Qed.

Lemma sanitize_of_words ws :
  Forall word ws -> sanitizeSearchTerm (join_space ws) = join_space ws.
Proof.
  intros H. unfold sanitizeSearchTerm.
  rewrite replace_special_id by now apply join_space_special.
  destruct ws as [|w ws']; [reflexivity|].
  unfold split_white_space. rewrite split_join; [|discriminate | now apply word_pieces].
  f_equal. apply filter_all. intros x Hx. rewrite Forall_forall in H.
  apply nonempty_true. now apply (H x Hx).
Qed.

(** What [sanitizeSearchTerm] returns, for every string: words separated by
    single spaces, each word non-empty and free of white space and of the
    special characters, so that the result neither starts nor ends with a
    space; the words together are the searchable code units of the term, in
    their order, none lost and none added; and the result is empty, in which
    case [getPoses] skips the text search, exactly when the term has no
    searchable code unit. *)
Theorem sanitizeSearchTerm_words (term : JsString) :
  exists words : list JsString,
    sanitizeSearchTerm term = join_space words /\
    Forall word words /\
    List.concat words = filter searchable term /\
    (sanitizeSearchTerm term = [] <-> forall c, In c term -> searchable c = false).
Proof.
  exists (filter nonempty (split_white_space (replace_special term))).
  pose proof (sanitize_words term) as Hw.
  assert (Hc : List.concat (filter nonempty (split_white_space (replace_special term)))
               = filter searchable term).
  { rewrite concat_nonempty. unfold split_white_space. rewrite split_from_concat.
    cbn [rev app]. apply replace_special_searchable. }
  split; [reflexivity|]. split; [exact Hw|]. split; [exact Hc|].
  unfold sanitizeSearchTerm. split.
  - intros E. apply (join_space_nil _ Hw) in E. rewrite E in Hc. cbn in Hc.
    intros c Hin. destruct (searchable c) eqn:S; [|reflexivity].
    assert (H : In c (filter searchable term)) by (apply filter_In; auto).
    rewrite <- Hc in H. destruct H.
  - intros H. rewrite (filter_none _ _ H) in Hc.
    destruct (filter nonempty _) as [|w ws]; [reflexivity|].
    inversion Hw as [|? ? [Hne _] _]; subst. cbn [List.concat] in Hc.
    apply app_eq_nil in Hc. destruct Hc. contradiction.
Qed.

(** Sanitizing twice is sanitizing once. *)
Theorem sanitizeSearchTerm_idempotent (term : JsString) :
  sanitizeSearchTerm (sanitizeSearchTerm term) = sanitizeSearchTerm term.
Proof.
  unfold sanitizeSearchTerm at 2 3. apply sanitize_of_words, sanitize_words.
Qed.

Example sanitizeSearchTerm_example :
  sanitizeSearchTerm (codes "  tree (pose)+  a'b-c ") = codes "tree pose a'b-c".
Proof. reflexivity. Qed.
